(** * GetTor routines of Tor2web ([tor2web/utils/gettor.py])

    A shallow embedding of the locale negotiation ([getBestLangMatch]), of the
    choice of the Tor Browser version ([getLatestTBBVersion]), of the link
    extraction ([getTBBFilenames]) and of the periodic mirror task
    ([getTorTask]), then of the reading of the request ([getOSandLC]) and of
    the answers ([getRedirectURL], [sendFile], [processGetTorRequest]), with
    the properties of these functions.

    Python byte strings are [string]; lists are [list]; the set returned by
    [extractLinks] is a [gset string]; a directory is a [gmap] from file names
    to contents.  A Python call that may raise returns an [outcome]. *)

From Stdlib Require Import Ascii String NArith Lia.
From Stdlib Require OrderedTypeEx.
From stdpp Require Import base option list strings gmap.

Local Open Scope string_scope.
Local Open Scope list_scope.

(** ** Python strings *)

Module Py.

(** [c in s] for a one-character string [c]. *)
Fixpoint contains (c : ascii) (s : string) : bool :=
  match s with
  | EmptyString => false
  | String d s' => if Ascii.eqb d c then true else contains c s'
  end.

(** [s.replace(c, '')] for a one-character string [c]. *)
Fixpoint remove_char (c : ascii) (s : string) : string :=
  match s with
  | EmptyString => EmptyString
  | String d s' =>
      if Ascii.eqb d c then remove_char c s' else String d (remove_char c s')
  end.

(** [s.split(c)] for a one-character separator: never the empty list. *)
Fixpoint split (c : ascii) (s : string) : list string :=
  match s with
  | EmptyString => [EmptyString]
  | String d s' =>
      if Ascii.eqb d c then EmptyString :: split c s'
      else match split c s' with
           | h :: t => String d h :: t
           | [] => [String d EmptyString]
           end
  end.

(** [s.split(c)[0]]. *)
Definition split_head (c : ascii) (s : string) : string :=
  match split c s with
  | h :: _ => h
  | [] => EmptyString
  end.

Definition lower_char (c : ascii) : ascii :=
  let n := N_of_ascii c in
  if ((65 <=? n) && (n <=? 90))%N then ascii_of_N (n + 32) else c.

(** [s.lower()] on a byte string. *)
Fixpoint lower (s : string) : string :=
  match s with
  | EmptyString => EmptyString
  | String c s' => String (lower_char c) (lower s')
  end.

End Py.

(** ** Exceptions and results *)

Inductive exn : Type :=
| IndexError      (* list index out of range *)
| AttributeError  (* LooseVersion('').version *)
| ValueError      (* json.loads on a malformed document *)
| ReError         (* re.findall on a text that is no pattern *)
| IOError         (* open() of a file, write() and close() *)
| OSError         (* os.mkdir, os.rename *)
| ShutilError     (* shutil.move: the destination is there already *)
| InsecurePath    (* FilePath.child *)
| WebError.       (* getPage, downloadPage *)

Inductive outcome (A : Type) : Type :=
| Return (a : A)
| Raise (e : exn).
Arguments Return {A} a.
Arguments Raise {A} e.

(** ** [getBestLangMatch] *)

Definition parse_accept_language (accept_language : string) : list string :=
  map (Py.split_head ";") (Py.split "," (Py.remove_char " " accept_language)).

Definition language_only (lc : string) : string :=
  if Py.contains "-" lc then Py.split_head "-" lc else lc.

(** [for l in supported_lcs: if test(l): return l] *)
Fixpoint first_supported (test : string -> bool) (supported_lcs : list string)
  : option string :=
  match supported_lcs with
  | [] => None
  | l :: ls => if test l then Some l else first_supported test ls
  end.

(** The body of the outer loop for one requested language: [Some l] when one
    of the three inner loops returns [l], [None] when the body falls
    through to the next requested language. *)
Definition match_requested (lc : string) (supported_lcs : list string)
  : option string :=
  match first_supported
          (fun l => String.eqb (Py.lower lc) (Py.lower l)) supported_lcs with
  | Some l => Some l
  | None =>
      let lc := language_only lc in
      match first_supported
              (fun l => String.eqb (Py.lower lc) (Py.lower l)) supported_lcs with
      | Some l => Some l
      | None =>
          first_supported
            (fun l => String.eqb (Py.lower lc) (Py.lower (language_only l)))
            supported_lcs
      end
  end.

Fixpoint best_of_requested (lcs supported_lcs : list string) : string :=
  match lcs with
  | [] => "en-US"
  | lc :: rest =>
      match match_requested lc supported_lcs with
      | Some l => l
      | None => best_of_requested rest supported_lcs
      end
  end.

Definition getBestLangMatch (accept_language : string)
    (supported_lcs : list string) : string :=
  best_of_requested (parse_accept_language accept_language) supported_lcs.

(** The supported locale [l] does not answer the requested [lc] in any of
    the three inner loops. *)
Definition unmatched (lc l : string) : Prop :=
  Py.lower lc <> Py.lower l /\
  Py.lower (language_only lc) <> Py.lower l /\
  Py.lower (language_only lc) <> Py.lower (language_only l).

Global Instance unmatched_dec lc l : Decision (unmatched lc l).
Proof. unfold unmatched. apply _. Defined.

(** *** The resolution rule, as the interface description words it *)

Module Rule.

(** The primary subtag of a language tag: what precedes its first hyphen. *)
Definition primary_subtag (tag : string) : string := Py.split_head "-" tag.

Definition same_ci (a b : string) : Prop := Py.lower a = Py.lower b.

Global Instance same_ci_dec a b : Decision (same_ci a b).
Proof. unfold same_ci. apply _. Defined.

(** The three steps for one requested tag, tried in this order; each step
    yields the first supported tag that qualifies. *)
Definition exact (tag : string) (supported : list string) : option string :=
  snd <$> list_find (same_ci tag) supported.
Definition primary_exact (tag : string) (supported : list string)
  : option string :=
  snd <$> list_find (same_ci (primary_subtag tag)) supported.
Definition primary_any (tag : string) (supported : list string)
  : option string :=
  snd <$> list_find
    (fun l => same_ci (primary_subtag tag) (primary_subtag l)) supported.

Definition for_tag (supported : list string) (tag : string) : option string :=
  match exact tag supported with
  | Some l => Some l
  | None =>
      match primary_exact tag supported with
      | Some l => Some l
      | None => primary_any tag supported
      end
  end.

Definition fallback : string := "en-US".

(** The first requested tag that resolves decides; else the fallback. *)
Definition bestLocale (tags supported : list string) : string :=
  default fallback (head (omap (for_tag supported) tags)).

End Rule.

(** ** [distutils.version.LooseVersion]

    The class is Python's, not the repository's.  The model follows Python 2,
    the language of the module: a version string is cut by the pattern
    [(\d+ | [a-z]+ | \.)] into runs of digits, runs of lower-case letters and
    runs of other characters, the dots and the empty pieces are dropped, a run
    of digits becomes an integer, and two versions compare as the lists of
    their components, an integer being smaller than any string. *)

Module LooseVersion.

Inductive kind : Type := Digits | Letters | Dot | Other.

Definition kind_eqb (a b : kind) : bool :=
  match a, b with
  | Digits, Digits | Letters, Letters | Dot, Dot | Other, Other => true
  | _, _ => false
  end.

Definition classify (c : ascii) : kind :=
  let n := N_of_ascii c in
  if ((48 <=? n) && (n <=? 57))%N then Digits
  else if ((97 <=? n) && (n <=? 122))%N then Letters
  else if (n =? 46)%N then Dot
  else Other.

(** The non-empty pieces of [component_re.split(vstring)], each with the
    kind of its characters; every dot is a piece of its own. *)
Fixpoint pieces (vstring : string) : list (kind * string) :=
  match vstring with
  | EmptyString => []
  | String c s' =>
      let k := classify c in
      match k, pieces s' with
      | Dot, ps => (Dot, String c EmptyString) :: ps
      | _, (k', p) :: ps =>
          if kind_eqb k k' then (k, String c p) :: ps
          else (k, String c EmptyString) :: (k', p) :: ps
      | _, [] => [(k, String c EmptyString)]
      end
  end.

Inductive component : Type :=
| CInt (n : N)
| CStr (s : string).

(** [int(x)] on a run of decimal digits. *)
Definition int_of_digits (x : string) : N :=
  fold_left (fun acc c => (10 * acc + (N_of_ascii c - 48))%N)
            (list_ascii_of_string x) 0%N.

Definition to_component (p : kind * string) : component :=
  match p with
  | (Digits, x) => CInt (int_of_digits x)
  | (_, x) => CStr x
  end.

Definition is_dot (p : kind * string) : bool :=
  match p with (Dot, _) => true | _ => false end.

(** [LooseVersion(vstring).version] *)
Definition parse (vstring : string) : list component :=
  map to_component (List.filter (fun p => negb (is_dot p)) (pieces vstring)).

(** [cmp] of two components in Python 2. *)
Definition cmp_component (a b : component) : comparison :=
  match a, b with
  | CInt x, CInt y => N.compare x y
  | CInt _, CStr _ => Lt
  | CStr _, CInt _ => Gt
  | CStr x, CStr y => String.compare x y
  end.

(** [cmp] of two lists. *)
Fixpoint cmp (v w : list component) : comparison :=
  match v, w with
  | [], [] => Eq
  | [], _ :: _ => Lt
  | _ :: _, [] => Gt
  | a :: v', b :: w' =>
      match cmp_component a b with
      | Eq => cmp v' w'
      | c => c
      end
  end.

(** The order of two versions that have their components. *)
Definition lt (v w : string) : bool :=
  match cmp (parse v) (parse w) with Lt => true | _ => false end.

(** [LooseVersion(v) < LooseVersion(w)].  The constructor parses its
    argument only when it is not empty ([if vstring: self.parse(vstring)]),
    and the comparison reads the attribute [version] of both sides: with
    an empty string on either side it raises. *)
Definition less (v w : string) : outcome bool :=
  match v, w with
  | EmptyString, _ | _, EmptyString => Raise AttributeError
  | _, _ => Return (lt v w)
  end.

End LooseVersion.

(** ** [getLatestTBBVersion] *)

(** [for v in version_numbers: if LooseVersion(v) <
    LooseVersion(stable_version): stable_version = v] *)
Fixpoint stable_loop (version_numbers : list string) (stable_version : string)
  : outcome string :=
  match version_numbers with
  | [] => Return stable_version
  | v :: rest =>
      match LooseVersion.less v stable_version with
      | Return smaller =>
          stable_loop rest (if smaller then v else stable_version)
      | Raise e => Raise e
      end
  end.

Definition getLatestTBBVersion (versions : list string) : outcome string :=
  let version_numbers :=
    List.filter (fun v => negb (Py.contains "-" v)) versions in
  match version_numbers with
  | [] => Raise IndexError
  | first :: _ => stable_loop version_numbers first
  end.

(** *** The pre-release marker, as the interface description words it

    A stable version is dotted-numeric: numbers set apart by dots.  A
    pre-release marker is any segment that is not numeric, a hyphenated
    suffix for one: a version has a marker when one of its characters is
    neither a digit nor a dot. *)

Module Marker.

Definition numeric (c : ascii) : bool :=
  let n := N_of_ascii c in
  ((48 <=? n) && (n <=? 57))%N || (n =? 46)%N.

Definition pre_release (v : string) : bool :=
  negb (forallb numeric (list_ascii_of_string v)).

End Marker.

(** ** Regular expressions

    The fragment of Python's [re] that the module's pattern uses, with the
    semantics of its backtracking matcher: alternatives are tried from left to
    right, [?] and [+] are greedy, the first way to match wins.  Subjects are
    lists of characters. *)

Module Re.

(** Patterns of one character. *)
Inductive cset : Type :=
| Chr (c : ascii)               (* the character itself *)
| Any                           (* [.]: any character but a newline *)
| OneOf (cs : list ascii)       (* [[...]] *)
| NoneOf (cs : list ascii).     (* [[^...]] *)

Definition mem (c : ascii) (cs : list ascii) : bool :=
  existsb (Ascii.eqb c) cs.

Definition accepts (a : cset) (c : ascii) : bool :=
  match a with
  | Chr d => Ascii.eqb c d
  | Any => negb (Ascii.eqb c "010")
  | OneOf cs => mem c cs
  | NoneOf cs => negb (mem c cs)
  end.

Inductive regex : Type :=
| Eps                           (* the empty pattern *)
| One (a : cset)
| Cat (r1 r2 : regex)
| Alt (r1 r2 : regex)           (* [r1|r2] *)
| Opt (r : regex)               (* [r?] *)
| Plus (a : cset)               (* [a+] *)
| Group (n : nat) (r : regex).  (* [(r)], the [n]-th group of the pattern *)

Definition cat_list (rs : list regex) : regex := foldr Cat Eps rs.

(** A string used as a pattern: its characters, one after the other. *)
Definition lits (s : string) : list regex :=
  map (fun c => One (Chr c)) (list_ascii_of_string s).

(** The text of each group that took part in the match, last set first. *)
Definition captures : Type := list (nat * list ascii).

Fixpoint group (n : nat) (caps : captures) : list ascii :=
  match caps with
  | [] => []
  | (i, t) :: caps' => if Nat.eqb i n then t else group n caps'
  end.

(** What was read between the subject [s] and its suffix [s']. *)
Definition consumed (s s' : list ascii) : list ascii :=
  take (length s - length s') s.

Section Matcher.
Context {X : Type}.

(** [a+] followed by [k]: the longest run first, then shorter ones. *)
Fixpoint plus_k (a : cset) (s : list ascii) (k : list ascii -> option X)
  : option X :=
  match s with
  | [] => None
  | c :: s' =>
      if accepts a c then
        match plus_k a s' k with
        | Some x => Some x
        | None => k s'
        end
      else None
  end.

(** [m r s caps k]: match [r] at the head of [s], then go on with [k] on
    what is left; [None] when no way of matching [r] lets [k] succeed. *)
Fixpoint m (r : regex) (s : list ascii) (caps : captures)
    (k : list ascii -> captures -> option X) : option X :=
  match r with
  | Eps => k s caps
  | One a =>
      match s with
      | c :: s' => if accepts a c then k s' caps else None
      | [] => None
      end
  | Cat r1 r2 => m r1 s caps (fun s' caps' => m r2 s' caps' k)
  | Alt r1 r2 =>
      match m r1 s caps k with
      | Some x => Some x
      | None => m r2 s caps k
      end
  | Opt r1 =>
      match m r1 s caps k with
      | Some x => Some x
      | None => k s caps
      end
  | Plus a => plus_k a s (fun s' => k s' caps)
  | Group n r1 =>
      m r1 s caps (fun s' caps' => k s' ((n, consumed s s') :: caps'))
  end.
End Matcher.

(** The end of a match: the groups and what follows. *)
Definition found (rest : list ascii) (caps : captures)
  : option (captures * list ascii) := Some (caps, rest).

(** A match of [r] at the head of [s]. *)
Definition match_at (r : regex) (s : list ascii)
  : option (captures * list ascii) :=
  m r s [] found.

(** The scan of [re.findall]: matches are looked for from left to right and
    do not overlap; [skip] counts the characters of the last match that are
    still to be passed. *)
Fixpoint scan (r : regex) (s : list ascii) (skip : nat) : list captures :=
  match s with
  | [] =>
      match skip, match_at r [] with
      | O, Some (caps, _) => [caps]
      | _, _ => []
      end
  | _ :: s' =>
      match skip with
      | S n => scan r s' n
      | O =>
          match match_at r s with
          | Some (caps, rest) =>
              caps :: scan r s' (length s - length rest - 1)
          | None => scan r s' 0
          end
      end
  end.

(** [re.findall(r, page)] for a pattern with several groups: one tuple of
    group texts for each match. *)
Definition findall (r : regex) (page : string) : list captures :=
  scan r (list_ascii_of_string page) 0.

(** The pattern in Python's notation. *)
Definition show_cset (a : cset) : string :=
  match a with
  | Chr c => String c EmptyString
  | Any => "."
  | OneOf cs => "[" +:+ string_of_list_ascii cs +:+ "]"
  | NoneOf cs => "[^" +:+ string_of_list_ascii cs +:+ "]"
  end.

Fixpoint show (r : regex) : string :=
  match r with
  | Eps => EmptyString
  | One a => show_cset a
  | Cat r1 r2 => show r1 +:+ show r2
  | Alt r1 r2 => show r1 +:+ "|" +:+ show r2
  | Opt r1 => show r1 +:+ "?"
  | Plus a => show_cset a +:+ "+"
  | Group _ r1 => "(" +:+ show r1 +:+ ")"
  end.

(** The characters that Python reads as operators in a pattern. *)
Definition special (c : ascii) : bool :=
  mem c (list_ascii_of_string ".^$*+?{}[]\|()").

(** A string that, used as a pattern, stands for itself. *)
Definition plain (s : string) : bool :=
  forallb (fun c => negb (special c)) (list_ascii_of_string s).

(** A pattern without choice: one pattern of one character after the
    other.  [flat_match pat s] is what follows the match in [s]. *)
Fixpoint flat_match (pat : list cset) (s : list ascii)
  : option (list ascii) :=
  match pat with
  | [] => Some s
  | a :: pat' =>
      match s with
      | c :: s' => if accepts a c then flat_match pat' s' else None
      | [] => None
      end
  end.

Fixpoint starts_with (p s : list ascii) : bool :=
  match p, s with
  | [], _ => true
  | _ :: _, [] => false
  | a :: p', b :: s' => Ascii.eqb a b && starts_with p' s'
  end.

(** [p] occurs in [s]. *)
Fixpoint has_infix (p s : list ascii) : bool :=
  starts_with p s ||
  match s with
  | [] => false
  | _ :: s' => has_infix p s'
  end.

End Re.

(** ** The links of a mirror page *)

Definition dq : ascii := "034".

(** The characters that end the text of a link in [url_regexp]. *)
Definition delimiters : list ascii := ["'"%char; dq; " "%char; ">"%char].

(** [(%s.exe)|(%s.exe.asc)|(%s.dmg)|(%s.dmg.asc)] for the [i]-th locale; the
    groups of the whole pattern are numbered from the left, the first two
    being those of [url_regexp]. *)
Definition lang_regexp (i : nat) (lang : string) : Re.regex :=
  let ext (n : nat) (parts : list Re.regex) :=
    Re.Group (3 + 4 * i + n) (Re.cat_list (Re.lits lang ++ parts)) in
  let dot := Re.One Re.Any in
  Re.Alt (ext 0 (dot :: Re.lits "exe"))
    (Re.Alt (ext 1 (dot :: Re.lits "exe" ++ dot :: Re.lits "asc"))
       (Re.Alt (ext 2 (dot :: Re.lits "dmg"))
          (ext 3 (dot :: Re.lits "dmg" ++ dot :: Re.lits "asc")))).

(** The four alternatives for a locale as patterns without choice. *)
Definition lang_patterns (lang : string) : list (list Re.cset) :=
  let l := map Re.Chr (list_ascii_of_string lang) in
  let lit (s : string) := map Re.Chr (list_ascii_of_string s) in
  [l ++ Re.Any :: lit "exe";
   l ++ Re.Any :: lit "exe" ++ Re.Any :: lit "asc";
   l ++ Re.Any :: lit "dmg";
   l ++ Re.Any :: lit "dmg" ++ Re.Any :: lit "asc"].

(** The first and the third of them, for the two installers. *)
Definition installer_patterns (lang : string) : list (list Re.cset) :=
  let l := map Re.Chr (list_ascii_of_string lang) in
  let lit (s : string) := map Re.Chr (list_ascii_of_string s) in
  [l ++ Re.Any :: lit "exe"; l ++ Re.Any :: lit "dmg"].

(** One turn of the loop over the locales: [i] and [filenames_regexp]. *)
Definition add_lang (acc : nat * Re.regex) (lang : string) : nat * Re.regex :=
  let '(i, filenames_regexp) := acc in
  (S i,
   match i with
   | O => lang_regexp i lang
   | S _ => Re.Alt filenames_regexp (lang_regexp i lang)
   end).

Definition filenames_regexp (langs : list string) : Re.regex :=
  snd (fold_left add_lang langs (O, Re.Eps)).

(** The first group of the pattern, the text of the link: one or more
    characters that are no delimiter, then the second group, the choice
    between the file names. *)
Definition link_group (langs : list string) : Re.regex :=
  Re.Group 1
    (Re.Cat (Re.Plus (Re.NoneOf delimiters))
            (Re.Group 2 (filenames_regexp langs))).

(** The pattern of the task, [url_regexp_str] below as a tree: the text
    href=, a quote or not, and the first group.  A locale stands for itself
    in the pattern when it is [Re.plain]. *)
Definition url_regexp (langs : list string) : Re.regex :=
  Re.cat_list
    (Re.lits "href=" ++
     [Re.Opt (Re.One (Re.OneOf ["'"%char; dq])); link_group langs]).

(** The same pattern as the text that the task builds. *)
Definition add_lang_str (acc : nat * string) (lang : string) : nat * string :=
  let '(i, filenames_regexp) := acc in
  let filenames_regexp :=
    match i with O => filenames_regexp | S _ => filenames_regexp +:+ "|" end in
  (S i,
   filenames_regexp +:+
     "(" +:+ lang +:+ ".exe)|(" +:+ lang +:+ ".exe.asc)|(" +:+
     lang +:+ ".dmg)|(" +:+ lang +:+ ".dmg.asc)").

Definition filenames_regexp_str (langs : list string) : string :=
  snd (fold_left add_lang_str langs (O, EmptyString)).

Definition url_regexp_str (langs : list string) : string :=
  "href=['" +:+ String dq "]?([^'" +:+ String dq " >]+(" +:+
  filenames_regexp_str langs +:+ "))".

(** [extractLinks(page, urls_regexp)]: the first group of every match. *)
Definition extractLinks (page : string) (urls_regexp : Re.regex) : gset string :=
  list_to_set
    (map (fun x => string_of_list_ascii (Re.group 1 x))
         (Re.findall urls_regexp page)).

(** A file name satisfies the pattern when a link to it is extracted as it
    is: the page is the one attribute [href="filename"]. *)
Definition link_to (filename : string) : string :=
  "href=" +:+ String dq filename +:+ String dq EmptyString.

Definition matches_filename (langs : list string) (filename : string) : Prop :=
  extractLinks (link_to filename) (url_regexp langs) = {[ filename ]}.

(** A string that can stand in a link: none of its characters ends it. *)
Definition link_safe (s : string) : bool :=
  forallb (fun c => negb (Re.mem c delimiters)) (list_ascii_of_string s).

(** [sub in s] *)
Definition contains_str (sub s : string) : bool :=
  Re.has_infix (list_ascii_of_string sub) (list_ascii_of_string s).

(** The locales for which the installers are shown to be matched: no
    operator of patterns and no delimiter among the characters, and neither
    "exe" nor "dmg" inside. *)
Definition locale_ok (lang : string) : bool :=
  Re.plain lang && link_safe lang &&
  negb (contains_str "exe" lang) && negb (contains_str "dmg" lang).

(** The ends that [url_regexp] asks of a link, after the locale: any
    character and "exe" or "dmg", then possibly any character and "asc". *)
Definition link_end (tail : string) : Prop :=
  exists c : ascii,
    tail = String c "exe" \/ tail = String c "dmg" \/
    (exists c' : ascii, tail = String c ("exe" +:+ String c' "asc")) \/
    (exists c' : ascii, tail = String c ("dmg" +:+ String c' "asc")).

(** The names under which [processGetTorRequest] looks for the files. *)
Inductive client_os : Type := windows | osx.
Inductive request_type : Type := signature | file.

Definition tb_file (client : client_os) (type : request_type)
    (version lang : string) : string :=
  match client with
  | windows =>
      let ext := match type with signature => "exe.asc" | file => "exe" end in
      "torbrowser-install-" +:+ version +:+ "_" +:+ lang +:+ "." +:+ ext
  | osx =>
      let ext := match type with signature => "dmg.asc" | file => "dmg" end in
      "TorBrowser-" +:+ version +:+ "-osx32_" +:+ lang +:+ "." +:+ ext
  end.

(** The names that the templates give for a version and a list of locales. *)
Definition template_names (version : string) (langs : list string)
  : list string :=
  lang ← langs;
  [tb_file windows file version lang; tb_file windows signature version lang;
   tb_file osx file version lang; tb_file osx signature version lang].

(** ** The files of the task and the outside world *)

(** What the task reads and writes under [config.datadir].  A directory is
    seen through the files in it; the live directory can also hold a
    directory [temp], the one that [shutil.move] makes when it finds the
    live directory still there. *)
Record World : Type := {
  latest_tb_file : option string;            (* lists/latest_torbrowser.txt *)
  temp_path : option (gmap string string);   (* torbrowser/temp *)
  latest_path : option (gmap string string); (* torbrowser/latest *)
  latest_temp : option (gmap string string); (* torbrowser/latest/temp *)
}.

(** The files with a live directory that has no directory inside. *)
Definition mkWorld (version : option string)
    (staging live : option (gmap string string)) : World :=
  Build_World version staging live None.

Definition with_version (w : World) (text : option string) : World :=
  Build_World text (temp_path w) (latest_path w) (latest_temp w).

Definition with_temp (w : World) (staging : option (gmap string string))
  : World :=
  Build_World (latest_tb_file w) staging (latest_path w) (latest_temp w).

(** The operations of the task on these files. *)
Inductive fsop : Type :=
| ReadVersion                 (* open(latest_tb_file, 'r') and read() *)
| RmtreeTemp                  (* shutil.rmtree(temp_path, True) *)
| MkdirTemp                   (* os.mkdir(temp_path) *)
| OpenTemp (f : string)       (* FilePath(temp_path).child(f).open('w') *)
| SaveTemp (f : string)       (* downloadPage writes the body to the file *)
| RmtreeLatest                (* shutil.rmtree(latest_path, True) *)
| MoveTemp                    (* shutil.move(temp_path, latest_path) *)
| OpenVersion                 (* open(latest_tb_file, 'w') *)
| WriteVersion (v : string).  (* write(v), and the file is closed *)

Global Instance fsop_eq_dec : EqDecision fsop.
Proof. solve_decision. Defined.

(** What one run of the task meets outside: the answers of the network, of
    [json.loads] and of the loader of the locale list
    ([tor2web.utils.lists.List]), and the operations on files that fail,
    refused by the system or, for a name that is no plain child of the
    staging directory, by [FilePath.child], with the exception raised.

    A removal that fails does so in silence ([shutil.rmtree(path, True)]
    ignores the errors): the directory is still there afterwards, with those
    of its entries that could not be removed; [rmtree_keeps] tells them, by
    their path from [torbrowser/].

    [findall_other] is [extractLinks] on a pattern that is outside the
    fragment [Re], given as its text: there [re.findall] reads the operators
    that the text has, or raises. *)
Record Env : Type := mkEnv {
  getPage : string -> outcome string;
  json_loads : string -> outcome (list string);
  gettor_locales : outcome (list string);
  downloadPage : string -> outcome string;
  fs_fault : fsop -> option exn;
  rmtree_keeps : list string -> bool;
  findall_other : string -> string -> outcome (gset string);
}.

(** The state of a run: the files, and the operations done so far, each with
    the files as it left them (most recent first). *)
Record State : Type := mkState {
  world : World;
  log : list (fsop * World);
}.

Definition M (A : Type) : Type := State -> outcome A * State.

Definition ret {A} (a : A) : M A := fun st => (Return a, st).
Definition bind {A B} (c : M A) (k : A -> M B) : M B :=
  fun st =>
    match c st with
    | (Return a, st') => k a st'
    | (Raise e, st') => (Raise e, st')
    end.
Definition lift {A} (o : outcome A) : M A := fun st => (o, st).

(** [try: c  except Exception: handler] *)
Definition try_except {A} (c : M A) (handler : exn -> M A) : M A :=
  fun st =>
    match c st with
    | (Return a, st') => (Return a, st')
    | (Raise e, st') => handler e st'
    end.

Declare Scope task_scope.
Delimit Scope task_scope with task.
Notation "x <- c ;; k" := (bind c (fun x => k))
  (at level 100, c at next level, k at level 200, right associativity)
  : task_scope.
Notation "c ;; k" := (bind c (fun _ => k))
  (at level 100, k at level 200, right associativity) : task_scope.

(** An operation that the system may refuse, and that otherwise changes the
    files as [change] says (or raises as [change] says). *)
Definition perform (env : Env) (op : fsop) (change : World -> outcome World)
  : M unit :=
  fun st =>
    match fs_fault env op with
    | Some e => (Raise e, st)
    | None =>
        match change (world st) with
        | Return w' => (Return tt, mkState w' ((op, w') :: log st))
        | Raise e => (Raise e, st)
        end
    end.

(** An operation that always returns. *)
Definition always (op : fsop) (change : World -> World) : M unit :=
  fun st =>
    let w' := change (world st) in
    (Return tt, mkState w' ((op, w') :: log st)).

(** What a removal that fails leaves of the files of the directory
    [dir]. *)
Definition left_of (env : Env) (dir : list string) (d : gmap string string)
  : gmap string string :=
  filter (fun entry => rmtree_keeps env (dir ++ [fst entry]) = true) d.

(** [shutil.rmtree(temp_path, True)] removes the directory if it is there
    and ignores every error. *)
Definition after_rmtree_temp (env : Env) (w : World) : World :=
  with_temp w
    match fs_fault env RmtreeTemp with
    | Some _ => left_of env ["temp"] <$> temp_path w
    | None => None
    end.

Definition rmtree_temp (env : Env) : M unit :=
  always RmtreeTemp (after_rmtree_temp env).

(** [shutil.rmtree(latest_path, True)], the same for the live directory and
    the directory [temp] that it may hold. *)
Definition after_rmtree_latest (env : Env) (w : World) : World :=
  match fs_fault env RmtreeLatest, latest_path w with
  | Some _, Some d =>
      Build_World (latest_tb_file w) (temp_path w)
        (Some (left_of env ["latest"] d))
        (if rmtree_keeps env ["latest"; "temp"]
         then left_of env ["latest"; "temp"] <$> latest_temp w
         else None)
  | _, _ => Build_World (latest_tb_file w) (temp_path w) None None
  end.

Definition rmtree_latest (env : Env) : M unit :=
  always RmtreeLatest (after_rmtree_latest env).

Definition mkdir_temp (env : Env) : M unit :=
  perform env MkdirTemp (fun w =>
    match temp_path w with
    | Some _ => Raise OSError
    | None => Return (with_temp w (Some ∅))
    end).

(** Opening for writing creates the file, empty. *)
Definition open_temp (env : Env) (f : string) : M unit :=
  perform env (OpenTemp f) (fun w =>
    match temp_path w with
    | Some d => Return (with_temp w (Some (<[f := EmptyString]> d)))
    | None => Raise IOError
    end).

(** [downloadPage(url, savefile)]: the body of the page goes to the file. *)
Definition download (env : Env) (url f : string) : M unit :=
  (body <- lift (downloadPage env url) ;;
   perform env (SaveTemp f) (fun w =>
     match temp_path w with
     | Some d => Return (with_temp w (Some (<[f := body]> d)))
     | None => Raise IOError
     end))%task.

(** [shutil.move(temp_path, latest_path)].  With no directory at
    [latest_path] the staging directory is renamed.  With a directory
    there, which is the case when its removal has failed, the staging
    directory is moved inside it, under its own name [temp], unless the
    directory has an entry of this name already: then the call raises
    [shutil.Error].  With no staging directory the renaming fails and so
    does the copy that [shutil.move] tries next. *)
Definition after_move (w : World) : outcome World :=
  match temp_path w with
  | None => Raise IOError
  | Some d =>
      match latest_path w with
      | None => Return (Build_World (latest_tb_file w) None (Some d) None)
      | Some live =>
          if decide (is_Some (latest_temp w) \/ is_Some (live !! "temp"))
          then Raise ShutilError
          else Return (Build_World (latest_tb_file w) None (Some live) (Some d))
      end
  end.

Definition move_temp (env : Env) : M unit := perform env MoveTemp after_move.

Definition read_version (env : Env) : M string :=
  fun st =>
    match fs_fault env ReadVersion with
    | Some e => (Raise e, st)
    | None =>
        match latest_tb_file (world st) with
        | Some text => (Return (Py.remove_char "010" text), st)
        | None => (Raise IOError, st)
        end
    end.

(** [with open(latest_tb_file, 'w') as version_file] makes the file or
    empties it; [version_file.write(latest_version)] and the end of the
    block then put the version in it. *)
Definition open_version (env : Env) : M unit :=
  perform env OpenVersion (fun w => Return (with_version w (Some EmptyString))).

Definition write_version (env : Env) (v : string) : M unit :=
  perform env (WriteVersion v) (fun w => Return (with_version w (Some v))).

(** ** [getTBBVersions], [getTBBFilenames], [getTorTask] *)

Definition getTBBVersions (env : Env) (url : string) : M string :=
  lift (getPage env url).

(** A pattern as [re] reads it: a tree of the fragment [Re], or a text that
    the fragment does not cover. *)
Inductive pattern : Type :=
| InFragment (r : Re.regex)
| Outside (text : string).

(** [url_regexp] of the task: the text [url_regexp_str], which [re] reads
    as the tree [url_regexp] when each locale stands for itself. *)
Definition url_pattern (langs : list string) : pattern :=
  if forallb Re.plain langs then InFragment (url_regexp langs)
  else Outside (url_regexp_str langs).

(** [extractLinks(page, urls_regexp)] for either kind of pattern. *)
Definition findall_links (env : Env) (page : string) (urls_regexp : pattern)
  : outcome (gset string) :=
  match urls_regexp with
  | InFragment r => Return (extractLinks page r)
  | Outside text => findall_other env text page
  end.

Definition getTBBFilenames (env : Env) (url : string) (urls_regexp : pattern)
  : M (gset string) :=
  (page <- lift (getPage env url) ;;
   lift (findall_links env page urls_regexp))%task.

Definition versions_url : string :=
  "https://www.torproject.org/projects/torbrowser/RecommendedTBBVersions".

Definition dist_tpo : string := "https://dist.torproject.org/torbrowser/".

(** [for f in files: ...] *)
Fixpoint download_all (env : Env) (latest_version : string) (files : list string)
  : M unit :=
  match files with
  | [] => ret tt
  | f :: rest =>
      (let url := dist_tpo +:+ latest_version +:+ "/" +:+ f in
       open_temp env f ;;
       download env url f ;;
       download_all env latest_version rest)%task
  end.

(** The last three statements of the task. *)
Definition publish (env : Env) (latest_version : string) : M unit :=
  (rmtree_latest env ;;
   move_temp env ;;
   open_version env ;;
   write_version env latest_version)%task.

(** The body of the [try] statement. *)
Definition getTorTask_body (env : Env) : M unit :=
  (response <- getTBBVersions env versions_url ;;
   versions <- lift (json_loads env response) ;;
   latest_version <- lift (getLatestTBBVersion versions) ;;
   current_version <- read_version env ;;
   if decide (current_version = latest_version) then ret tt
   else
     let mirror := dist_tpo +:+ latest_version +:+ "/" in
     langs <- lift (gettor_locales env) ;;
     files <- getTBBFilenames env mirror (url_pattern langs) ;;
     rmtree_temp env ;;
     mkdir_temp env ;;
     download_all env latest_version (elements files) ;;
     publish env latest_version)%task.

Definition getTorTask (env : Env) : M unit :=
  try_except (getTorTask_body env) (fun _ => ret tt).

(** A run of the task from the files [w]. *)
Definition run (env : Env) (w : World) : outcome unit * State :=
  getTorTask env (mkState w []).

Definition run_body (env : Env) (w : World) : outcome unit * State :=
  getTorTask_body env (mkState w []).

(** The operations of a run, first to last. *)
Definition operations (st : State) : list fsop := rev (map fst (log st)).

(** The operations that touch [temp_path] only. *)
Definition staging_op (op : fsop) : Prop :=
  match op with
  | RmtreeTemp | MkdirTemp | OpenTemp _ | SaveTemp _ => True
  | _ => False
  end.

(** Two states of the files with the same live directory and the same
    version file. *)
Definition same_served (w w' : World) : Prop :=
  latest_path w' = latest_path w /\ latest_temp w' = latest_temp w /\
  latest_tb_file w' = latest_tb_file w.

(** [st'] comes after [st] by staging operations alone: the log has grown by
    such operations, and neither the live directory nor the version file has
    changed at any point. *)
Definition staged_from (st st' : State) : Prop :=
  exists l,
    log st' = l ++ log st /\
    Forall (fun p => staging_op (fst p) /\ same_served (world st) (snd p)) l /\
    same_served (world st) (world st').

(** What a successful download of [f] leaves in its file. *)
Definition body_of (env : Env) (latest_version f : string) : string :=
  match downloadPage env (dist_tpo +:+ latest_version +:+ "/" +:+ f) with
  | Return body => body
  | Raise _ => EmptyString
  end.

(** The directory that holds the files [files] of a release, downloaded. *)
Definition release_set (env : Env) (latest_version : string)
    (files : list string) : gmap string string :=
  fold_left (fun d f => <[f := body_of env latest_version f]> d) files ∅.

(** ** Sample runs *)

Module Sample.

Definition old_release : gmap string string :=
  {[ "torbrowser-install-5.5.2_en-US.exe" := "old" ]}.

(** The files before the run: version 5.5.2 is served. *)
Definition before : World :=
  mkWorld (Some "5.5.2") None (Some old_release).

Definition page : string :=
  link_to "torbrowser-install-5.5.3_en-US.exe".

(** A run in which every call succeeds. *)
Definition fine : Env :=
  mkEnv (fun url => if decide (url = versions_url)
                    then Return "[...]" else Return page)
        (fun _ => Return ["5.5.3"; "5.5.4-alpha"])
        (Return ["en-US"])
        (fun _ => Return "new")
        (fun _ => None)
        (fun _ => true)
        (fun _ _ => Raise ReError).

(** The download fails. *)
Definition download_fails : Env :=
  mkEnv (getPage fine) (json_loads fine) (gettor_locales fine)
        (fun _ => Raise WebError) (fs_fault fine)
        (rmtree_keeps fine) (findall_other fine).


(** The removal of the live directory fails and leaves every file. *)
Definition removal_fails : Env :=
  mkEnv (getPage fine) (json_loads fine) (gettor_locales fine)
        (downloadPage fine)
        (fun op => match op with RmtreeLatest => Some OSError | _ => None end)
        (rmtree_keeps fine) (findall_other fine).

(** The version file can be opened, and the write then fails. *)
Definition write_fails : Env :=
  mkEnv (getPage fine) (json_loads fine) (gettor_locales fine)
        (downloadPage fine)
        (fun op => match op with WriteVersion _ => Some IOError | _ => None end)
        (rmtree_keeps fine) (findall_other fine).

(** The list of locales is empty and the page links to index.html. *)
Definition no_locales : Env :=
  mkEnv (fun url => if decide (url = versions_url)
                    then Return "[...]" else Return (link_to "index.html"))
        (json_loads fine) (Return [])
        (downloadPage fine) (fs_fault fine)
        (rmtree_keeps fine) (findall_other fine).

End Sample.

(** ** [str] of the raw headers

    [headers.getRawHeaders(name)] is the list of the values of a header, or
    [None]; the module applies [str] to it.  This is Python 2's [repr] of a
    list of byte strings. *)

Module PyRepr.

Definition backslash : ascii := "092".

Definition hex_digit (n : N) : ascii :=
  match n with
  | 0 => "0" | 1 => "1" | 2 => "2" | 3 => "3" | 4 => "4" | 5 => "5"
  | 6 => "6" | 7 => "7" | 8 => "8" | 9 => "9" | 10 => "a" | 11 => "b"
  | 12 => "c" | 13 => "d" | 14 => "e" | _ => "f"
  end%N%char.

(** One character of a string inside the quotes [quote]. *)
Definition escape (quote c : ascii) : string :=
  let n := N_of_ascii c in
  if Ascii.eqb c quote || Ascii.eqb c backslash
  then String backslash (String c EmptyString)
  else if Ascii.eqb c "009" then String backslash "t"
  else if Ascii.eqb c "010" then String backslash "n"
  else if Ascii.eqb c "013" then String backslash "r"
  else if ((n <? 32) || (127 <=? n))%N
  then String backslash
         (String "x" (String (hex_digit (n / 16))
                        (String (hex_digit (n mod 16)) EmptyString)))
  else String c EmptyString.

Fixpoint escape_all (quote : ascii) (s : string) : string :=
  match s with
  | EmptyString => EmptyString
  | String c s' => escape quote c +:+ escape_all quote s'
  end.

(** The quotes are double when the string has a single quote and no double
    one, single otherwise. *)
Definition quote_of (s : string) : ascii :=
  if Py.contains "'" s && negb (Py.contains dq s) then dq else "'"%char.

Definition repr (s : string) : string :=
  String (quote_of s)
         (escape_all (quote_of s) s +:+ String (quote_of s) EmptyString).

Fixpoint join_repr (values : list string) : string :=
  match values with
  | [] => EmptyString
  | [v] => repr v
  | v :: rest => repr v +:+ ", " +:+ join_repr rest
  end.

(** [str(values)] for the result of [getRawHeaders]. *)
Definition str (values : option (list string)) : string :=
  match values with
  | None => "None"
  | Some l => "[" +:+ join_repr l +:+ "]"
  end.

End PyRepr.

(** ** [getOSandLC] *)

(** The two headers that the function reads, as [getRawHeaders] gives
    them. *)
Record Headers : Type := mkHeaders {
  raw_user_agent : option (list string);
  raw_accept_language : option (list string);
}.

(** [re.search(pattern, s)] for a pattern whose characters stand for
    themselves: the pattern occurs in [s]. *)
Definition search (pattern s : string) : bool := contains_str pattern s.

Definition getOSandLC (headers : Headers) (locales : list string)
  : option string * string :=
  let agent := PyRepr.str (raw_user_agent headers) in
  let alang := PyRepr.str (raw_accept_language headers) in
  let client :=
    if search "Windows" agent then Some "windows"
    else if search "Mac OS X" agent then Some "osx"
    else if search "iPhone" agent then Some "iphone"
    else if search "Android" agent then Some "android"
    else None in
  let lang := getBestLangMatch alang locales in
  (client, lang).

(** ** [getRedirectURL], [sendFile], [processGetTorRequest] *)

(** What these functions raise. *)
Inductive serve_exn : Type :=
| KeyError             (* REDIRECT_URLS[client] *)
| UnboundLocalError    (* tb_file and ctype when no branch has set them *)
| OpenError.           (* FilePath(tb_path).child(filename).open() *)

Inductive served (A : Type) : Type :=
| Done (a : A)
| Fails (e : serve_exn).
Arguments Done {A} a.
Arguments Fails {A} e.

Definition REDIRECT_URLS : gmap string string :=
  {[ "iphone" := "https://itunes.apple.com/us/app/onion-browser/id519296448";
     "android" :=
       "https://play.google.com/store/apps/details?id=org.torproject.android" ]}.

Definition getRedirectURL (client : string) : served string :=
  match REDIRECT_URLS !! client with
  | Some url => Done url
  | None => Fails KeyError
  end.

(** A request is seen through the headers of its response.  [sendFile]
    sets two of them and opens the file in the directory [tb_path]; when the
    file is there its contents are what the transfer then sends. *)
Definition sendFile (request : gmap string string) (filename : string)
    (tb_path : option (gmap string string)) (ctype : string)
  : served string * gmap string string :=
  let request := <["content-type" := ctype]> request in
  let request :=
    <["content-disposition" := "attachment; filename=" +:+ filename]> request in
  match tb_path ≫= (fun d => d !! filename) with
  | Some contents => (Done contents, request)
  | None => (Fails OpenError, request)
  end.

(** The function hands [NOT_DONE_YET] to its caller once [sendFile] has
    returned; [Done contents] stands for this, with the contents that are
    being sent. *)
Definition processGetTorRequest (request : gmap string string)
    (client lang type version : string)
    (t2w_tb_path : option (gmap string string))
  : served string * gmap string string :=
  if String.eqb client "windows" then
    let '(ext, ctype) :=
      if String.eqb type "signature"
      then ("exe.asc", "application/pgp-signature")
      else ("exe", "application/x-msdownload") in
    let tb_file :=
      "torbrowser-install-" +:+ version +:+ "_" +:+ lang +:+ "." +:+ ext in
    sendFile request tb_file t2w_tb_path ctype
  else if String.eqb client "osx" then
    let '(ext, ctype) :=
      if String.eqb type "signature"
      then ("dmg.asc", "application/pgp-signature")
      else ("dmg", "application/x-apple-diskimage") in
    let tb_file :=
      "TorBrowser-" +:+ version +:+ "-osx32_" +:+ lang +:+ "." +:+ ext in
    sendFile request tb_file t2w_tb_path ctype
  else (Fails UnboundLocalError, request).

(** ** Well-formed pieces of an Accept-Language header *)

(** A character that is no letter: [lower] leaves it alone and maps no
    other character to it. *)
Definition not_letter (c : ascii) : bool :=
  let n := N_of_ascii c in
  negb ((65 <=? n) && (n <=? 90))%N && negb ((97 <=? n) && (n <=? 122))%N.

(** No space and no comma inside. *)
Definition no_space_comma (s : string) : bool :=
  negb (Py.contains " " s) && negb (Py.contains "," s).

(** A language tag: no space, comma or semicolon inside. *)
Definition tag_ok (t : string) : bool :=
  no_space_comma t && negb (Py.contains ";" t).

(** The parameters after a tag: nothing, or a semicolon and more. *)
Definition param_ok (p : string) : bool :=
  no_space_comma p &&
  match p with
  | EmptyString => true
  | String c _ => Ascii.eqb c ";"
  end.

(** [s] begins with the character [c]. *)
Definition begins_with (c : ascii) (s : string) : bool :=
  match s with
  | EmptyString => false
  | String d _ => Ascii.eqb d c
  end.

(** ** Words in the user agent *)

(** One of the values of the user-agent header has the word [w] inside. *)
Definition mentions (w : string) (headers : Headers) : bool :=
  match raw_user_agent headers with
  | None => false
  | Some values => existsb (contains_str w) values
  end.

(** A character that [repr] writes as it is, whatever the quotes. *)
Definition unescaped (c : ascii) : bool :=
  String.eqb (PyRepr.escape "'" c) (String c EmptyString) &&
  String.eqb (PyRepr.escape dq c) (String c EmptyString).

(** The characters that [str] writes of its own around and inside the
    values: the brackets, the quotes, the comma and the space between two
    values, the backslash and what follows it in an escape. *)
Definition written (c : ascii) : bool :=
  Re.mem c ([dq; PyRepr.backslash] ++
            list_ascii_of_string "'[], tnrx0123456789abcdef").

(** A word that can be looked for in the values as well as in [str] of
    their list: its characters are written as they are, and the first one
    is none of those that [str] adds. *)
Definition word (w : string) : bool :=
  match w with
  | EmptyString => false
  | String c _ => negb (written c) && forallb unescaped (list_ascii_of_string w)
  end.

(** The characters of [escape_all] of a value. *)
Definition escaped (q : ascii) (v : list ascii) : list ascii :=
  flat_map (fun c => list_ascii_of_string (PyRepr.escape q c)) v.
(** ** What a run of the task finds *)

(** The version that a run takes for the latest one: the page of the
    recommended versions, read by [json.loads], then
    [getLatestTBBVersion]. *)
Definition found_version (env : Env) : outcome string :=
  match getPage env versions_url with
  | Return response =>
      match json_loads env response with
      | Return versions => getLatestTBBVersion versions
      | Raise e => Raise e
      end
  | Raise e => Raise e
  end.

(** The address from which the task downloads the file [f] of a version. *)
Definition file_url (latest_version f : string) : string :=
  dist_tpo +:+ latest_version +:+ "/" +:+ f.
(** The name of a client as [getOSandLC] gives it. *)
Definition client_name (client : client_os) : string :=
  match client with
  | windows => "windows"
  | osx => "osx"
  end.

(** The operations of the loop over the files. *)
Definition transfers (files : list string) : list fsop :=
  f ← files; [OpenTemp f; SaveTemp f].

(** The files that the task finds on the page of the mirror, for the
    locales [langs]. *)
Definition mirror_links (env : Env) (langs : list string) (page : string)
  : outcome (gset string) :=
  findall_links env page (url_pattern langs).

(** * Properties *)

(** ** Python strings *)

Lemma split_head_no_sep (c : ascii) (s : string) :
  Py.contains c s = false -> Py.split_head c s = s.
Proof.
  unfold Py.split_head. induction s as [|d s IH]; simpl; [done|].
  destruct (Ascii.eqb d c); [done|]. intros H. specialize (IH H).
  destruct (Py.split c s) as [|h t]; simpl in *; by subst.
Qed.

(** ** Locale negotiation *)

Lemma language_only_primary (lc : string) :
  language_only lc = Rule.primary_subtag lc.
Proof.
  unfold language_only, Rule.primary_subtag.
  destruct (Py.contains "-" lc) eqn:E; [done|].
  symmetry. by apply split_head_no_sep.
Qed.

Lemma first_supported_find (test : string -> bool) (P : string -> Prop)
    `{!forall l, Decision (P l)} (supported_lcs : list string) :
  (forall l, test l = true <-> P l) ->
  first_supported test supported_lcs = snd <$> list_find P supported_lcs.
Proof.
  intros HP. induction supported_lcs as [|l ls IH]; simpl; [done|].
  destruct (test l) eqn:E.
  - rewrite decide_True by (by apply HP). done.
  - rewrite decide_False; [|by rewrite <- HP, E].
    rewrite IH. by destruct (list_find P ls) as [[i x]|].
Qed.

Lemma first_supported_elem (test : string -> bool) supported_lcs l :
  first_supported test supported_lcs = Some l ->
  l ∈ supported_lcs /\ test l = true.
Proof.
  induction supported_lcs as [|x ls IH]; simpl; [done|].
  destruct (test x) eqn:E.
  - intros [= ->]. split; [left|done].
  - intros H. destruct (IH H). split; [by right|done].
Qed.

Lemma first_supported_none (test : string -> bool) supported_lcs :
  first_supported test supported_lcs = None <->
  forall l, l ∈ supported_lcs -> test l = false.
Proof.
  induction supported_lcs as [|x ls IH]; simpl.
  - split; [|done]. intros _ l Hl. by apply elem_of_nil in Hl.
  - destruct (test x) eqn:E.
    + split; [done|]. intros H. specialize (H x (list_elem_of_here _ _)).
      congruence.
    + rewrite IH. split.
      * intros H l Hl. apply elem_of_cons in Hl as [->|Hl]; auto.
      * intros H l Hl. apply H. by right.
Qed.

Lemma match_requested_rule (lc : string) (supported_lcs : list string) :
  match_requested lc supported_lcs = Rule.for_tag supported_lcs lc.
Proof.
  unfold match_requested, Rule.for_tag, Rule.exact, Rule.primary_exact,
    Rule.primary_any.
  rewrite (first_supported_find _ (Rule.same_ci lc))
    by (intros l; apply String.eqb_eq).
  rewrite (first_supported_find _ (Rule.same_ci (language_only lc)))
    by (intros l; apply String.eqb_eq).
  rewrite (first_supported_find _
             (fun l => Rule.same_ci (language_only lc) (Rule.primary_subtag l)))
    by (intros l; unfold Rule.same_ci;
        rewrite <- (language_only_primary l); apply String.eqb_eq).
  by rewrite language_only_primary.
Qed.

Lemma best_of_requested_rule (lcs supported_lcs : list string) :
  best_of_requested lcs supported_lcs = Rule.bestLocale lcs supported_lcs.
Proof.
  unfold Rule.bestLocale.
  induction lcs as [|lc rest IH]; simpl; [done|].
  rewrite match_requested_rule.
  destruct (Rule.for_tag supported_lcs lc); simpl; [done|apply IH].
Qed.

Lemma match_requested_elem lc supported_lcs l :
  match_requested lc supported_lcs = Some l -> l ∈ supported_lcs.
Proof.
  unfold match_requested.
  repeat match goal with
  | |- context [first_supported ?t ?s] =>
      let E := fresh "E" in
      destruct (first_supported t s) eqn:E;
      [apply first_supported_elem in E as [? _]|]
  end; by intros [= <-].
Qed.

Lemma match_requested_unmatched lc supported_lcs :
  Forall (unmatched lc) supported_lcs ->
  match_requested lc supported_lcs = None.
Proof.
  intros H. rewrite Forall_forall in H. unfold match_requested.
  repeat match goal with
  | |- context [first_supported ?t ?s] =>
      let E := fresh "E" in
      destruct (first_supported t s) eqn:E;
      [exfalso; apply first_supported_elem in E as [Hin Ht];
       apply String.eqb_eq in Ht; destruct (H _ Hin) as (?&?&?); done|]
  end.
  done.
Qed.

(** C9.  [getBestLangMatch] follows the resolution rule: for the requested
    tags in the order of the header, an exact match of the tag without regard
    to case, else an exact match of its primary subtag, else a supported tag
    with the same primary subtag, and the fallback locale when no requested
    tag resolves; "es-PT,en;q=0.8" against es-ES and en-US gives es-ES. *)
Theorem getBestLangMatch_rule :
  (forall (accept_language : string) (supported_lcs : list string),
     getBestLangMatch accept_language supported_lcs =
     Rule.bestLocale (parse_accept_language accept_language) supported_lcs) /\
  parse_accept_language "es-PT,en;q=0.8" = ["es-PT"; "en"] /\
  getBestLangMatch "es-PT,en;q=0.8" ["es-ES"; "en-US"] = "es-ES".
Proof.
  split; [|split; reflexivity].
  intros. apply best_of_requested_rule.
Qed.

(** C10.  When none of the three loops finds a supported locale for any
    requested tag, the result is the literal en-US, whether or not the
    supported list has it; and every result is an element of the supported
    list or that literal. *)
Theorem getBestLangMatch_fallback (accept_language : string)
    (supported_lcs : list string) :
  (Forall (fun lc => Forall (unmatched lc) supported_lcs)
          (parse_accept_language accept_language) ->
   getBestLangMatch accept_language supported_lcs = "en-US") /\
  (getBestLangMatch accept_language supported_lcs ∈ supported_lcs \/
   getBestLangMatch accept_language supported_lcs = "en-US").
Proof.
  unfold getBestLangMatch.
  induction (parse_accept_language accept_language) as [|lc rest [IH1 IH2]];
    simpl.
  - split; [done|by right].
  - split.
    + intros H. apply Forall_cons in H as [H1 H2].
      rewrite match_requested_unmatched by done. by apply IH1.
    + destruct (match_requested lc supported_lcs) as [l|] eqn:E; [|done].
      left. by eapply match_requested_elem.
Qed.

Lemma getBestLangMatch_fallback_witness :
  getBestLangMatch "fr,it;q=0.5" ["de"; "es-ES"] = "en-US" /\
  "en-US" ∉ ["de"; "es-ES"].
Proof.
  split.
  - apply (proj1 (getBestLangMatch_fallback "fr,it;q=0.5" ["de"; "es-ES"])).
    apply (bool_decide_unpack _). vm_compute. exact I.
  - apply (bool_decide_unpack _). vm_compute. exact I.
Defined.

(** ** The order of [LooseVersion] *)

Section LooseVersionOrder.
Import LooseVersion.

Lemma cmp_component_refl a : cmp_component a a = Eq.
Proof.
  destruct a as [n|s]; simpl.
  - apply N.compare_refl.
  - by apply OrderedTypeEx.String_as_OT.cmp_eq.
Qed.

Lemma cmp_component_eq a b : cmp_component a b = Eq -> a = b.
Proof.
  destruct a as [x|x], b as [y|y]; simpl; try done.
  - intros H. apply N.compare_eq in H. by subst.
  - intros H. apply OrderedTypeEx.String_as_OT.cmp_eq in H. by subst.
Qed.

Lemma cmp_component_lt_trans a b c :
  cmp_component a b = Lt -> cmp_component b c = Lt -> cmp_component a c = Lt.
Proof.
  destruct a as [x|x], b as [y|y], c as [z|z]; simpl; try done.
  - rewrite !N.compare_lt_iff. apply N.lt_trans.
  - intros H1 H2.
    apply OrderedTypeEx.String_as_OT.cmp_lt in H1, H2.
    apply OrderedTypeEx.String_as_OT.cmp_lt.
    eapply OrderedTypeEx.String_as_OT.lt_trans; eauto.
Qed.

Lemma cmp_refl v : cmp v v = Eq.
Proof. induction v as [|a v IH]; simpl; [done|]. by rewrite cmp_component_refl. Qed.

(** [cmp v w = Lt] read off the first components. *)
Lemma cmp_cons_lt a v b w :
  cmp (a :: v) (b :: w) = Lt <->
  cmp_component a b = Lt \/ (a = b /\ cmp v w = Lt).
Proof.
  simpl. destruct (cmp_component a b) eqn:E.
  - apply cmp_component_eq in E as ->.
    split; [by right|]. by intros [?|[_ ?]].
  - split; [by left|done].
  - split; [done|]. intros [?|[-> _]]; [done|].
    by rewrite cmp_component_refl in E.
Qed.

Lemma cmp_lt_trans u v w : cmp u v = Lt -> cmp v w = Lt -> cmp u w = Lt.
Proof.
  revert v w. induction u as [|a u IH]; intros [|b v] [|c w]; try done.
  rewrite !cmp_cons_lt. intros [H1|[-> H1]] [H2|[-> H2]].
  - left. eapply cmp_component_lt_trans; eauto.
  - by left.
  - by left.
  - right. split; [done|]. eapply IH; eauto.
Qed.

Lemma cmp_component_antisym a b :
  cmp_component a b = CompOpp (cmp_component b a).
Proof.
  destruct a as [x|x], b as [y|y]; simpl; try done.
  - apply N.compare_antisym.
  - apply OrderedTypeEx.String_as_OT.cmp_antisym.
Qed.

Lemma cmp_antisym v w : cmp v w = CompOpp (cmp w v).
Proof.
  revert w. induction v as [|a v IH]; intros [|b w]; simpl; try done.
  rewrite (cmp_component_antisym a b), IH.
  by destruct (cmp_component b a).
Qed.

Lemma cmp_eq v w : cmp v w = Eq -> v = w.
Proof.
  revert w. induction v as [|a v IH]; intros [|b w]; simpl; try done.
  destruct (cmp_component a b) eqn:E; try done.
  apply cmp_component_eq in E as ->. intros H. by rewrite (IH _ H).
Qed.

Lemma lt_irrefl v : lt v v = false.
Proof. unfold lt. by rewrite cmp_refl. Qed.

Lemma lt_asym u v : lt u v = true -> lt v u = false.
Proof.
  unfold lt. rewrite (cmp_antisym (parse v)).
  by destruct (cmp (parse u) (parse v)).
Qed.

(** Not being smaller is transitive. *)
Lemma not_lt_trans u v w : lt u v = false -> lt v w = false -> lt u w = false.
Proof.
  unfold lt. intros H1 H2.
  destruct (cmp (parse u) (parse w)) eqn:E; try done.
  destruct (cmp (parse u) (parse v)) eqn:E1; try done.
  - apply cmp_eq in E1. rewrite <- E1, E in H2. done.
  - rewrite cmp_antisym in E1.
    destruct (cmp (parse v) (parse u)) eqn:E1'; try done.
    by rewrite (cmp_lt_trans _ _ _ E1' E) in H2.
Qed.
End LooseVersionOrder.

(** ** The choice of the version *)

Lemma fold_stable_elem (version_numbers : list string) (first : string) :
  fold_left
    (fun stable_version v =>
       if LooseVersion.lt v stable_version then v else stable_version)
    version_numbers first ∈ first :: version_numbers.
Proof.
  revert first.
  induction version_numbers as [|v vs IH]; intros first; simpl; [left|].
  destruct (LooseVersion.lt v first).
  - right. apply IH.
  - specialize (IH first). apply elem_of_cons in IH as [->|IH]; [left|].
    by do 2 right.
Qed.

(** The loop keeps the smallest version that it has met. *)
Lemma fold_stable_least (version_numbers : list string) (first : string) :
  let stable_version :=
    fold_left
      (fun stable_version v =>
         if LooseVersion.lt v stable_version then v else stable_version)
      version_numbers first in
  LooseVersion.lt first stable_version = false /\
  forall u, u ∈ version_numbers -> LooseVersion.lt u stable_version = false.
Proof.
  revert first.
  induction version_numbers as [|v vs IH]; intros first; simpl.
  - split; [apply lt_irrefl|]. intros u Hu. by apply elem_of_nil in Hu.
  - set (s := if LooseVersion.lt v first then v else first).
    destruct (IH s) as [IH1 IH2].
    assert (H1 : LooseVersion.lt first s = false).
    { subst s. destruct (LooseVersion.lt v first) eqn:E;
        [by apply lt_asym|apply lt_irrefl]. }
    assert (H2 : LooseVersion.lt v s = false).
    { subst s. destruct (LooseVersion.lt v first) eqn:E;
        [apply lt_irrefl|done]. }
    split; [by eapply not_lt_trans|].
    intros u Hu. apply elem_of_cons in Hu as [->|Hu]; [|by apply IH2].
    by eapply not_lt_trans.
Qed.

Lemma filter_no_hyphen_elem (versions : list string) (v : string) :
  v ∈ List.filter (fun v => negb (Py.contains "-" v)) versions <->
  v ∈ versions /\ Py.contains "-" v = false.
Proof.
  rewrite !list_elem_of_In, filter_In, negb_true_iff. done.
Qed.

(** The comparison raises exactly on an empty version. *)
Lemma less_cases (v w : string) :
  (v <> EmptyString /\ w <> EmptyString /\
   LooseVersion.less v w = Return (LooseVersion.lt v w)) \/
  ((v = EmptyString \/ w = EmptyString) /\
   LooseVersion.less v w = Raise AttributeError).
Proof.
  destruct v as [|c v], w as [|d w]; simpl; [right|right|right|left];
    repeat split; auto; done.
Qed.

(** With an empty version among them the loop raises. *)
Lemma stable_loop_raises (version_numbers : list string) (first : string) :
  EmptyString ∈ version_numbers ->
  stable_loop version_numbers first = Raise AttributeError.
Proof.
  revert first.
  induction version_numbers as [|v vs IH]; intros first Hin.
  - by apply elem_of_nil in Hin.
  - simpl. destruct (less_cases v first) as [(Hv & _ & ->)|[_ ->]]; [|done].
    apply IH. apply elem_of_cons in Hin as [Hin|Hin]; [congruence|done].
Qed.

(** Without one it keeps the smaller version at each turn. *)
Lemma stable_loop_returns (version_numbers : list string) (first : string) :
  EmptyString ∉ version_numbers -> first <> EmptyString ->
  stable_loop version_numbers first =
  Return
    (fold_left
       (fun stable_version v =>
          if LooseVersion.lt v stable_version then v else stable_version)
       version_numbers first).
Proof.
  revert first.
  induction version_numbers as [|v vs IH]; intros first Hno Hfirst; [done|].
  apply not_elem_of_cons in Hno as [Hv Hno]. simpl.
  destruct (less_cases v first) as [(_ & _ & ->)|[[->| ->] _]]; [|done..].
  apply IH; [done|]. by destruct (LooseVersion.lt v first).
Qed.

(** The three ways in which the function ends. *)
Lemma getLatestTBBVersion_cases (versions : list string) :
  let version_numbers :=
    List.filter (fun v => negb (Py.contains "-" v)) versions in
  match version_numbers with
  | [] => getLatestTBBVersion versions = Raise IndexError
  | first :: _ =>
      if decide (EmptyString ∈ versions)
      then getLatestTBBVersion versions = Raise AttributeError
      else getLatestTBBVersion versions =
           Return
             (fold_left
                (fun stable_version v =>
                   if LooseVersion.lt v stable_version then v
                   else stable_version)
                version_numbers first)
  end.
Proof.
  simpl. unfold getLatestTBBVersion.
  destruct (List.filter _ versions) as [|first rest] eqn:E; [done|].
  assert (Hempty : EmptyString ∈ versions <-> EmptyString ∈ first :: rest).
  { rewrite <- E, filter_no_hyphen_elem. simpl. tauto. }
  destruct (decide (EmptyString ∈ versions)) as [H|H].
  - apply stable_loop_raises. by apply Hempty.
  - apply stable_loop_returns; [by rewrite <- Hempty|].
    intros ->. apply H, Hempty. left.
Qed.

Lemma getLatestTBBVersion_elem (versions : list string) (v : string) :
  getLatestTBBVersion versions = Return v ->
  v ∈ List.filter (fun v => negb (Py.contains "-" v)) versions.
Proof.
  pose proof (getLatestTBBVersion_cases versions) as Hc. simpl in Hc.
  destruct (List.filter _ versions) as [|first rest] eqn:E; [congruence|].
  destruct (decide _); [congruence|]. rewrite Hc. intros [= <-].
  pose proof (fold_stable_elem (first :: rest) first) as H.
  apply elem_of_cons in H as [H|H]; [|done].
  simpl in H. rewrite H. left.
Qed.

(** What the function computes: the smallest of the versions without a
    hyphen. *)
Lemma getLatestTBBVersion_least (versions : list string) (v : string) :
  getLatestTBBVersion versions = Return v ->
  forall u, u ∈ versions -> Py.contains "-" u = false ->
    LooseVersion.lt u v = false.
Proof.
  pose proof (getLatestTBBVersion_cases versions) as Hc. simpl in Hc.
  destruct (List.filter _ versions) as [|first rest] eqn:E; [congruence|].
  destruct (decide _); [congruence|]. rewrite Hc. intros [= <-] u Hu Hh.
  destruct (fold_stable_least (first :: rest) first) as [_ H].
  apply H. rewrite <- E. by apply filter_no_hyphen_elem.
Qed.

(** It returns a version as soon as one candidate has no hyphen and none
    is empty. *)
Lemma getLatestTBBVersion_returns (versions : list string) (u : string) :
  u ∈ versions -> Py.contains "-" u = false -> EmptyString ∉ versions ->
  exists v, getLatestTBBVersion versions = Return v.
Proof.
  intros Hu Hh Hno.
  pose proof (getLatestTBBVersion_cases versions) as Hc. simpl in Hc.
  destruct (List.filter _ versions) as [|first rest] eqn:E.
  - assert (H : u ∈ List.filter (fun v => negb (Py.contains "-" v)) versions)
      by by apply filter_no_hyphen_elem.
    rewrite E in H. by apply elem_of_nil in H.
  - rewrite decide_False in Hc by done. eauto.
Qed.

(** C1.  On the candidates 5.5.3 and 6.0.1, both without a hyphen, the
    function returns 5.5.3 although 6.0.1 is the greater one in the order of
    [LooseVersion]: the loop keeps the smallest version, not the latest. *)
Theorem getLatestTBBVersion_returns_earliest :
  getLatestTBBVersion ["5.5.3"; "6.0.1"] = Return "5.5.3" /\
  LooseVersion.lt "5.5.3" "6.0.1" = true /\
  Py.contains "-" "6.0.1" = false.
Proof. repeat split; reflexivity. Qed.

(** C5, as stated, fails: the marker that the function tests is the
    hyphen alone, and 5.5.4_beta, which is no dotted-numeric version, is
    returned. *)
Lemma pre_release_returned :
  ~ (forall versions v,
       getLatestTBBVersion versions = Return v ->
       Marker.pre_release v = false).
Proof.
  intros H. by specialize (H ["6.0a3"; "5.5.4_beta"] "5.5.4_beta" eq_refl).
Qed.

(** C5, amended.  A version that [getLatestTBBVersion] returns has no
    hyphen, and it is one of the candidates. *)
Theorem getLatestTBBVersion_no_hyphen (versions : list string) (v : string) :
  getLatestTBBVersion versions = Return v ->
  Py.contains "-" v = false /\ v ∈ versions.
Proof.
  intros H. apply getLatestTBBVersion_elem in H.
  apply filter_no_hyphen_elem in H. tauto.
Qed.

Lemma getLatestTBBVersion_no_hyphen_witness :
  getLatestTBBVersion ["5.5.3"; "5.5.4-alpha"] = Return "5.5.3" /\
  Py.contains "-" "5.5.3" = false /\ "5.5.3" ∈ ["5.5.3"; "5.5.4-alpha"].
Proof.
  split; [reflexivity|].
  apply (getLatestTBBVersion_no_hyphen ["5.5.3"; "5.5.4-alpha"] "5.5.3").
  reflexivity.
Defined.

(** The hyphen is the only mark that excludes a candidate: a version with
    letters and no hyphen can be returned. *)
Example letters_without_hyphen :
  getLatestTBBVersion ["6.0a3"; "6.0a3-MacOS"] = Return "6.0a3".
Proof. reflexivity. Qed.

(** C6, as stated, fails: every candidate of the list 6.0a3, 5.5.4_beta
    has a pre-release marker, and the function returns one of them. *)
Lemma all_pre_release_returns :
  ~ (forall versions,
       Forall (fun v => Marker.pre_release v = true) versions ->
       exists e, getLatestTBBVersion versions = Raise e).
Proof.
  intros H. destruct (H ["6.0a3"; "5.5.4_beta"]) as [e He].
  - by repeat constructor.
  - done.
Qed.

(** C6, amended.  When the candidate list is empty, or every candidate has
    a hyphen, the function returns no version: [version_numbers[0]]
    raises. *)
Theorem getLatestTBBVersion_fails (versions : list string) :
  Forall (fun v => Py.contains "-" v = true) versions ->
  getLatestTBBVersion versions = Raise IndexError.
Proof.
  intros H. unfold getLatestTBBVersion.
  destruct (List.filter _ versions) as [|first rest] eqn:E; [done|].
  assert (Hf : first ∈ List.filter (fun v => negb (Py.contains "-" v)) versions)
    by (rewrite E; left).
  apply filter_no_hyphen_elem in Hf as [Hin Hh].
  rewrite Forall_forall in H. specialize (H _ Hin). congruence.
Qed.

Lemma getLatestTBBVersion_fails_witness :
  getLatestTBBVersion [] = Raise IndexError /\
  getLatestTBBVersion ["5.5.4-alpha"; "6.0-rc1"] = Raise IndexError.
Proof.
  split.
  - apply (getLatestTBBVersion_fails []). constructor.
  - apply (getLatestTBBVersion_fails ["5.5.4-alpha"; "6.0-rc1"]).
    repeat constructor.
Defined.

(** ** The mirror task *)

Lemma same_served_refl w : same_served w w.
Proof. by repeat split. Qed.

Lemma same_served_trans w1 w2 w3 :
  same_served w1 w2 -> same_served w2 w3 -> same_served w1 w3.
Proof. intros (? & ? & ?) (? & ? & ?). repeat split; congruence. Qed.

Lemma staged_from_refl st : staged_from st st.
Proof. exists []. split; [done|]. split; [done|apply same_served_refl]. Qed.

Lemma staged_from_trans st1 st2 st3 :
  staged_from st1 st2 -> staged_from st2 st3 -> staged_from st1 st3.
Proof.
  intros (l1 & Hl1 & Hf1 & H1) (l2 & Hl2 & Hf2 & H2).
  exists (l2 ++ l1). split; [|split].
  - by rewrite Hl2, Hl1, app_assoc.
  - apply Forall_app. split; [|done].
    eapply Forall_impl; [exact Hf2|]. simpl. intros p [? ?].
    split; [done|]. by eapply same_served_trans.
  - by eapply same_served_trans.
Qed.

(** One staging operation. *)
Lemma perform_staged env op change st :
  staging_op op ->
  (forall w w', change w = Return w' -> same_served w w') ->
  staged_from st (snd (perform env op change st)).
Proof.
  intros Hop Hch. unfold perform.
  destruct (fs_fault env op); [apply staged_from_refl|].
  destruct (change (world st)) as [w'|e] eqn:E; [|apply staged_from_refl].
  pose proof (Hch _ _ E) as H.
  exists [(op, w')]. simpl. split; [done|]. split; [|done].
  constructor; [by split|constructor].
Qed.

Lemma with_temp_served w staging : same_served w (with_temp w staging).
Proof. by repeat split. Qed.

Lemma rmtree_temp_staged env st : staged_from st (snd (rmtree_temp env st)).
Proof.
  unfold rmtree_temp, always, after_rmtree_temp. simpl.
  eexists [_]. simpl. split; [done|].
  split; [|apply with_temp_served].
  constructor; [|constructor]. split; [done|apply with_temp_served].
Qed.

Lemma mkdir_temp_staged env st : staged_from st (snd (mkdir_temp env st)).
Proof.
  apply perform_staged; [done|]. intros w w'.
  destruct (temp_path w); [done|]. intros [= <-]. apply with_temp_served.
Qed.

Lemma open_temp_staged env f st : staged_from st (snd (open_temp env f st)).
Proof.
  apply perform_staged; [done|]. intros w w'.
  destruct (temp_path w); [|done]. intros [= <-]. apply with_temp_served.
Qed.

Lemma download_staged env url f st :
  staged_from st (snd (download env url f st)).
Proof.
  unfold download, bind, lift.
  destruct (downloadPage env url) as [body|e]; [|apply staged_from_refl].
  apply perform_staged; [done|]. intros w w'.
  destruct (temp_path w); [|done]. intros [= <-]. apply with_temp_served.
Qed.

Lemma download_all_staged env latest_version files st :
  staged_from st (snd (download_all env latest_version files st)).
Proof.
  revert st. induction files as [|f rest IH]; intros st; simpl.
  - apply staged_from_refl.
  - unfold bind.
    pose proof (open_temp_staged env f st) as H1.
    destruct (open_temp env f st) as [[[]|e] st1]; simpl in H1; [|done].
    pose proof (download_staged env
                  (dist_tpo +:+ latest_version +:+ "/" +:+ f) f st1) as H2.
    destruct (download env _ f st1) as [[[]|e] st2]; simpl in H2.
    + eapply staged_from_trans; [|apply IH].
      by eapply staged_from_trans.
    + simpl. by eapply staged_from_trans.
Qed.

(** When the loop over the files ends without an exception, the staging
    directory holds every file with its body on top of what it held. *)
Lemma download_all_done env latest_version files st st'
    (d : gmap string string) :
  temp_path (world st) = Some d ->
  download_all env latest_version files st = (Return tt, st') ->
  temp_path (world st') =
    Some (fold_left (fun d f => <[f := body_of env latest_version f]> d)
                    files d).
Proof.
  revert st d. induction files as [|f rest IH]; intros st d Hd; simpl.
  - unfold ret. by intros [= <-].
  - unfold bind, open_temp, download, perform, lift, bind, body_of.
    destruct (fs_fault env (OpenTemp f)); [done|].
    rewrite Hd. simpl.
    destruct (downloadPage env _) as [body|e]; [|done].
    destruct (fs_fault env (SaveTemp f)); [done|]. simpl.
    intros H. eapply IH in H; [|done]. simpl in H.
    by rewrite insert_insert_eq in H.
Qed.

(** And every file has been downloaded. *)
Lemma download_all_bodies env latest_version files st st' :
  download_all env latest_version files st = (Return tt, st') ->
  forall f, f ∈ files ->
    exists body, downloadPage env (file_url latest_version f) = Return body.
Proof.
  revert st. induction files as [|g rest IH]; intros st H f Hf.
  - by apply elem_of_nil in Hf.
  - simpl in H. unfold bind in H.
    destruct (open_temp env g st) as [[[]|e] st1]; [|done].
    unfold download, bind, lift in H.
    destruct (downloadPage env (dist_tpo +:+ latest_version +:+ "/" +:+ g))
      as [body|e] eqn:Eb; [|done].
    destruct (perform env (SaveTemp g) _ st1) as [[[]|e] st2]; [|done].
    apply elem_of_cons in Hf as [->|Hf]; [by exists body|].
    by eapply IH.
Qed.

Lemma release_set_lookup env latest_version files
    (d0 : gmap string string) f :
  fold_left (fun d f => <[f := body_of env latest_version f]> d) files d0 !! f =
  if decide (f ∈ files) then Some (body_of env latest_version f) else d0 !! f.
Proof.
  revert d0. induction files as [|g rest IH]; intros d0.
  - cbn [fold_left]. destruct (decide (f ∈ [])) as [H|H];
      [by apply elem_of_nil in H|done].
  - cbn [fold_left]. rewrite IH.
    destruct (decide (f ∈ rest)) as [Hin|Hnin].
    + rewrite decide_True; [done|by right].
    + destruct (decide (f = g)) as [->|Hne].
      * rewrite decide_True by left. by rewrite lookup_insert_eq.
      * rewrite decide_False; [by rewrite lookup_insert_ne|].
        intros H. apply elem_of_cons in H as [?|?]; done.
Qed.

(** The files of a release. *)
Lemma release_set_files env latest_version (files : gset string) (f : string) :
  release_set env latest_version (elements files) !! f =
  if decide (f ∈ files) then Some (body_of env latest_version f) else None.
Proof.
  unfold release_set. rewrite release_set_lookup, lookup_empty.
  destruct (decide (f ∈ elements files)) as [H|H];
    rewrite elem_of_elements in H.
  - by rewrite decide_True.
  - by rewrite decide_False.
Qed.

(** The four statements of [publish] on a state with a staging
    directory. *)
Lemma publish_cases env latest_version st :
  let w1 := after_rmtree_latest env (world st) in
  (exists e, publish env latest_version st =
     (Raise e, mkState w1 ((RmtreeLatest, w1) :: log st))) \/
  exists w2,
    fs_fault env MoveTemp = None /\ after_move w1 = Return w2 /\
    let w3 := with_version w2 (Some EmptyString) in
    let w4 := with_version w2 (Some latest_version) in
    (exists e, publish env latest_version st =
       (Raise e, mkState w2 ((MoveTemp, w2) :: (RmtreeLatest, w1) :: log st))) \/
    (exists e, publish env latest_version st =
       (Raise e,
        mkState w3 ((OpenVersion, w3) :: (MoveTemp, w2) ::
                    (RmtreeLatest, w1) :: log st))) \/
    publish env latest_version st =
      (Return tt,
       mkState w4 ((WriteVersion latest_version, w4) :: (OpenVersion, w3) ::
                   (MoveTemp, w2) :: (RmtreeLatest, w1) :: log st)).
Proof.
  simpl.
  unfold publish, bind, rmtree_latest, always, move_temp, open_version,
    write_version, perform.
  cbn [world log].
  destruct (fs_fault env MoveTemp) as [e|] eqn:Em; [left; eauto|].
  destruct (after_move (after_rmtree_latest env (world st))) as [w2|e] eqn:E2;
    [|left; eauto].
  right. exists w2. split; [done|]. split; [done|]. cbn [world log].
  destruct (fs_fault env OpenVersion) as [e|]; [left; eauto|].
  cbn [world log].
  destruct (fs_fault env (WriteVersion latest_version)) as [e|];
    [right; left; eauto|by right; right].
Qed.

Lemma mirror_links_plain env langs page :
  Forall (fun lang => Re.plain lang = true) langs ->
  mirror_links env langs page = Return (extractLinks page (url_regexp langs)).
Proof.
  intros H. unfold mirror_links, url_pattern.
  replace (forallb Re.plain langs) with true; [done|].
  symmetry. apply forallb_forall. intros lang Hl%list_elem_of_In.
  rewrite Forall_forall in H. by apply H.
Qed.

(** How far the body of the task gets, with what the run has met: nothing
    is done, or the staging begins for the version found and then stops on
    an exception or reaches the last statements. *)
Lemma run_body_cases env w :
  snd (run_body env w) = mkState w [] \/
  exists lv text langs page files,
    found_version env = Return lv /\ fs_fault env ReadVersion = None /\
    latest_tb_file w = Some text /\ Py.remove_char "010" text <> lv /\
    gettor_locales env = Return langs /\
    getPage env (dist_tpo +:+ lv +:+ "/") = Return page /\
    mirror_links env langs page = Return files /\
    (((exists e, fst (run_body env w) = Raise e) /\
      staged_from (mkState w []) (snd (run_body env w))) \/
     exists st1,
       staged_from (mkState w []) st1 /\
       temp_path (world st1) =
         Some (release_set env lv (elements files)) /\
       (forall f, f ∈ files ->
          exists body, downloadPage env (file_url lv f) = Return body) /\
       run_body env w = publish env lv st1).
Proof.
  unfold found_version, mirror_links, run_body, getTorTask_body,
    getTBBVersions, getTBBFilenames, bind, lift, ret, read_version.
  destruct (getPage env versions_url) as [response|?]; [|by left].
  destruct (json_loads env response) as [versions|?]; [|by left].
  destruct (getLatestTBBVersion versions) as [lv|?]; [|by left].
  destruct (fs_fault env ReadVersion); [by left|].
  simpl.
  destruct (latest_tb_file w) as [text|]; [|by left].
  destruct (decide _) as [|Hne]; [by left|].
  destruct (gettor_locales env) as [langs|?]; [|by left].
  destruct (getPage env (dist_tpo +:+ lv +:+ "/"))
    as [page|?] eqn:Epage; [|by left].
  destruct (findall_links env page (url_pattern langs)) as [files|?] eqn:Ef;
    [|by left].
  right. exists lv, text, langs, page, files. do 7 (split; [done|]).
  cbn [world log].
  match goal with |- context [mkdir_temp env ?s] => set (st1 := s) end.
  assert (H1 : staged_from (mkState w []) st1)
    by apply (rmtree_temp_staged env (mkState w [])).
  assert (Ht1 : temp_path (world st1) = None \/
                exists e, mkdir_temp env st1 = (Raise e, st1)).
  { unfold st1, after_rmtree_temp, mkdir_temp, perform.
    cbn [world temp_path with_temp].
    destruct (fs_fault env RmtreeTemp); [|by left].
    destruct (temp_path w); [|by left]. right. simpl.
    destruct (fs_fault env MkdirTemp); eauto. }
  pose proof (mkdir_temp_staged env st1) as H2.
  destruct (mkdir_temp env st1) as [[[]|?] st2] eqn:E2; simpl in H2.
  2:{ left. split; [by eexists|]. simpl.
      eapply staged_from_trans; eassumption. }
  assert (temp_path (world st2) = Some ∅) as Ht2.
  { destruct Ht1 as [Ht1|[? ?]]; [|congruence].
    unfold mkdir_temp, perform in E2.
    destruct (fs_fault env MkdirTemp); [done|].
    rewrite Ht1 in E2. by injection E2 as <-. }
  pose proof (download_all_staged env lv (elements files) st2) as H3.
  destruct (download_all env lv _ st2) as [[[]|?] st3] eqn:E3; simpl in H3.
  2:{ left. split; [by eexists|]. simpl.
      repeat (eapply staged_from_trans; [|eassumption]).
      apply staged_from_refl. }
  right. exists st3. repeat split.
  - repeat (eapply staged_from_trans; [|eassumption]).
    apply staged_from_refl.
  - unfold release_set. by eapply download_all_done.
  - intros f Hf. eapply download_all_bodies; [exact E3|].
    by apply elem_of_elements.
Qed.

Lemma run_catches env w :
  run env w = (Return tt, snd (run_body env w)).
Proof.
  unfold run, run_body, getTorTask, try_except, ret.
  by destruct (getTorTask_body env _) as [[[]|e] st].
Qed.

Lemma operations_elem (st : State) (op : fsop) :
  op ∈ operations st <-> exists w', (op, w') ∈ log st.
Proof.
  unfold operations.
  rewrite list_elem_of_In, <- in_rev, <- list_elem_of_In, list_elem_of_fmap.
  split.
  - intros ([op' w'] & -> & Hin). by exists w'.
  - intros (w' & Hin). by exists (op, w').
Qed.

(** The removal of the live directory does not look at the staging
    directory. *)
Lemma after_rmtree_latest_temp env w staging :
  after_rmtree_latest env (with_temp w staging) =
  with_temp (after_rmtree_latest env w) staging.
Proof.
  unfold after_rmtree_latest, with_temp. simpl.
  destruct (fs_fault env RmtreeLatest); [|done].
  by destruct (latest_path w).
Qed.

(** The log of a run and the files that it leaves, with what the run has
    met: staging operations alone, the live directory and the version file
    being as they were; or the staging of the version found, then the
    first, the first two, the first three or all four operations of
    [publish]. *)
Lemma run_cases env w :
  let st := snd (run env w) in
  (Forall (fun p => staging_op (fst p) /\ same_served w (snd p)) (log st) /\
   same_served w (world st)) \/
  exists lv text langs page files pre,
    found_version env = Return lv /\ fs_fault env ReadVersion = None /\
    latest_tb_file w = Some text /\ Py.remove_char "010" text <> lv /\
    gettor_locales env = Return langs /\
    getPage env (dist_tpo +:+ lv +:+ "/") = Return page /\
    mirror_links env langs page = Return files /\
    (forall f, f ∈ files ->
       exists body, downloadPage env (file_url lv f) = Return body) /\
    Forall (fun p => staging_op (fst p) /\ same_served w (snd p)) pre /\
    let d := release_set env lv (elements files) in
    let w1 := with_temp (after_rmtree_latest env w) (Some d) in
    (log st = (RmtreeLatest, w1) :: pre /\ world st = w1 /\
     exists e, fst (run_body env w) = Raise e) \/
    exists w2,
      fs_fault env MoveTemp = None /\ after_move w1 = Return w2 /\
      let w3 := with_version w2 (Some EmptyString) in
      let w4 := with_version w2 (Some lv) in
      (log st = (MoveTemp, w2) :: (RmtreeLatest, w1) :: pre /\
       world st = w2 /\ exists e, fst (run_body env w) = Raise e) \/
      (log st = (OpenVersion, w3) :: (MoveTemp, w2) ::
                (RmtreeLatest, w1) :: pre /\
       world st = w3 /\ exists e, fst (run_body env w) = Raise e) \/
      (log st = (WriteVersion lv, w4) :: (OpenVersion, w3) ::
                (MoveTemp, w2) :: (RmtreeLatest, w1) :: pre /\
       world st = w4 /\ fst (run_body env w) = Return tt).
Proof.
  rewrite run_catches. cbn [snd].
  assert (Hstaged : forall st, staged_from (mkState w []) st ->
            Forall (fun p => staging_op (fst p) /\ same_served w (snd p))
                   (log st) /\
            same_served w (world st)).
  { intros st (l & Hl & Hf & Hs). by rewrite Hl, app_nil_r. }
  destruct (run_body_cases env w)
    as [Hnone|(lv & text & langs & page & files & Hlv & Hread & Htext & Hne &
               Hlangs & Hpage & Hlinks &
               [[_ Hst]|(st1 & Hst & Htemp & Hbodies & Hrun)])].
  - left. rewrite Hnone. split; [done|apply same_served_refl].
  - left. by apply Hstaged.
  - right. destruct (Hstaged _ Hst) as (Hpre & Hp & Hlt & Hv).
    exists lv, text, langs, page, files, (log st1).
    do 9 (split; [done|]).
    assert (Hw : world st1 =
                 with_temp w (Some (release_set env lv (elements files)))).
    { destruct (world st1) as [a b c d]. simpl in *. unfold with_temp.
      congruence. }
    rewrite Hrun. cbv zeta. rewrite <- after_rmtree_latest_temp, <- Hw.
    destruct (publish_cases env lv st1)
      as [[e He]|(w2 & Hm & Hmove & [[e He]|[[e He]| He]])]; rewrite He;
      cbn [fst snd log world].
    + left. eauto.
    + right. exists w2. do 2 (split; [done|]). left. eauto.
    + right. exists w2. do 2 (split; [done|]). right. left. eauto.
    + right. exists w2. do 2 (split; [done|]). right. by right.
Qed.

Lemma staging_not_publish (w : World) (pre : list (fsop * World))
    (op : fsop) (w' : World) :
  Forall (fun p => staging_op (fst p) /\ same_served w (snd p)) pre ->
  (op, w') ∈ pre -> staging_op op /\ same_served w w'.
Proof. rewrite Forall_forall. intros H Hin. apply (H _ Hin). Qed.

Lemma staging_operations (w : World) (pre : list (fsop * World)) :
  Forall (fun p => staging_op (fst p) /\ same_served w (snd p)) pre ->
  Forall staging_op (rev (map fst pre)).
Proof.
  intros H. apply Forall_rev, Forall_fmap.
  eapply Forall_impl; [exact H|]. by intros p [? _].
Qed.


(** The operations of a log that ends with those of [publish]. *)
Lemma staged_lookup (l : list fsop) (i : nat) (op : fsop) :
  Forall staging_op l -> l !! i = Some op -> staging_op op.
Proof. intros Hl Hi. by eapply Forall_lookup_1. Qed.

Lemma lookup_after_staging (l tail : list fsop) (i : nat) (op : fsop) :
  Forall staging_op l -> ~ staging_op op ->
  (l ++ tail) !! i = Some op ->
  exists k, i = length l + k /\ tail !! k = Some op.
Proof.
  intros Hl Hop Hi. apply lookup_app_Some in Hi as [Hi|[Hlen Hi]].
  - by destruct Hop; eapply staged_lookup.
  - exists (i - length l). split; [lia|done].
Qed.


(** When the system refuses the move, the live directory stays as its
    removal has left it: removed, if the removal was done. *)
Lemma move_refused_live_removed (env : Env) (w : World) :
  is_Some (fs_fault env MoveTemp) ->
  RmtreeLatest ∈ operations (snd (run env w)) ->
  latest_path (world (snd (run env w))) =
    latest_path (after_rmtree_latest env w) /\
  (fs_fault env RmtreeLatest = None ->
   latest_path (world (snd (run env w))) = None).
Proof.
  intros [e He] (w' & Hin)%operations_elem.
  assert (Hgone : fs_fault env RmtreeLatest = None ->
                  latest_path (after_rmtree_latest env w) = None).
  { intros Hr. unfold after_rmtree_latest. by rewrite Hr. }
  destruct (run_cases env w)
    as [(Hpre & _)|(lv & text & langs & page & files & pre & _ & _ & _ & _ &
                    _ & _ & _ & _ & Hpre & Hcases)].
  - by destruct (staging_not_publish _ _ _ _ Hpre Hin) as [? _].
  - simpl in Hcases.
    destruct Hcases as [(Hl & Hw & _)|(w2 & Hm & _)]; [|congruence].
    rewrite Hw. split; [done|]. intros Hr. simpl. by apply Hgone.
Qed.





(** After a write that fails the version file is empty: it has been opened
    for the write. *)
Example version_file_emptied :
  fst (run_body Sample.write_fails Sample.before) = Raise IOError /\
  latest_tb_file (world (snd (run Sample.write_fails Sample.before))) =
    Some EmptyString.
Proof. by vm_compute. Qed.

(** C2, as stated, fails: in the run [Sample.fine] from [Sample.before]
    the live directory is, after the removal and before the move, neither
    the previous release nor the new one: it is not there. *)
Lemma publish_not_atomic :
  ~ (forall env w i op w',
       log (snd (run env w)) !! i = Some (op, w') ->
       latest_path w' = latest_path w \/
       latest_path w' = latest_path (world (snd (run env w)))).
Proof.
  intros H.
  destruct (H Sample.fine Sample.before 3 RmtreeLatest
              (Build_World (Some "5.5.2")
                 (Some {[ "torbrowser-install-5.5.3_en-US.exe" := "new" ]})
                 None None)) as [H1|H1].
  - by vm_compute.
  - vm_compute in H1. discriminate.
  - vm_compute in H1. discriminate.
Qed.

(** What the removal leaves of the live directory. *)
Lemma after_rmtree_latest_live env w :
  (fs_fault env RmtreeLatest = None ->
   latest_path (after_rmtree_latest env w) = None /\
   latest_temp (after_rmtree_latest env w) = None) /\
  (forall part, latest_path (after_rmtree_latest env w) = Some part ->
     is_Some (fs_fault env RmtreeLatest) /\
     exists old, latest_path w = Some old /\ part ⊆ old).
Proof.
  unfold after_rmtree_latest. split.
  - by intros ->.
  - intros part. destruct (fs_fault env RmtreeLatest) as [e|]; [|done].
    destruct (latest_path w) as [old|]; [|done]. simpl. intros [= <-].
    split; [by eexists|]. exists old. split; [done|].
    apply map_filter_subseteq.
Qed.

(** Where the move puts the staging directory. *)
Lemma after_move_live w0 (d : gmap string string) w2 :
  after_move (with_temp w0 (Some d)) = Return w2 ->
  match latest_path w0 with
  | None => latest_path w2 = Some d /\ latest_temp w2 = None
  | Some part => latest_path w2 = Some part /\ latest_temp w2 = Some d
  end.
Proof.
  unfold after_move. simpl. destruct (latest_path w0); [|by intros [= <-]].
  destruct (decide _); [done|]. by intros [= <-].
Qed.

(** C2, amended.  The live directory is replaced by two operations, its
    removal and then the move of the staging directory, which comes right
    after the removal.  After every operation of a run (each call on files
    counts for one operation) the live directory is one of three: as it
    was before the run; as the removal has left it, that is absent, or,
    when the removal has failed, which it does in silence, still there
    with part of its files; or, from the move on, the new release: exactly
    the files found on the page of the mirror for the version found and
    the locales listed, each with the body downloaded, which make the live
    directory when the removal was done, and stand in a directory temp
    inside of what was left when it was not. *)
Theorem live_directory_states (env : Env) (w : World) :
  let st := snd (run env w) in
  let removed := after_rmtree_latest env w in
  (forall i, operations st !! i = Some MoveTemp ->
     exists j, i = S j /\ operations st !! j = Some RmtreeLatest) /\
  (fs_fault env RmtreeLatest = None ->
   latest_path removed = None /\ latest_temp removed = None) /\
  (forall part, latest_path removed = Some part ->
     is_Some (fs_fault env RmtreeLatest) /\
     exists old, latest_path w = Some old /\ part ⊆ old) /\
  forall op w', (op, w') ∈ log st ->
    (latest_path w' = latest_path w /\ latest_temp w' = latest_temp w) \/
    (op = RmtreeLatest /\
     latest_path w' = latest_path removed /\
     latest_temp w' = latest_temp removed) \/
    ((op = MoveTemp \/ op = OpenVersion \/ exists v, op = WriteVersion v) /\
     exists lv langs page files,
       found_version env = Return lv /\
       gettor_locales env = Return langs /\
       getPage env (dist_tpo +:+ lv +:+ "/") = Return page /\
       mirror_links env langs page = Return files /\
       let new_release := release_set env lv (elements files) in
       (forall f, f ∈ files ->
          exists body,
            downloadPage env (file_url lv f) = Return body /\
            new_release !! f = Some body) /\
       (forall f, f ∉ files -> new_release !! f = None) /\
       match latest_path removed with
       | None => latest_path w' = Some new_release /\ latest_temp w' = None
       | Some part =>
           latest_path w' = Some part /\ latest_temp w' = Some new_release
       end).
Proof.
  cbv zeta.
  destruct (after_rmtree_latest_live env w) as [Hgone Hpart].
  split; [|split; [done|split; [done|]]].
  - destruct (run_cases env w)
      as [(Hpre & _)|(lv & text & langs & page & files & pre & _ & _ & _ & _ &
                      _ & _ & _ & _ & Hpre & Hcases)]; simpl in *.
    + pose proof (staging_operations _ _ Hpre) as Hops.
      intros i Hi. exfalso. by apply (staged_lookup _ _ _ Hops Hi).
    + pose proof (staging_operations _ _ Hpre) as Hops.
      unfold operations.
      destruct Hcases
        as [(Hl & _)|(w2 & _ & _ & [(Hl & _)|[(Hl & _)|(Hl & _)]])];
        rewrite Hl; cbn [map fst rev]; rewrite <- ?app_assoc; cbn [app];
        intros i Hi;
        (apply lookup_after_staging in Hi as (k & -> & Hk); [|done|by cbv]);
        destruct k as [|[|[|[|]]]]; try done;
        (exists (length (rev (map fst pre)) + 0); split; [lia|]);
        rewrite lookup_app_r by lia;
        by replace (_ + 0 - _) with 0 by lia.
  - intros op w' Hin.
    destruct (run_cases env w)
      as [(Hpre & _)|(lv & text & langs & page & files & pre & Hlv & _ & _ &
                      _ & Hlangs & Hpage & Hlinks & Hbodies & Hpre & Hcases)];
      simpl in *.
    + left. by destruct (staging_not_publish _ _ _ _ Hpre Hin)
        as (_ & ? & ? & _).
    + set (d := release_set env lv (elements files)) in *.
      set (w1 := with_temp (after_rmtree_latest env w) (Some d)) in *.
      assert (Hnew : forall w2 w'',
                after_move w1 = Return w2 ->
                latest_path w'' = latest_path w2 ->
                latest_temp w'' = latest_temp w2 ->
                exists lv langs page files,
                  found_version env = Return lv /\
                  gettor_locales env = Return langs /\
                  getPage env (dist_tpo +:+ lv +:+ "/") = Return page /\
                  mirror_links env langs page = Return files /\
                  (forall f, f ∈ files ->
                     exists body,
                       downloadPage env (file_url lv f) = Return body /\
                       release_set env lv (elements files) !! f =
                         Some body) /\
                  (forall f, f ∉ files ->
                     release_set env lv (elements files) !! f = None) /\
                  match latest_path (after_rmtree_latest env w) with
                  | None =>
                      latest_path w'' =
                        Some (release_set env lv (elements files)) /\
                      latest_temp w'' = None
                  | Some part =>
                      latest_path w'' = Some part /\
                      latest_temp w'' =
                        Some (release_set env lv (elements files))
                  end).
      { intros w2 w'' Hmove H1 H2. exists lv, langs, page, files.
        do 4 (split; [done|]). split; [|split].
        - intros f Hf. destruct (Hbodies f Hf) as [body Hbody].
          exists body. split; [done|].
          rewrite release_set_files, decide_True by done.
          unfold body_of. unfold file_url in Hbody. by rewrite Hbody.
        - intros f Hf. by rewrite release_set_files, decide_False.
        - apply after_move_live in Hmove. rewrite H1, H2.
          by destruct (latest_path (after_rmtree_latest env w)). }
      assert (Hin' : (op, w') ∈ pre \/ (op, w') ∈ log (snd (run env w)))
        by by right.
      destruct Hcases
        as [(Hl & _)|(w2 & _ & Hmove & [(Hl & _)|[(Hl & _)|(Hl & _)]])];
        rewrite Hl in Hin;
        repeat (apply elem_of_cons in Hin as [Heq|Hin];
                [injection Heq as -> ->|]);
        try (left; by destruct (staging_not_publish _ _ _ _ Hpre Hin)
               as (_ & ? & ? & _));
        try (right; left; by repeat split);
        right; right; (split; [eauto|]); by eapply Hnew.
Qed.

Lemma live_directory_states_witness :
  (exists j, 5 = S j /\
     operations (snd (run Sample.fine Sample.before)) !! j =
       Some RmtreeLatest) /\
  latest_path (after_rmtree_latest Sample.fine Sample.before) = None /\
  latest_temp (after_rmtree_latest Sample.fine Sample.before) = None.
Proof.
  split.
  - apply (proj1 (live_directory_states Sample.fine Sample.before) 5).
    by vm_compute.
  - apply (proj1 (proj2 (live_directory_states Sample.fine Sample.before))).
    reflexivity.
Defined.

(** When the removal of the live directory fails, the run goes on: the
    previous files stay where they are served from, the new ones are
    moved to a directory inside, and the version is written. *)
Example removal_fails_mix :
  latest_path (world (snd (run Sample.removal_fails Sample.before))) =
    Some Sample.old_release /\
  latest_temp (world (snd (run Sample.removal_fails Sample.before))) =
    Some {[ "torbrowser-install-5.5.3_en-US.exe" := "new" ]} /\
  latest_tb_file (world (snd (run Sample.removal_fails Sample.before))) =
    Some "5.5.3".
Proof. by vm_compute. Qed.
(** ** The matcher *)

Section MatcherFacts.
Context {X : Type}.
Implicit Types (s rest : list ascii) (k : list ascii -> option X).

(** [a+] fails only when no run of accepted characters lets [k] succeed. *)
Lemma plus_k_none a s k :
  Re.plus_k a s k = None ->
  forall pre rest, s = pre ++ rest -> pre <> [] ->
    Forall (fun c => Re.accepts a c = true) pre -> k rest = None.
Proof.
  revert k. induction s as [|c s IH]; intros k Hn pre rest Hs Hpre Hacc.
  - by destruct pre.
  - destruct pre as [|c' pre]; [done|]. simpl in Hs. injection Hs as <- ->.
    apply Forall_cons in Hacc as [Hc Hacc]. simpl in Hn. rewrite Hc in Hn.
    destruct (Re.plus_k a (pre ++ rest) k) eqn:E; [done|].
    destruct pre as [|c'' pre]; [done|].
    by eapply IH.
Qed.

(** A result of [a+] comes from the longest run that lets [k] succeed. *)
Lemma plus_k_some a s k x :
  Re.plus_k a s k = Some x ->
  exists pre rest,
    s = pre ++ rest /\ pre <> [] /\
    Forall (fun c => Re.accepts a c = true) pre /\ k rest = Some x /\
    forall pre' rest', s = pre' ++ rest' -> length pre < length pre' ->
      Forall (fun c => Re.accepts a c = true) pre' -> k rest' = None.
Proof.
  revert k x. induction s as [|c s IH]; intros k x Hs; [done|].
  simpl in Hs. destruct (Re.accepts a c) eqn:Hc; [|done].
  destruct (Re.plus_k a s k) as [y|] eqn:E.
  - injection Hs as ->.
    destruct (IH _ _ E) as (pre & rest & -> & Hpre & Hacc & Hk & Hmax).
    exists (c :: pre), rest. repeat split; try done.
    + by constructor.
    + intros pre' rest' Heq Hlen Hacc'.
      destruct pre' as [|c' pre']; [simpl in Hlen; lia|].
      simpl in Heq. injection Heq as <- Heq.
      apply Forall_cons in Hacc' as [_ Hacc'].
      apply (Hmax pre' rest'); [done|simpl in Hlen; lia|done].
  - exists [c], s. repeat split; try done.
    + by repeat constructor.
    + intros pre' rest' Heq Hlen Hacc'.
      destruct pre' as [|c' pre']; [simpl in Hlen; lia|].
      simpl in Heq. injection Heq as <- Heq.
      apply Forall_cons in Hacc' as [_ Hacc'].
      destruct pre' as [|c'' pre']; [simpl in Hlen; lia|].
      by eapply plus_k_none.
Qed.

Lemma plus_k_is_some a s k pre rest :
  s = pre ++ rest -> pre <> [] ->
  Forall (fun c => Re.accepts a c = true) pre ->
  is_Some (k rest) -> is_Some (Re.plus_k a s k).
Proof.
  intros Hs Hpre Hacc [x Hx].
  destruct (Re.plus_k a s k) eqn:E; [done|].
  by rewrite (plus_k_none _ _ _ E pre rest) in Hx.
Qed.

Implicit Types (kc : list ascii -> Re.captures -> option X).

(** A pattern without choice reads its text and goes on. *)
Lemma m_flat pat rs s caps kc :
  Re.m (Re.cat_list (map Re.One pat ++ rs)) s caps kc =
  match Re.flat_match pat s with
  | Some rest => Re.m (Re.cat_list rs) rest caps kc
  | None => None
  end.
Proof.
  revert s. induction pat as [|a pat IH]; intros s; [done|].
  simpl. destruct s as [|c s]; [done|].
  destruct (Re.accepts a c); [apply IH|done].
Qed.

Lemma m_flat_group n pat s caps kc :
  Re.m (Re.Group n (Re.cat_list (map Re.One pat))) s caps kc =
  match Re.flat_match pat s with
  | Some rest => kc rest ((n, Re.consumed s rest) :: caps)
  | None => None
  end.
Proof.
  simpl. rewrite <- (app_nil_r (map Re.One pat)), m_flat.
  by destruct (Re.flat_match pat s).
Qed.

Lemma m_alt r1 r2 s caps kc :
  Re.m (Re.Alt r1 r2) s caps kc =
  match Re.m r1 s caps kc with
  | Some x => Some x
  | None => Re.m r2 s caps kc
  end.
Proof. done. Qed.
End MatcherFacts.

Lemma flat_match_text pat s rest :
  Re.flat_match pat s = Some rest ->
  exists t, s = t ++ rest /\
            Forall2 (fun a c => Re.accepts a c = true) pat t.
Proof.
  revert s. induction pat as [|a pat IH]; intros s; simpl.
  - intros [= ->]. by exists [].
  - destruct s as [|c s]; [done|].
    destruct (Re.accepts a c) eqn:Hc; [|done]. intros H.
    destruct (IH _ H) as (t & -> & Ht). exists (c :: t). split; [done|].
    by constructor.
Qed.

Lemma flat_match_of_text pat t rest :
  Forall2 (fun a c => Re.accepts a c = true) pat t ->
  Re.flat_match pat (t ++ rest) = Some rest.
Proof.
  induction 1 as [|a c pat t Hc _ IH]; simpl; [done|]. by rewrite Hc.
Qed.

(** The text of a literal pattern is the literal. *)
Lemma chr_text (l t : list ascii) :
  Forall2 (fun a c => Re.accepts a c = true) (map Re.Chr l) t <-> t = l.
Proof.
  split.
  - revert t. induction l as [|d l IH]; intros t H; simpl in H.
    + by apply Forall2_nil_inv_l in H.
    + apply Forall2_cons_inv_l in H as (c & t' & Hc & Ht & ->).
      simpl in Hc. apply Ascii.eqb_eq in Hc as ->. by rewrite (IH _ Ht).
  - intros ->. induction l as [|d l IH]; simpl; constructor; [|done].
    simpl. apply Ascii.eqb_refl.
Qed.

Lemma consumed_app (t rest : list ascii) : Re.consumed (t ++ rest) rest = t.
Proof.
  unfold Re.consumed. rewrite length_app.
  replace (length t + length rest - length rest) with (length t) by lia.
  by rewrite take_app_length.
Qed.

(** Every tuple of [scan] is a match at some place of the subject. *)
Lemma scan_match r s skip caps :
  caps ∈ Re.scan r s skip ->
  exists s' rest, Re.match_at r s' = Some (caps, rest).
Proof.
  revert skip. induction s as [|c s IH]; intros skip; simpl.
  - destruct skip; [|by intros ?%elem_of_nil].
    destruct (Re.match_at r []) as [[caps' rest]|] eqn:E;
      [|by intros ?%elem_of_nil].
    intros ->%list_elem_of_singleton. eauto.
  - destruct skip as [|n]; [|apply IH].
    destruct (Re.match_at r (c :: s)) as [[caps' rest]|] eqn:E; [|apply IH].
    intros [->|H]%elem_of_cons; [eauto|by eapply IH].
Qed.

Lemma scan_skip r (a b : list ascii) :
  Re.scan r (a ++ b) (length a) = Re.scan r b 0.
Proof. induction a as [|c a IH]; [done|apply IH]. Qed.

(** ** The pattern of the links *)

Lemma lits_flat (s : string) :
  Re.lits s = map Re.One (map Re.Chr (list_ascii_of_string s)).
Proof. unfold Re.lits. by rewrite map_map. Qed.

Lemma flat_match_longer_none (pat more : list Re.cset) (s : list ascii) :
  Re.flat_match pat s = None -> Re.flat_match (pat ++ more) s = None.
Proof.
  revert s. induction pat as [|a pat IH]; intros s; simpl; [done|].
  destruct s as [|c s]; [done|]. destruct (Re.accepts a c); [apply IH|done].
Qed.

Lemma installer_patterns_sub lang pat :
  pat ∈ installer_patterns lang -> pat ∈ lang_patterns lang.
Proof.
  unfold installer_patterns, lang_patterns.
  intros [->|[->|H]%elem_of_cons]%elem_of_cons.
  - left.
  - do 2 right. left.
  - by apply elem_of_nil in H.
Qed.

(** [lang_regexp] is the choice, in this order, between the pattern of the
    Windows installer, the same with the end of a signature, the pattern of
    the OS X installer, and the same with the end of a signature. *)
Lemma lang_regexp_flat i lang :
  exists exe dmg asc,
    installer_patterns lang = [exe; dmg] /\
    lang_patterns lang = [exe; exe ++ asc; dmg; dmg ++ asc] /\
    lang_regexp i lang =
      Re.Alt (Re.Group (3 + 4 * i + 0) (Re.cat_list (map Re.One exe)))
        (Re.Alt (Re.Group (3 + 4 * i + 1)
                   (Re.cat_list (map Re.One (exe ++ asc))))
           (Re.Alt (Re.Group (3 + 4 * i + 2) (Re.cat_list (map Re.One dmg)))
              (Re.Group (3 + 4 * i + 3)
                 (Re.cat_list (map Re.One (dmg ++ asc)))))).
Proof.
  exists (map Re.Chr (list_ascii_of_string lang) ++
          Re.Any :: map Re.Chr (list_ascii_of_string "exe")),
         (map Re.Chr (list_ascii_of_string lang) ++
          Re.Any :: map Re.Chr (list_ascii_of_string "dmg")),
         (Re.Any :: map Re.Chr (list_ascii_of_string "asc")).
  split; [done|]. split.
  - unfold lang_patterns. by rewrite <- !app_assoc.
  - unfold lang_regexp. rewrite !lits_flat.
    repeat f_equal; by rewrite ?map_app, <- ?app_assoc.
Qed.

Section LinkPattern.
Context {X : Type}.
Implicit Types (kc : list ascii -> Re.captures -> option X).

(** When what follows the choice always succeeds, the alternative taken is
    that of an installer: where the pattern of a signature matches, the
    pattern of its installer, which stands before, matches too. *)
Lemma lang_regexp_some i lang s caps kc x :
  (forall rest caps', is_Some (kc rest caps')) ->
  Re.m (lang_regexp i lang) s caps kc = Some x ->
  exists pat n rest,
    pat ∈ installer_patterns lang /\ Re.flat_match pat s = Some rest /\
    kc rest ((n, Re.consumed s rest) :: caps) = Some x.
Proof.
  intros Hk.
  destruct (lang_regexp_flat i lang) as (exe & dmg & asc & -> & _ & ->).
  rewrite !m_alt, !m_flat_group.
  destruct (Re.flat_match exe s) as [r0|] eqn:E0.
  { destruct (Hk r0 ((3 + 4 * i + 0, Re.consumed s r0) :: caps)) as [y Hy].
    rewrite Hy. intros [= <-]. exists exe, (3 + 4 * i + 0), r0.
    split; [left|done]. }
  rewrite (flat_match_longer_none exe asc s E0).
  destruct (Re.flat_match dmg s) as [r2|] eqn:E2.
  { destruct (Hk r2 ((3 + 4 * i + 2, Re.consumed s r2) :: caps)) as [y Hy].
    rewrite Hy. intros [= <-]. exists dmg, (3 + 4 * i + 2), r2.
    split; [right; left|done]. }
  by rewrite (flat_match_longer_none dmg asc s E2).
Qed.

Lemma lang_regexp_is_some i lang s caps kc pat :
  pat ∈ lang_patterns lang -> is_Some (Re.flat_match pat s) ->
  (forall rest caps', is_Some (kc rest caps')) ->
  is_Some (Re.m (lang_regexp i lang) s caps kc).
Proof.
  destruct (lang_regexp_flat i lang) as (exe & dmg & asc & _ & -> & ->).
  intros Hpat [rest Hrest] Hk.
  rewrite !m_alt, !m_flat_group.
  repeat match goal with
  | |- context [Re.flat_match ?p s] =>
      destruct (Re.flat_match p s) as [?|] eqn:?;
      [match goal with
       | |- context [kc ?r ?c] =>
           destruct (Hk r c) as [? ->]; eauto
       end|]
  end.
  repeat (apply elem_of_cons in Hpat as [->|Hpat]; [congruence|]).
  by apply elem_of_nil in Hpat.
Qed.
End LinkPattern.

Lemma fold_add_lang_snoc langs lang :
  fold_left add_lang (langs ++ [lang]) (O, Re.Eps) =
  add_lang (fold_left add_lang langs (O, Re.Eps)) lang.
Proof. by rewrite fold_left_app. Qed.

Lemma fold_add_lang_count langs :
  fst (fold_left add_lang langs (O, Re.Eps)) = length langs.
Proof.
  induction langs as [|lang langs IH] using rev_ind; [done|].
  rewrite fold_add_lang_snoc, length_app. simpl.
  destruct (fold_left add_lang langs (O, Re.Eps)) as [i r]. simpl in *. lia.
Qed.

Section FileNames.
Context {X : Type}.
Implicit Types (kc : list ascii -> Re.captures -> option X).

(** A match of the choice between the file names, when what follows always
    succeeds, is a match of the pattern of an installer of a listed
    locale. *)
Lemma filenames_regexp_some langs s caps kc x :
  langs <> [] ->
  (forall rest caps', is_Some (kc rest caps')) ->
  Re.m (filenames_regexp langs) s caps kc = Some x ->
  exists lang pat n rest,
    lang ∈ langs /\ pat ∈ installer_patterns lang /\
    Re.flat_match pat s = Some rest /\
    kc rest ((n, Re.consumed s rest) :: caps) = Some x.
Proof.
  unfold filenames_regexp. intros Hne Hk. revert Hne.
  induction langs as [|lang langs IH] using rev_ind; [done|]. intros _.
  rewrite fold_add_lang_snoc.
  pose proof (fold_add_lang_count langs) as Hi.
  destruct (fold_left add_lang langs (O, Re.Eps)) as [i r].
  simpl in Hi, IH. subst i. simpl.
  assert (Hlast : Re.m (lang_regexp (length langs) lang) s caps kc = Some x ->
    exists lang0 pat n rest,
      lang0 ∈ langs ++ [lang] /\ pat ∈ installer_patterns lang0 /\
      Re.flat_match pat s = Some rest /\
      kc rest ((n, Re.consumed s rest) :: caps) = Some x).
  { intros H. apply lang_regexp_some in H as (pat & n & rest & ? & ? & ?);
      [|done].
    exists lang, pat, n, rest. repeat split; try done.
    apply elem_of_app. right. left. }
  destruct langs as [|l0 langs]; [done|].
  cbn [length]. rewrite m_alt.
  destruct (Re.m r s caps kc) as [y|] eqn:E; [|done].
  intros [= ->].
  destruct (IH ltac:(done) eq_refl)
    as (lang0 & pat & n & rest & ? & ? & ? & ?).
  exists lang0, pat, n, rest. repeat split; try done.
  apply elem_of_app. by left.
Qed.

Lemma filenames_regexp_is_some langs lang pat s caps kc :
  lang ∈ langs -> pat ∈ lang_patterns lang ->
  is_Some (Re.flat_match pat s) ->
  (forall rest caps', is_Some (kc rest caps')) ->
  is_Some (Re.m (filenames_regexp langs) s caps kc).
Proof.
  unfold filenames_regexp. intros Hin Hpat Hs Hk.
  induction langs as [|l langs IH] using rev_ind;
    [by apply elem_of_nil in Hin|].
  rewrite fold_add_lang_snoc.
  pose proof (fold_add_lang_count langs) as Hi.
  destruct (fold_left add_lang langs (O, Re.Eps)) as [i r].
  simpl in Hi, IH. subst i. simpl.
  apply elem_of_app in Hin as [Hin|Hin%list_elem_of_singleton].
  - destruct langs as [|l0 langs]; [by apply elem_of_nil in Hin|].
    cbn [length]. rewrite m_alt.
    destruct (IH Hin) as [y ->]. eauto.
  - subst l.
    assert (is_Some (Re.m (lang_regexp (length langs) lang) s caps kc))
      by by eapply lang_regexp_is_some.
    destruct langs as [|l0 langs]; [done|].
    cbn [length]. rewrite m_alt.
    by destruct (Re.m r s caps kc); eauto.
Qed.
End FileNames.

(** ** The first group *)

Lemma link_group_some langs s2 caps0 caps rest :
  langs <> [] ->
  Re.m (link_group langs) s2 caps0 Re.found = Some (caps, rest) ->
  exists pre t lang pat,
    s2 = pre ++ t ++ rest /\ pre <> [] /\
    Forall (fun c => Re.accepts (Re.NoneOf delimiters) c = true) pre /\
    lang ∈ langs /\ pat ∈ installer_patterns lang /\
    Forall2 (fun a c => Re.accepts a c = true) pat t /\
    Re.group 1 caps = pre ++ t /\
    forall pre' rest' lang' pat',
      s2 = pre' ++ rest' -> length pre < length pre' ->
      Forall (fun c => Re.accepts (Re.NoneOf delimiters) c = true) pre' ->
      lang' ∈ langs -> pat' ∈ lang_patterns lang' ->
      Re.flat_match pat' rest' = None.
Proof.
  intros Hne H. cbn [link_group Re.m] in H.
  apply plus_k_some in H as (pre & rest1 & -> & Hpre & Hacc & Hk & Hmax).
  apply filenames_regexp_some in Hk
    as (lang & pat & n & rest' & Hlang & Hpat & Hflat & Hfound);
    [|done|by intros; eexists].
  unfold Re.found in Hfound. injection Hfound as <- ->.
  apply flat_match_text in Hflat as (t & -> & Ht).
  exists pre, t, lang, pat. repeat split; try done.
  - cbn [Re.group Nat.eqb]. by rewrite app_assoc, consumed_app.
  - intros pre' rest' lang' pat' Heq Hlen Hacc' Hlang' Hpat'.
    specialize (Hmax pre' rest' Heq Hlen Hacc'). cbv beta in Hmax.
    destruct (Re.flat_match pat' rest') eqn:E; [|done]. exfalso.
    match type of Hmax with
    | Re.m _ _ _ ?kc = None =>
        destruct (filenames_regexp_is_some langs lang' pat' rest' caps0 kc)
          as [y Hy]; [done|done|by rewrite E|by intros; eexists|]
    end.
    congruence.
Qed.

Lemma link_group_is_some langs s2 caps0 pre rest1 lang pat :
  s2 = pre ++ rest1 -> pre <> [] ->
  Forall (fun c => Re.accepts (Re.NoneOf delimiters) c = true) pre ->
  lang ∈ langs -> pat ∈ lang_patterns lang ->
  is_Some (Re.flat_match pat rest1) ->
  is_Some (Re.m (link_group langs) s2 caps0 Re.found).
Proof.
  intros Hs Hpre Hacc Hlang Hpat Hflat. cbn [link_group Re.m].
  eapply plus_k_is_some; [done..|].
  eapply filenames_regexp_is_some; [done..|]. by intros; eexists.
Qed.

(** ** The whole pattern *)

Lemma match_at_url langs s :
  Re.match_at (url_regexp langs) s =
  match Re.flat_match (map Re.Chr (list_ascii_of_string "href=")) s with
  | Some s1 =>
      Re.m (Re.Opt (Re.One (Re.OneOf ["'"%char; dq]))) s1 []
           (fun s2 caps => Re.m (link_group langs) s2 caps Re.found)
  | None => None
  end.
Proof.
  unfold Re.match_at, url_regexp. rewrite lits_flat, m_flat.
  by destruct (Re.flat_match _ s).
Qed.

Lemma match_at_url_some langs s caps rest :
  Re.match_at (url_regexp langs) s = Some (caps, rest) ->
  exists s2, Re.m (link_group langs) s2 [] Re.found = Some (caps, rest).
Proof.
  rewrite match_at_url.
  destruct (Re.flat_match _ s) as [s1|]; [|done]. cbn [Re.m].
  destruct s1 as [|c s1]; [by eauto|].
  destruct (Re.accepts _ c); [|by eauto].
  destruct (Re.m (link_group langs) s1 [] Re.found) eqn:E.
  - intros [= ->]. eauto.
  - eauto.
Qed.

Lemma match_at_url_quoted langs s2 x :
  Re.m (link_group langs) s2 [] Re.found = Some x ->
  Re.match_at (url_regexp langs)
    (list_ascii_of_string "href=" ++ dq :: s2) = Some x.
Proof.
  intros H. rewrite match_at_url.
  rewrite flat_match_of_text by by apply chr_text.
  cbn [Re.m Re.accepts Re.mem existsb]. by rewrite H.
Qed.

(** ** Strings and lists of characters *)

Lemma list_ascii_of_string_app (a b : string) :
  list_ascii_of_string (a +:+ b) =
  list_ascii_of_string a ++ list_ascii_of_string b.
Proof. induction a as [|c a IH]; [done|]. cbn. by rewrite <- IH. Qed.

Lemma string_of_list_ascii_app (a b : list ascii) :
  string_of_list_ascii (a ++ b) =
  string_of_list_ascii a +:+ string_of_list_ascii b.
Proof. induction a as [|c a IH]; [done|]. cbn. by rewrite IH. Qed.

Lemma starts_with_app (p b : list ascii) : Re.starts_with p (p ++ b) = true.
Proof.
  induction p as [|c p IH]; [done|]. simpl. by rewrite Ascii.eqb_refl, IH.
Qed.

Lemma has_infix_start (p s : list ascii) :
  Re.starts_with p s = true -> Re.has_infix p s = true.
Proof. intros H. destruct s; simpl; by rewrite H. Qed.

Lemma has_infix_app (p a b : list ascii) : Re.has_infix p (a ++ p ++ b) = true.
Proof.
  induction a as [|c a IH].
  - change ([] ++ p ++ b) with (p ++ b).
    apply has_infix_start, starts_with_app.
  - simpl. rewrite IH. apply orb_true_r.
Qed.

(** Where "exe" or "dmg" can stand in the end of an installer's name
    followed by a quote, when the locale has neither inside: at the very
    end only. *)
Lemma ext_occurrence (lang a tail ext ext' : list ascii) :
  ext = list_ascii_of_string "exe" \/ ext = list_ascii_of_string "dmg" ->
  ext' = list_ascii_of_string "exe" \/ ext' = list_ascii_of_string "dmg" ->
  Re.has_infix (list_ascii_of_string "exe") lang = false ->
  Re.has_infix (list_ascii_of_string "dmg") lang = false ->
  lang ++ "."%char :: ext ++ [dq] = a ++ ext' ++ tail ->
  tail = [dq].
Proof.
  intros Hext Hext' Hexe Hdmg Heq.
  apply (f_equal (@rev ascii)) in Heq.
  rewrite !rev_app_distr in Heq. simpl in Heq.
  rewrite !rev_app_distr in Heq. simpl in Heq.
  rewrite <- (rev_involutive tail).
  assert (Hin : forall rt, rev lang = rt ++ rev ext' ++ rev a -> False).
  { intros rt H. apply (f_equal (@rev ascii)) in H.
    rewrite rev_involutive, !rev_app_distr, !rev_involutive in H.
    rewrite <- app_assoc in H.
    destruct Hext' as [->| ->]; rewrite H, has_infix_app in *; done. }
  destruct (rev tail) as [|t1 [|t2 [|t3 [|t4 [|t5 rt]]]]];
    destruct Hext as [->| ->], Hext' as [->| ->]; simpl in Heq;
    try discriminate; try done;
    try (injection Heq as <-; done).
  all: exfalso; apply (Hin rt); injection Heq as _ _ _ _ _ ->;
    by rewrite <- app_assoc.
Qed.

(** The text of one of the four patterns of a locale: the locale, any
    character, "exe" or "dmg", and for a signature any character and
    "asc". *)
Lemma pattern_text lang pat (t : list ascii) :
  pat ∈ lang_patterns lang ->
  Forall2 (fun a c => Re.accepts a c = true) pat t ->
  exists (c : ascii) (ext tl : list ascii),
    t = list_ascii_of_string lang ++ c :: ext ++ tl /\
    (ext = list_ascii_of_string "exe" \/ ext = list_ascii_of_string "dmg") /\
    (tl = [] \/ exists c' : ascii, tl = c' :: list_ascii_of_string "asc").
Proof.
  unfold lang_patterns. intros Hpat Ht.
  repeat (apply elem_of_cons in Hpat as [->|Hpat]);
    [..|by apply elem_of_nil in Hpat];
    apply Forall2_app_inv_l in Ht as (t1 & t2 & Ht1%chr_text & Ht2 & ->);
    apply Forall2_cons_inv_l in Ht2 as (c & t3 & _ & Ht3 & ->); subst t1.
  - apply chr_text in Ht3 as ->.
    exists c, (list_ascii_of_string "exe"), []. rewrite app_nil_r. tauto.
  - apply Forall2_app_inv_l in Ht3 as (t4 & t5 & Ht4%chr_text & Ht5 & ->).
    apply Forall2_cons_inv_l in Ht5 as (c' & t6 & _ & Ht6%chr_text & ->).
    subst. exists c, (list_ascii_of_string "exe"), (c' :: list_ascii_of_string "asc").
    split; [done|]. split; [by left|]. right. by exists c'.
  - apply chr_text in Ht3 as ->.
    exists c, (list_ascii_of_string "dmg"), []. rewrite app_nil_r. tauto.
  - apply Forall2_app_inv_l in Ht3 as (t4 & t5 & Ht4%chr_text & Ht5 & ->).
    apply Forall2_cons_inv_l in Ht5 as (c' & t6 & _ & Ht6%chr_text & ->).
    subst. exists c, (list_ascii_of_string "dmg"), (c' :: list_ascii_of_string "asc").
    split; [done|]. split; [by right|]. right. by exists c'.
Qed.

(** The text of the pattern of an installer. *)
Lemma installer_text lang pat (t : list ascii) :
  pat ∈ installer_patterns lang ->
  Forall2 (fun a c => Re.accepts a c = true) pat t ->
  exists (c : ascii) (ext : list ascii),
    t = list_ascii_of_string lang ++ c :: ext /\
    (ext = list_ascii_of_string "exe" \/ ext = list_ascii_of_string "dmg").
Proof.
  unfold installer_patterns. intros Hpat Ht.
  repeat (apply elem_of_cons in Hpat as [->|Hpat]);
    [..|by apply elem_of_nil in Hpat];
    apply Forall2_app_inv_l in Ht as (t1 & t2 & Ht1%chr_text & Ht2 & ->);
    apply Forall2_cons_inv_l in Ht2 as (c & t3 & _ & Ht3%chr_text & ->);
    subst; eauto.
Qed.

(** A run of characters that are no delimiter stops before the quote. *)
Lemma split_before_quote (f pre rest : list ascii) :
  f ++ [dq] = pre ++ rest ->
  Forall (fun c => Re.accepts (Re.NoneOf delimiters) c = true) pre ->
  exists u, f = pre ++ u /\ rest = u ++ [dq].
Proof.
  revert f. induction pre as [|c pre IH]; intros f Heq Hacc.
  - exists f. simpl in Heq. by subst rest.
  - apply Forall_cons in Hacc as [Hc Hacc].
    destruct f as [|d f]; simpl in Heq.
    + injection Heq as <- _. done.
    + injection Heq as -> Heq. destruct (IH _ Heq Hacc) as (u & -> & ->).
      by exists u.
Qed.

Lemma link_safe_accepted (s : string) :
  link_safe s = true ->
  Forall (fun c => Re.accepts (Re.NoneOf delimiters) c = true)
         (list_ascii_of_string s).
Proof. unfold link_safe. by rewrite forallb_forall, Forall_forall; setoid_rewrite list_elem_of_In. Qed.

(** The name of an installer in a link is matched in full. *)
Lemma installer_matched langs lang (pre0 ext : list ascii) :
  lang ∈ langs ->
  ext = list_ascii_of_string "exe" \/ ext = list_ascii_of_string "dmg" ->
  pre0 <> [] ->
  Forall (fun c => Re.accepts (Re.NoneOf delimiters) c = true) pre0 ->
  Re.has_infix (list_ascii_of_string "exe") (list_ascii_of_string lang) = false ->
  Re.has_infix (list_ascii_of_string "dmg") (list_ascii_of_string lang) = false ->
  let f := pre0 ++ list_ascii_of_string lang ++ "."%char :: ext in
  exists caps,
    Re.m (link_group langs) (f ++ [dq]) [] Re.found = Some (caps, [dq]) /\
    Re.group 1 caps = f.
Proof.
  intros Hlang Hext Hpre0 Hnd0 Hexe Hdmg f.
  set (L := list_ascii_of_string lang) in *.
  set (pat := map Re.Chr L ++ Re.Any :: map Re.Chr ext).
  assert (Hpat : pat ∈ lang_patterns lang).
  { unfold pat, lang_patterns. destruct Hext as [->| ->].
    - left.
    - do 2 right. left. }
  assert (Hs : f ++ [dq] = pre0 ++ (L ++ "."%char :: ext) ++ [dq])
    by (unfold f; by rewrite <- !app_assoc).
  assert (Hflat : Re.flat_match pat ((L ++ "."%char :: ext) ++ [dq]) = Some [dq]).
  { apply flat_match_of_text. apply Forall2_app; [by apply chr_text|].
    constructor; [done|by apply chr_text]. }
  destruct (link_group_is_some langs (f ++ [dq]) [] pre0 _ lang pat
              Hs Hpre0 Hnd0 Hlang Hpat) as [[caps rest] H];
    [by rewrite Hflat|].
  exists caps.
  destruct (link_group_some langs _ _ _ _ ltac:(by intros ->; apply elem_of_nil in Hlang) H)
    as (pre & t & lang' & pat' & Heq & Hpre & Hacc & Hlang' & Hpat' & Ht & Hg & Hmax).
  assert (Hlen : length pre0 <= length pre).
  { destruct (decide (length pre0 <= length pre)) as [|Hlt]; [done|].
    exfalso.
    assert (Hn := Hmax pre0 _ lang pat Hs ltac:(lia) Hnd0 Hlang Hpat).
    congruence. }
  destruct (split_before_quote f pre (t ++ rest) Heq Hacc) as (u & Hf & Hu).
  assert (exists v, pre = pre0 ++ v /\ L ++ "."%char :: ext = v ++ u)
    as (v & -> & HW).
  { unfold f in Hf. apply app_eq_app in Hf as [l [[-> ->]|[-> ->]]].
    - rewrite length_app in Hlen. destruct l; [|simpl in Hlen; lia].
      exists []. by rewrite !app_nil_r.
    - by exists l. }
  destruct (pattern_text _ _ _ (installer_patterns_sub _ _ Hpat') Ht)
    as (c & ext' & tl & -> & Hext' & Htl).
  assert (Htail : tl ++ rest = [dq]).
  { eapply (ext_occurrence L (v ++ list_ascii_of_string lang' ++ [c]) _ ext ext');
      [done..|].
    change (L ++ "."%char :: ext ++ [dq]) with (L ++ ("."%char :: ext) ++ [dq]).
    rewrite app_assoc, HW, <- !app_assoc, <- Hu. simpl.
    f_equal. rewrite <- app_assoc. simpl. by rewrite <- app_assoc. }
  destruct Htl as [->|[c' ->]]; [|by destruct rest].
  simpl in Htail. subst rest. split; [done|].
  rewrite Hg. unfold f. rewrite HW, <- app_assoc. do 2 f_equal.
  by apply app_inj_tail in Hu as [<- _].
Qed.

(** With no locale the second group is empty and every link is matched. *)
Lemma plus_k_longest {X} a (pre rest : list ascii)
    (k : list ascii -> option X) x :
  pre <> [] -> Forall (fun c => Re.accepts a c = true) pre ->
  Re.plus_k a rest k = None -> k rest = Some x ->
  Re.plus_k a (pre ++ rest) k = Some x.
Proof.
  intros Hpre Hacc Hn Hk. induction pre as [|c pre IH]; [done|].
  apply Forall_cons in Hacc as [Hc Hacc]. simpl. rewrite Hc.
  destruct pre as [|c' pre].
  - simpl. by rewrite Hn.
  - by rewrite IH.
Qed.

Lemma any_link_matched (f : list ascii) :
  f <> [] ->
  Forall (fun c => Re.accepts (Re.NoneOf delimiters) c = true) f ->
  exists caps,
    Re.m (link_group []) (f ++ [dq]) [] Re.found = Some (caps, [dq]) /\
    Re.group 1 caps = f.
Proof.
  intros Hf Hacc. eexists. split.
  - cbn [link_group Re.m]. apply plus_k_longest; [done..|reflexivity].
  - cbn [Re.group Nat.eqb]. apply consumed_app.
Qed.

(** ** The set of links *)

(** The link to a file name that the first group matches in full gives
    this name and nothing else. *)
Lemma extract_link langs (filename : string) caps :
  Re.m (link_group langs) (list_ascii_of_string filename ++ [dq]) []
       Re.found = Some (caps, [dq]) ->
  Re.group 1 caps = list_ascii_of_string filename ->
  extractLinks (link_to filename) (url_regexp langs) = {[ filename ]}.
Proof.
  intros Hm Hg. apply match_at_url_quoted in Hm.
  unfold extractLinks, Re.findall, link_to.
  rewrite !list_ascii_of_string_app.
  change (list_ascii_of_string (String dq filename))
    with (dq :: list_ascii_of_string filename).
  change (list_ascii_of_string (String dq EmptyString)) with [dq].
  set (f := list_ascii_of_string filename) in *.
  change (list_ascii_of_string "href=" ++ (dq :: f) ++ [dq])
    with ("h"%char :: (list_ascii_of_string "ref=" ++ dq :: f) ++ [dq]).
  change (list_ascii_of_string "href=" ++ dq :: f ++ [dq])
    with ("h"%char :: (list_ascii_of_string "ref=" ++ dq :: f) ++ [dq]) in Hm.
  cbn [Re.scan]. rewrite Hm.
  replace (length ("h"%char :: (list_ascii_of_string "ref=" ++ dq :: f) ++ [dq])
           - length [dq] - 1)
    with (length (list_ascii_of_string "ref=" ++ dq :: f))
    by (cbn [length]; rewrite !length_app; cbn [length]; lia).
  rewrite scan_skip. cbn [Re.scan]. rewrite !match_at_url.
  cbn [Re.flat_match list_ascii_of_string map Re.accepts Ascii.eqb
       Bool.eqb andb].
  cbn [map]. rewrite Hg. unfold f.
  rewrite string_of_list_ascii_of_string. simpl.
  by rewrite (right_id_L ∅ (∪)).
Qed.

(** Every link that is extracted ends as an installer of a listed locale:
    the locale, any character, and "exe" or "dmg". *)
Lemma extracted_form langs (page filename : string) :
  langs <> [] ->
  filename ∈ extractLinks page (url_regexp langs) ->
  exists (lang stem : string) (c : ascii) (ext : string),
    lang ∈ langs /\ stem <> EmptyString /\ link_safe stem = true /\
    (ext = "exe" \/ ext = "dmg") /\
    filename = stem +:+ lang +:+ String c ext.
Proof.
  intros Hne Hin. unfold extractLinks in Hin.
  apply elem_of_list_to_set, list_elem_of_In, in_map_iff in Hin
    as (caps & <- & Hcaps%list_elem_of_In).
  apply scan_match in Hcaps as (s & rest & Hm).
  apply match_at_url_some in Hm as (s2 & Hm).
  apply link_group_some in Hm
    as (pre & t & lang & pat & -> & Hpre & Hacc & Hlang & Hpat & Ht & Hg & _);
    [|done].
  destruct (installer_text _ _ _ Hpat Ht) as (c & ext & -> & Hext).
  exists lang, (string_of_list_ascii pre), c, (string_of_list_ascii ext).
  repeat split; try done.
  - by destruct pre.
  - unfold link_safe. rewrite list_ascii_of_string_of_list_ascii.
    apply forallb_forall. intros x Hx%list_elem_of_In.
    rewrite Forall_forall in Hacc. by apply Hacc.
  - destruct Hext as [->| ->]; [by left|by right].
  - rewrite Hg, !string_of_list_ascii_app, string_of_list_ascii_of_string.
    done.
Qed.

(** ** The file names of a release *)

Lemma tb_file_chars (client : client_os) (version lang : string) :
  exists pre0 ext : list ascii,
    list_ascii_of_string (tb_file client file version lang) =
      pre0 ++ list_ascii_of_string lang ++ "."%char :: ext /\
    pre0 <> [] /\
    (link_safe version = true ->
     Forall (fun c => Re.accepts (Re.NoneOf delimiters) c = true) pre0) /\
    (ext = list_ascii_of_string "exe" \/ ext = list_ascii_of_string "dmg").
Proof.
  destruct client.
  - exists (list_ascii_of_string "torbrowser-install-" ++
            list_ascii_of_string version ++ ["_"%char]),
           (list_ascii_of_string "exe").
    split; [|split; [done|split; [|by left]]].
    + unfold tb_file. rewrite !list_ascii_of_string_app.
      by rewrite <- !app_assoc.
    + intros Hv. apply Forall_app. split; [by repeat constructor|].
      apply Forall_app. split; [by apply link_safe_accepted|].
      by repeat constructor.
  - exists (list_ascii_of_string "TorBrowser-" ++
            list_ascii_of_string version ++ list_ascii_of_string "-osx32_"),
           (list_ascii_of_string "dmg").
    split; [|split; [done|split; [|by right]]].
    + unfold tb_file. rewrite !list_ascii_of_string_app.
      by rewrite <- !app_assoc.
    + intros Hv. apply Forall_app. split; [by repeat constructor|].
      apply Forall_app. split; [by apply link_safe_accepted|].
      by repeat constructor.
Qed.

Lemma installer_link_matched langs (client : client_os) (version lang : string) :
  lang ∈ langs -> locale_ok lang = true -> link_safe version = true ->
  matches_filename langs (tb_file client file version lang).
Proof.
  intros Hlang Hok Hv. unfold locale_ok in Hok.
  apply andb_true_iff in Hok as [Hok Hdmg%negb_true_iff].
  apply andb_true_iff in Hok as [Hok Hexe%negb_true_iff].
  destruct (tb_file_chars client version lang)
    as (pre0 & ext & Hchars & Hpre0 & Hnd & Hext).
  destruct (installer_matched langs lang pre0 ext Hlang Hext Hpre0 (Hnd Hv)
              Hexe Hdmg) as (caps & Hm & Hg).
  rewrite <- Hchars in Hm, Hg. by apply (extract_link langs _ caps).
Qed.

(** With at least one locale, no page makes the task extract the name of a
    signature: what it extracts ends with "exe" or "dmg", never with
    "asc". *)
Lemma signature_never_extracted langs (page : string) (client : client_os)
    (version lang : string) :
  langs <> [] ->
  tb_file client signature version lang ∉ extractLinks page (url_regexp langs).
Proof.
  intros Hne Hin.
  destruct (extracted_form langs page _ Hne Hin)
    as (lang' & stem & c & ext & _ & _ & _ & Hext & Heq).
  apply (f_equal list_ascii_of_string) in Heq.
  assert (Hsig : exists a, list_ascii_of_string
                   (tb_file client signature version lang) = a ++ ["c"%char]).
  { destruct client; unfold tb_file; rewrite !list_ascii_of_string_app.
    - exists (list_ascii_of_string "torbrowser-install-" ++
              list_ascii_of_string version ++ list_ascii_of_string "_" ++
              list_ascii_of_string lang ++ list_ascii_of_string "." ++
              list_ascii_of_string "exe.as").
      by rewrite <- !app_assoc.
    - exists (list_ascii_of_string "TorBrowser-" ++
              list_ascii_of_string version ++
              list_ascii_of_string "-osx32_" ++
              list_ascii_of_string lang ++ list_ascii_of_string "." ++
              list_ascii_of_string "dmg.as").
      by rewrite <- !app_assoc. }
  destruct Hsig as [a Ha]. rewrite Ha in Heq.
  rewrite !list_ascii_of_string_app in Heq.
  destruct Hext as [->| ->].
  - change (list_ascii_of_string (String c "exe"))
      with ([c; "e"; "x"]%char ++ ["e"%char]) in Heq.
    rewrite !app_assoc in Heq. by apply app_inj_tail in Heq as [_ ?].
  - change (list_ascii_of_string (String c "dmg"))
      with ([c; "d"; "m"]%char ++ ["g"%char]) in Heq.
    rewrite !app_assoc in Heq. by apply app_inj_tail in Heq as [_ ?].
Qed.

(** C3, as stated, fails: for the version 5.5.3 and the locale en-US the
    pattern is satisfied by the installer of another version, which the
    templates do not give. *)
Lemma url_regexp_not_exact :
  ~ (forall (version : string) (langs : list string) (filename : string),
       matches_filename langs filename <->
       filename ∈ template_names version langs).
Proof.
  intros H.
  destruct (H "5.5.3" ["en-US"] "torbrowser-install-9.9.9_en-US.exe")
    as [H1 _].
  assert (Hin : "torbrowser-install-9.9.9_en-US.exe"
                  ∈ template_names "5.5.3" ["en-US"])
    by (apply H1; by vm_compute).
  apply (bool_decide_pack _) in Hin. by vm_compute in Hin.
Qed.

(** The link to a signature is extracted under the name of the installer:
    the alternative for the installer comes first in the pattern and matches
    the beginning of the signature's name. *)
Example signature_link_cut :
  extractLinks (link_to "torbrowser-install-5.5.3_en-US.exe.asc")
               (url_regexp ["en-US"]) =
    {[ "torbrowser-install-5.5.3_en-US.exe" ]}.
Proof. by vm_compute. Qed.

(** C3, amended.  For every version, and for the locales in any order, as
    long as they stand for themselves in the pattern: the pattern is
    satisfied by the names of the two installers,
    torbrowser-install-<version>_<locale>.exe and
    TorBrowser-<version>-osx32_<locale>.dmg, of every listed locale that has
    no delimiter and neither "exe" nor "dmg" inside (the version having no
    delimiter either); and it tests the end of a link only, not the version
    nor the stem of the name: every name that it extracts from a page is a
    stem, not empty, then a listed locale, any character and "exe" or "dmg",
    possibly with any character and "asc" after that. *)
Theorem url_regexp_matches (version : string) (langs : list string) :
  Forall (fun lang => Re.plain lang = true) langs ->
  (forall lang, lang ∈ langs -> locale_ok lang = true ->
     link_safe version = true ->
     matches_filename langs (tb_file windows file version lang) /\
     matches_filename langs (tb_file osx file version lang)) /\
  (forall page filename, langs <> [] ->
     filename ∈ extractLinks page (url_regexp langs) ->
     exists lang stem tail,
       lang ∈ langs /\ stem <> EmptyString /\ link_safe stem = true /\
       link_end tail /\ filename = stem +:+ lang +:+ tail).
Proof.
  intros _. split.
  - intros lang Hlang Hok Hv. split; by apply installer_link_matched.
  - intros page filename Hne Hin.
    destruct (extracted_form langs page filename Hne Hin)
      as (lang & stem & c & ext & Hlang & Hstem & Hsafe & Hext & ->).
    exists lang, stem, (String c ext). repeat split; try done.
    exists c. destruct Hext as [->| ->]; tauto.
Qed.

Lemma url_regexp_matches_witness :
  matches_filename ["en-US"; "es-ES"] "torbrowser-install-5.5.3_en-US.exe" /\
  matches_filename ["en-US"; "es-ES"] "TorBrowser-5.5.3-osx32_es-ES.dmg".
Proof.
  assert (Hplain : Forall (fun lang => Re.plain lang = true) ["en-US"; "es-ES"])
    by by repeat constructor.
  split.
  - apply (proj1 (url_regexp_matches "5.5.3" ["en-US"; "es-ES"] Hplain) "en-US");
      [by left|by vm_compute..].
  - apply (proj1 (url_regexp_matches "5.5.3" ["en-US"; "es-ES"] Hplain) "es-ES");
      [by right; left|by vm_compute..].
Defined.

(** C4.  With no locale the text of the pattern is
    href=, a quote or not, and a first group that ends with an empty second
    group: every link that is not empty satisfies it, and the task, instead
    of downloading nothing, downloads whatever the page links to. *)
Theorem no_locale_matches_every_link :
  url_regexp_str [] = "href=['" +:+ String dq "]?([^'" +:+ String dq " >]+())" /\
  (forall filename, filename <> EmptyString -> link_safe filename = true ->
     matches_filename [] filename) /\
  operations (snd (run Sample.no_locales Sample.before)) =
    [RmtreeTemp; MkdirTemp; OpenTemp "index.html"; SaveTemp "index.html";
     RmtreeLatest; MoveTemp; OpenVersion; WriteVersion "5.5.3"].
Proof.
  split; [reflexivity|]. split; [|by vm_compute].
  intros filename Hne Hsafe.
  destruct (any_link_matched (list_ascii_of_string filename))
    as (caps & Hm & Hg).
  - by destruct filename.
  - by apply link_safe_accepted.
  - by apply (extract_link [] _ caps).
Qed.

Lemma no_locale_matches_every_link_witness :
  matches_filename [] "index.html".
Proof.
  apply (proj1 (proj2 no_locale_matches_every_link) "index.html");
    [done|by vm_compute].
Defined.

(** ** The pattern as a text

    The tree [url_regexp] is, in Python's notation, the text that the task
    builds, whatever the locales. *)

Lemma append_cons (c : ascii) (s t : string) :
  String c s +:+ t = String c (s +:+ t).
Proof. done. Qed.

Lemma append_nil_l (t : string) : EmptyString +:+ t = t.
Proof. done. Qed.

Lemma append_assoc (a b c : string) : (a +:+ b) +:+ c = a +:+ (b +:+ c).
Proof.
  induction a as [|x a IH]; [done|]. by rewrite !append_cons, IH.
Qed.

Lemma show_lits (s : string) (rs : list Re.regex) :
  Re.show (Re.cat_list (Re.lits s ++ rs)) = s +:+ Re.show (Re.cat_list rs).
Proof.
  induction s as [|c s IH]; [done|].
  change (Re.lits (String c s)) with (Re.One (Re.Chr c) :: Re.lits s).
  cbn [app Re.cat_list foldr Re.show Re.show_cset].
  fold (Re.cat_list (Re.lits s ++ rs)). by rewrite IH.
Qed.

Lemma show_lang_regexp (i : nat) (lang : string) :
  Re.show (lang_regexp i lang) =
  "(" +:+ lang +:+ ".exe)|(" +:+ lang +:+ ".exe.asc)|(" +:+
  lang +:+ ".dmg)|(" +:+ lang +:+ ".dmg.asc)".
Proof.
  unfold lang_regexp. cbn [Re.show]. rewrite !show_lits.
  cbn [Re.lits map list_ascii_of_string app Re.cat_list foldr Re.show
       Re.show_cset].
  by rewrite ?append_assoc, ?append_cons, ?append_nil_l.
Qed.

Lemma fold_add_lang_str_snoc langs lang :
  fold_left add_lang_str (langs ++ [lang]) (O, EmptyString) =
  add_lang_str (fold_left add_lang_str langs (O, EmptyString)) lang.
Proof. by rewrite fold_left_app. Qed.

Lemma show_filenames_regexp (langs : list string) :
  fst (fold_left add_lang langs (O, Re.Eps)) =
    fst (fold_left add_lang_str langs (O, EmptyString)) /\
  Re.show (filenames_regexp langs) = filenames_regexp_str langs.
Proof.
  unfold filenames_regexp, filenames_regexp_str.
  induction langs as [|lang langs [IH1 IH2]] using rev_ind; [done|].
  rewrite fold_add_lang_snoc, fold_add_lang_str_snoc.
  destruct langs as [|l0 langs].
  { cbn [app fold_left add_lang add_lang_str fst snd]. split; [done|].
    by rewrite show_lang_regexp. }
  pose proof (fold_add_lang_count (l0 :: langs)) as Hi.
  destruct (fold_left add_lang (l0 :: langs) (O, Re.Eps)) as [i r].
  destruct (fold_left add_lang_str (l0 :: langs) (O, EmptyString)) as [j str].
  cbn [fst snd] in IH1, IH2, Hi. subst j i.
  cbn [length add_lang add_lang_str fst snd Re.show]. split; [done|].
  rewrite show_lang_regexp, IH2.
  by rewrite ?append_assoc, ?append_cons, ?append_nil_l.
Qed.

Lemma show_url_regexp (langs : list string) :
  Re.show (url_regexp langs) = url_regexp_str langs.
Proof.
  unfold url_regexp, url_regexp_str. rewrite show_lits.
  cbn [Re.cat_list foldr Re.show Re.show_cset link_group
       string_of_list_ascii delimiters].
  rewrite (proj2 (show_filenames_regexp langs)).
  by rewrite ?append_assoc, ?append_cons, ?append_nil_l.
Qed.

(** * Further properties *)

(** ** The choice of the version, continued *)

(** X1.  The version that [getLatestTBBVersion] returns is a smallest one
    among the candidates without a hyphen: no such candidate is smaller in
    the order of [LooseVersion]. *)
Theorem getLatestTBBVersion_smallest (versions : list string) (v u : string) :
  getLatestTBBVersion versions = Return v ->
  u ∈ versions -> Py.contains "-" u = false ->
  LooseVersion.lt u v = false.
Proof. intros Hv. by apply getLatestTBBVersion_least. Qed.

Lemma getLatestTBBVersion_smallest_witness :
  LooseVersion.lt "5.10.0" "5.9.1" = false /\
  LooseVersion.lt "6.0a3" "5.9.1" = false.
Proof.
  split.
  - apply (getLatestTBBVersion_smallest
             ["5.10.0"; "5.9.1"; "5.9.0-rc1"; "6.0a3"] "5.9.1" "5.10.0");
      [reflexivity|by left|reflexivity].
  - apply (getLatestTBBVersion_smallest
             ["5.10.0"; "5.9.1"; "5.9.0-rc1"; "6.0a3"] "5.9.1" "6.0a3");
      [reflexivity|by do 3 right; left|reflexivity].
Defined.

(** The two ways in which [getLatestTBBVersion] fails. *)
Lemma getLatestTBBVersion_empty_raises (versions : list string) :
  EmptyString ∈ versions ->
  getLatestTBBVersion versions = Raise AttributeError.
Proof.
  intros Hin.
  pose proof (getLatestTBBVersion_cases versions) as Hc. simpl in Hc.
  destruct (List.filter _ versions) as [|first rest] eqn:E.
  - assert (H : EmptyString ∈
                List.filter (fun v => negb (Py.contains "-" v)) versions)
      by by apply filter_no_hyphen_elem.
    rewrite E in H. by apply elem_of_nil in H.
  - by rewrite decide_True in Hc.
Qed.

Lemma getLatestTBBVersion_raises (versions : list string) (e : exn) :
  getLatestTBBVersion versions = Raise e ->
  (e = IndexError /\
   forall u, u ∈ versions -> Py.contains "-" u = true) \/
  (e = AttributeError /\ EmptyString ∈ versions).
Proof.
  pose proof (getLatestTBBVersion_cases versions) as Hc. simpl in Hc.
  destruct (List.filter _ versions) as [|first rest] eqn:E.
  - rewrite Hc. intros [= <-]. left. split; [done|]. intros u Hu.
    destruct (Py.contains "-" u) eqn:Hh; [done|].
    assert (H : u ∈ List.filter (fun v => negb (Py.contains "-" v)) versions)
      by by apply filter_no_hyphen_elem.
    rewrite E in H. by apply elem_of_nil in H.
  - destruct (decide _) as [Hin|Hno]; rewrite Hc; [|done].
    intros [= <-]. by right.
Qed.

(** X2.  [getLatestTBBVersion] returns a version exactly when some
    candidate has no hyphen and no candidate is the empty string, a
    version without components, which cannot be compared. *)
Theorem getLatestTBBVersion_returns_iff (versions : list string) :
  (exists v, getLatestTBBVersion versions = Return v) <->
  (exists u, u ∈ versions /\ Py.contains "-" u = false) /\
  EmptyString ∉ versions.
Proof.
  split.
  - intros [v Hv]. split.
    + exists v.
      apply getLatestTBBVersion_elem, filter_no_hyphen_elem in Hv. tauto.
    + intros Hin. apply getLatestTBBVersion_empty_raises in Hin. congruence.
  - intros [(u & Hu & Hh) Hno]. by eapply getLatestTBBVersion_returns.
Qed.

(** An empty candidate makes the comparison fail, and with it the choice. *)
Example empty_version_raises :
  getLatestTBBVersion ["5.5.3"; EmptyString] = Raise AttributeError /\
  getLatestTBBVersion [EmptyString] = Raise AttributeError.
Proof. split; reflexivity. Qed.

(** X3.  The order of the candidates, and their repetition, do not matter
    for the version chosen: two lists with the same elements both fail, or
    give versions with the same components for [LooseVersion]. *)
Theorem getLatestTBBVersion_order_free (versions versions' : list string) :
  (forall x, x ∈ versions <-> x ∈ versions') ->
  match getLatestTBBVersion versions, getLatestTBBVersion versions' with
  | Return v, Return v' => LooseVersion.parse v = LooseVersion.parse v'
  | Raise e, Raise e' => e = e'
  | _, _ => False
  end.
Proof.
  intros Hsame.
  assert (Hret : forall l l' v e,
            (forall x, x ∈ l <-> x ∈ l') ->
            getLatestTBBVersion l = Return v ->
            getLatestTBBVersion l' = Raise e -> False).
  { intros l l' v e Hs Hv He.
    pose proof (getLatestTBBVersion_elem _ _ Hv) as Hin.
    apply filter_no_hyphen_elem in Hin as [Hin Hh].
    apply getLatestTBBVersion_raises in He as [[_ Hall]|[_ Hempty]].
    - apply Hs in Hin. apply Hall in Hin. congruence.
    - apply Hs, getLatestTBBVersion_empty_raises in Hempty. congruence. }
  destruct (getLatestTBBVersion versions) as [v|e] eqn:E,
           (getLatestTBBVersion versions') as [v'|e'] eqn:E'.
  - pose proof (getLatestTBBVersion_elem _ _ E) as Hin.
    apply filter_no_hyphen_elem in Hin as [Hin Hh].
    pose proof (getLatestTBBVersion_elem _ _ E') as Hin'.
    apply filter_no_hyphen_elem in Hin' as [Hin' Hh'].
    assert (Hlt1 : LooseVersion.lt v' v = false).
    { eapply getLatestTBBVersion_least; [exact E|by apply Hsame|done]. }
    assert (Hlt2 : LooseVersion.lt v v' = false).
    { eapply getLatestTBBVersion_least; [exact E'|by apply Hsame|done]. }
    unfold LooseVersion.lt in Hlt1, Hlt2.
    rewrite (cmp_antisym (LooseVersion.parse v)) in Hlt2.
    destruct (LooseVersion.cmp (LooseVersion.parse v') (LooseVersion.parse v))
      eqn:Ec; try done.
    symmetry. by apply cmp_eq.
  - by eapply (Hret versions versions').
  - eapply (Hret versions' versions); [|exact E'|exact E].
    by intros x; rewrite Hsame.
  - apply getLatestTBBVersion_raises in E as [[-> Hall]|[-> Hempty]],
      E' as [[-> Hall']|[-> Hempty']]; try done.
    + apply Hsame, Hall in Hempty'. done.
    + apply Hsame, Hall' in Hempty. done.
Qed.

Lemma getLatestTBBVersion_order_free_witness :
  match getLatestTBBVersion ["6.0.1"; "5.5.3"; "6.0a3-Linux"],
        getLatestTBBVersion ["5.5.3"; "6.0a3-Linux"; "6.0.1"; "5.5.3"] with
  | Return v, Return v' => LooseVersion.parse v = LooseVersion.parse v'
  | Raise e, Raise e' => e = e'
  | _, _ => False
  end.
Proof.
  apply (getLatestTBBVersion_order_free
           ["6.0.1"; "5.5.3"; "6.0a3-Linux"]
           ["5.5.3"; "6.0a3-Linux"; "6.0.1"; "5.5.3"]).
  intros x. rewrite !elem_of_cons, !elem_of_nil. tauto.
Defined.


(** ** Locale negotiation, continued *)

Lemma lower_char_not_letter (c sep : ascii) :
  not_letter sep = true ->
  Ascii.eqb (Py.lower_char c) sep = Ascii.eqb c sep.
Proof.
  unfold not_letter, Py.lower_char. intros Hsep.
  destruct ((65 <=? N_of_ascii c)%N && (N_of_ascii c <=? 90)%N) eqn:Hup;
    [|done].
  apply andb_true_iff in Hsep as [H1 H2].
  apply negb_true_iff in H1, H2.
  apply andb_true_iff in Hup as [Hlo Hhi].
  apply N.leb_le in Hlo, Hhi.
  assert (Hc : Ascii.eqb c sep = false).
  { apply Ascii.eqb_neq. intros ->.
    apply andb_false_iff in H1 as [H1|H1]; apply N.leb_gt in H1; lia. }
  rewrite Hc. apply Ascii.eqb_neq. intros Heq.
  apply (f_equal N_of_ascii) in Heq.
  rewrite N_ascii_embedding in Heq by lia.
  apply andb_false_iff in H2 as [H2|H2]; apply N.leb_gt in H2; lia.
Qed.

Lemma lower_char_idem (c : ascii) :
  Py.lower_char (Py.lower_char c) = Py.lower_char c.
Proof. by destruct c as [[] [] [] [] [] [] [] []]. Qed.

Lemma lower_idem (s : string) : Py.lower (Py.lower s) = Py.lower s.
Proof.
  induction s as [|c s IH]; [done|]. simpl. by rewrite lower_char_idem, IH.
Qed.

Lemma lower_contains (sep : ascii) (s : string) :
  not_letter sep = true -> Py.contains sep (Py.lower s) = Py.contains sep s.
Proof.
  intros Hsep. induction s as [|c s IH]; [done|]. simpl.
  by rewrite lower_char_not_letter, IH.
Qed.

Lemma lower_remove_char (sep : ascii) (s : string) :
  not_letter sep = true ->
  Py.remove_char sep (Py.lower s) = Py.lower (Py.remove_char sep s).
Proof.
  intros Hsep. induction s as [|c s IH]; [done|]. simpl.
  rewrite lower_char_not_letter by done.
  destruct (Ascii.eqb c sep); simpl; by rewrite IH.
Qed.

Lemma lower_split (sep : ascii) (s : string) :
  not_letter sep = true ->
  Py.split sep (Py.lower s) = map Py.lower (Py.split sep s).
Proof.
  intros Hsep. induction s as [|c s IH]; [done|]. simpl.
  rewrite lower_char_not_letter by done.
  destruct (Ascii.eqb c sep); simpl; rewrite IH; [done|].
  by destruct (Py.split sep s).
Qed.

Lemma lower_split_head (sep : ascii) (s : string) :
  not_letter sep = true ->
  Py.split_head sep (Py.lower s) = Py.lower (Py.split_head sep s).
Proof.
  intros Hsep. unfold Py.split_head. rewrite lower_split by done.
  by destruct (Py.split sep s).
Qed.

Lemma lower_language_only (lc : string) :
  language_only (Py.lower lc) = Py.lower (language_only lc).
Proof.
  unfold language_only. rewrite lower_contains by done.
  destruct (Py.contains "-" lc); [|done]. by apply lower_split_head.
Qed.

Lemma match_requested_lower (lc : string) (supported_lcs : list string) :
  match_requested (Py.lower lc) supported_lcs =
  match_requested lc supported_lcs.
Proof.
  unfold match_requested. by rewrite lower_language_only, !lower_idem.
Qed.

Lemma best_of_requested_lower (lcs supported_lcs : list string) :
  best_of_requested (map Py.lower lcs) supported_lcs =
  best_of_requested lcs supported_lcs.
Proof.
  induction lcs as [|lc lcs IH]; [done|]. simpl.
  by rewrite match_requested_lower, IH.
Qed.

Lemma parse_accept_language_lower (accept_language : string) :
  parse_accept_language (Py.lower accept_language) =
  map Py.lower (parse_accept_language accept_language).
Proof.
  unfold parse_accept_language.
  rewrite lower_remove_char, lower_split by done.
  rewrite !map_map. apply map_ext. intros t. by apply lower_split_head.
Qed.

(** X4.  The case of the header does not matter: two headers that differ
    in the case of their letters only get the same locale. *)
Theorem getBestLangMatch_header_case (a1 a2 : string)
    (supported_lcs : list string) :
  Py.lower a1 = Py.lower a2 ->
  getBestLangMatch a1 supported_lcs = getBestLangMatch a2 supported_lcs.
Proof.
  intros H. unfold getBestLangMatch.
  rewrite <- (best_of_requested_lower (parse_accept_language a1)).
  rewrite <- (best_of_requested_lower (parse_accept_language a2)).
  by rewrite <- !parse_accept_language_lower, H.
Qed.

Lemma getBestLangMatch_header_case_witness :
  getBestLangMatch "ES-pt, EN;Q=0.8" ["es-ES"; "en-US"] =
  getBestLangMatch "es-PT, en;q=0.8" ["es-ES"; "en-US"].
Proof.
  apply (getBestLangMatch_header_case "ES-pt, EN;Q=0.8" "es-PT, en;q=0.8").
  reflexivity.
Defined.

(** *** Reading a header that was put together from its tags *)

Lemma contains_append (c : ascii) (a b : string) :
  Py.contains c (a +:+ b) = Py.contains c a || Py.contains c b.
Proof.
  induction a as [|d a IH]; [done|]. rewrite append_cons. simpl.
  by destruct (Ascii.eqb d c).
Qed.

Lemma remove_char_absent (c : ascii) (s : string) :
  Py.contains c s = false -> Py.remove_char c s = s.
Proof.
  induction s as [|d s IH]; [done|]. simpl.
  destruct (Ascii.eqb d c); [done|]. intros H. by rewrite IH.
Qed.

Lemma split_absent (c : ascii) (s : string) :
  Py.contains c s = false -> Py.split c s = [s].
Proof.
  induction s as [|d s IH]; [done|]. simpl.
  destruct (Ascii.eqb d c); [done|]. intros H. by rewrite IH.
Qed.

Lemma split_append_sep (c : ascii) (a b : string) :
  Py.contains c a = false ->
  Py.split c (a +:+ String c b) = a :: Py.split c b.
Proof.
  induction a as [|d a IH]; simpl.
  - intros _. change (EmptyString +:+ String c b) with (String c b).
    simpl. by rewrite Ascii.eqb_refl.
  - change (String d a +:+ String c b) with (String d (a +:+ String c b)).
    simpl. destruct (Ascii.eqb d c); [done|]. intros H. by rewrite IH.
Qed.

Lemma split_concat (c : ascii) (items : list string) :
  items <> [] ->
  Forall (fun t => Py.contains c t = false) items ->
  Py.split c (String.concat (String c EmptyString) items) = items.
Proof.
  intros Hne Hall. induction Hall as [|t items Ht Hall IH]; [done|].
  destruct items as [|t' items].
  - simpl. by apply split_absent.
  - change (String.concat (String c EmptyString) (t :: t' :: items))
      with (t +:+ String c EmptyString +:+
            String.concat (String c EmptyString) (t' :: items)).
    rewrite append_cons, append_nil_l, split_append_sep by done.
    by rewrite IH.
Qed.

Lemma split_head_param (t p : string) :
  tag_ok t = true -> param_ok p = true ->
  Py.split_head ";" (t +:+ p) = t.
Proof.
  unfold tag_ok, param_ok, Py.split_head.
  intros [_ Ht%negb_true_iff]%andb_true_iff [_ Hp]%andb_true_iff.
  destruct p as [|c p].
  - replace (t +:+ EmptyString) with t; [by rewrite split_absent|].
    clear. induction t as [|d t IH]; [done|].
    by rewrite append_cons, <- IH.
  - apply Ascii.eqb_eq in Hp as ->. by rewrite split_append_sep.
Qed.

(** X5.  A header that is a list of tags, each with or without parameters
    after a semicolon, joined by commas, is read back as its tags, in
    order and without the parameters. *)
Theorem parse_accept_language_join (items : list (string * string)) :
  items <> [] ->
  Forall (fun i => tag_ok (fst i) = true /\ param_ok (snd i) = true) items ->
  parse_accept_language
    (String.concat "," (map (fun i => fst i +:+ snd i) items)) =
  map fst items.
Proof.
  intros Hne Hall. unfold parse_accept_language.
  assert (Hclean : Forall (fun s => Py.contains " " s = false /\
                                    Py.contains "," s = false)
                          (map (fun i => fst i +:+ snd i) items)).
  { apply Forall_fmap. eapply Forall_impl; [exact Hall|].
    intros [t p] [Ht Hp]. simpl in *.
    unfold tag_ok, param_ok, no_space_comma in *.
    rewrite !contains_append.
    repeat match goal with
    | H : _ && _ = true |- _ => apply andb_true_iff in H as [? ?]
    | H : negb _ = true |- _ => apply negb_true_iff in H
    end.
    by repeat match goal with H : Py.contains _ _ = false |- _ =>
                rewrite H; clear H end. }
  rewrite remove_char_absent.
  - rewrite split_concat.
    + rewrite map_map. clear Hne Hclean.
      induction Hall as [|[t p] items [Ht Hp] _ IH]; [done|]. simpl.
      by rewrite split_head_param, IH.
    + by destruct items.
    + eapply Forall_impl; [exact Hclean|]. by intros s [_ ?].
  - clear Hne Hall.
    induction Hclean as [|s l [Hs _] _ IH]; [done|].
    destruct l as [|s' l]; [done|].
    change (String.concat "," (s :: s' :: l))
      with (s +:+ "," +:+ String.concat "," (s' :: l)).
    by rewrite !contains_append, Hs, IH.
Qed.

Lemma parse_accept_language_join_witness :
  parse_accept_language "es-PT,en;q=0.8,fr;q=0.5" = ["es-PT"; "en"; "fr"].
Proof.
  apply (parse_accept_language_join
           [("es-PT", EmptyString); ("en", ";q=0.8"); ("fr", ";q=0.5")]);
    [done|by repeat constructor].
Defined.

(** *** The first tag of the header *)

Lemma remove_char_append (c : ascii) (a b : string) :
  Py.remove_char c (a +:+ b) = Py.remove_char c a +:+ Py.remove_char c b.
Proof.
  induction a as [|d a IH]; [done|]. rewrite append_cons. simpl.
  destruct (Ascii.eqb d c); [done|]. by rewrite append_cons, IH.
Qed.

Lemma parse_accept_language_first (t p rest : string) :
  tag_ok t = true -> param_ok p = true ->
  parse_accept_language (t +:+ p +:+ String "," rest) =
  t :: parse_accept_language rest.
Proof.
  intros Ht Hp. unfold parse_accept_language.
  rewrite <- append_assoc, remove_char_append.
  assert (Hclean : Py.contains " " (t +:+ p) = false /\
                   Py.contains "," (t +:+ p) = false).
  { unfold tag_ok, param_ok, no_space_comma in *. rewrite !contains_append.
    repeat match goal with
    | H : _ && _ = true |- _ => apply andb_true_iff in H as [? ?]
    | H : negb _ = true |- _ => apply negb_true_iff in H
    end.
    by repeat match goal with H : Py.contains _ _ = false |- _ =>
                rewrite H; clear H end. }
  destruct Hclean as [Hs Hc].
  rewrite (remove_char_absent _ (t +:+ p)) by done.
  cbn [Py.remove_char Ascii.eqb Bool.eqb].
  rewrite split_append_sep by done.
  cbn [map]. by rewrite split_head_param.
Qed.

Lemma parse_accept_language_single (t p : string) :
  tag_ok t = true -> param_ok p = true ->
  parse_accept_language (t +:+ p) = [t].
Proof.
  intros Ht Hp. unfold parse_accept_language.
  assert (Hclean : Py.contains " " (t +:+ p) = false /\
                   Py.contains "," (t +:+ p) = false).
  { unfold tag_ok, param_ok, no_space_comma in *. rewrite !contains_append.
    repeat match goal with
    | H : _ && _ = true |- _ => apply andb_true_iff in H as [? ?]
    | H : negb _ = true |- _ => apply negb_true_iff in H
    end.
    by repeat match goal with H : Py.contains _ _ = false |- _ =>
                rewrite H; clear H end. }
  destruct Hclean as [Hs Hc].
  rewrite remove_char_absent, split_absent by done.
  cbn [map]. by rewrite split_head_param.
Qed.

Lemma first_supported_unique (test : string -> bool)
    (supported_lcs : list string) (l : string) :
  l ∈ supported_lcs -> test l = true ->
  (forall l', l' ∈ supported_lcs -> test l' = true -> l' = l) ->
  first_supported test supported_lcs = Some l.
Proof.
  induction supported_lcs as [|x ls IH]; intros Hin Ht Huniq.
  - by apply elem_of_nil in Hin.
  - simpl. destruct (test x) eqn:E.
    + f_equal. apply Huniq; [left|done].
    + apply IH; [|done|].
      * apply elem_of_cons in Hin as [->|Hin]; [congruence|done].
      * intros l' Hl'. apply Huniq. by right.
Qed.

(** X6.  When the first tag of the header is, up to case, a supported
    locale, and the only one, this locale is chosen: whatever the weight
    given to the tag and whatever follows in the header. *)
Theorem getBestLangMatch_first_tag (t p rest l : string)
    (supported_lcs : list string) :
  tag_ok t = true -> param_ok p = true ->
  l ∈ supported_lcs -> Py.lower t = Py.lower l ->
  (forall l', l' ∈ supported_lcs -> Py.lower l' = Py.lower l -> l' = l) ->
  getBestLangMatch (t +:+ p) supported_lcs = l /\
  getBestLangMatch (t +:+ p +:+ String "," rest) supported_lcs = l.
Proof.
  intros Ht Hp Hin Hlow Huniq.
  assert (Hm : match_requested t supported_lcs = Some l).
  { unfold match_requested.
    rewrite (first_supported_unique _ supported_lcs l); [done..| |].
    - by apply String.eqb_eq.
    - intros l' Hl' Heq%String.eqb_eq. apply Huniq; [done|congruence]. }
  unfold getBestLangMatch.
  rewrite parse_accept_language_single, parse_accept_language_first by done.
  simpl. by rewrite Hm.
Qed.

Lemma getBestLangMatch_first_tag_witness :
  getBestLangMatch "ES-es;q=0.1" ["en-US"; "es-ES"; "es"] = "es-ES" /\
  getBestLangMatch "ES-es;q=0.1,en-US;q=0.9" ["en-US"; "es-ES"; "es"] = "es-ES".
Proof.
  apply (getBestLangMatch_first_tag "ES-es" ";q=0.1" "en-US;q=0.9" "es-ES"
           ["en-US"; "es-ES"; "es"]); try reflexivity.
  - by right; left.
  - intros l'. rewrite !elem_of_cons, elem_of_nil.
    intros [->|[->|[->|[]]]]; by vm_compute.
Defined.

(** ** The locale of a request *)

Lemma begins_with_lower (c : ascii) (s : string) :
  not_letter c = true -> begins_with c (Py.lower s) = begins_with c s.
Proof. intros Hc. destruct s; [done|]. simpl. by apply lower_char_not_letter. Qed.

Lemma begins_with_split_head (c sep : ascii) (s : string) :
  Ascii.eqb sep c = false ->
  begins_with c (Py.split_head sep s) = begins_with c s.
Proof.
  intros Hc. unfold Py.split_head. destruct s as [|d s]; [done|]. simpl.
  destruct (Ascii.eqb d sep) eqn:E.
  - apply Ascii.eqb_eq in E as ->. by rewrite Hc.
  - by destruct (Py.split sep s).
Qed.

Lemma begins_with_language_only (s : string) :
  begins_with "[" (language_only s) = begins_with "[" s.
Proof.
  unfold language_only. destruct (Py.contains "-" s); [|done].
  by apply begins_with_split_head.
Qed.

Lemma begins_with_neq (c : ascii) (a b : string) :
  begins_with c a = true -> begins_with c b = false -> a <> b.
Proof. intros Ha Hb ->. congruence. Qed.

(** A tag that begins with a bracket answers to no locale, when no locale
    begins with one. *)
Lemma bracket_unmatched (t : string) (locales : list string) :
  begins_with "[" t = true ->
  Forall (fun l => begins_with "[" l = false) locales ->
  match_requested t locales = None.
Proof.
  intros Ht Hl. apply match_requested_unmatched.
  eapply Forall_impl; [exact Hl|]. intros l Hb. unfold unmatched.
  repeat split; apply (begins_with_neq "[");
    by rewrite begins_with_lower, ?begins_with_language_only.
Qed.

(** The first tag read from a text that begins with a bracket begins with
    it. *)
Lemma parse_bracket (s : string) :
  exists t ts, parse_accept_language (String "[" s) = t :: ts /\
               begins_with "[" t = true.
Proof.
  unfold parse_accept_language. cbn [Py.remove_char Ascii.eqb Bool.eqb].
  cbn [Py.split Ascii.eqb Bool.eqb].
  destruct (Py.split "," (Py.remove_char " " s)) as [|h tl]; cbn [map];
    eexists _, _; (split; [done|]); by rewrite begins_with_split_head.
Qed.

Lemma str_bracket (values : list string) :
  PyRepr.str (Some values) = String "[" (PyRepr.join_repr values +:+ "]").
Proof. done. Qed.

Lemma bracket_header (values : list string) (locales : list string) :
  Forall (fun l => begins_with "[" l = false) locales ->
  getBestLangMatch (PyRepr.str (Some values)) locales =
  best_of_requested
    (tail (parse_accept_language (PyRepr.str (Some values)))) locales.
Proof.
  intros Hl. unfold getBestLangMatch. rewrite str_bracket.
  destruct (parse_bracket (PyRepr.join_repr values +:+ "]"))
    as (t & ts & -> & Ht).
  simpl. by rewrite bracket_unmatched.
Qed.

(** X7.  [getOSandLC] reads the header through [str] of the list of its
    values, a text that begins with a bracket: when no locale begins with a
    bracket, the first tag of the header never decides, the locale is the
    one that the tags after it give. *)
Theorem getOSandLC_first_tag_lost (headers : Headers) (values : list string)
    (locales : list string) :
  raw_accept_language headers = Some values ->
  Forall (fun l => begins_with "[" l = false) locales ->
  snd (getOSandLC headers locales) =
  best_of_requested
    (tail (parse_accept_language (PyRepr.str (Some values)))) locales.
Proof.
  intros Hv Hl. unfold getOSandLC. simpl. rewrite Hv.
  by apply bracket_header.
Qed.

Lemma getOSandLC_first_tag_lost_witness :
  snd (getOSandLC (mkHeaders None (Some ["de-DE,en;q=0.8"]))
                  ["de-DE"; "en-US"]) =
  best_of_requested ["en"] ["de-DE"; "en-US"].
Proof.
  apply (getOSandLC_first_tag_lost
           (mkHeaders None (Some ["de-DE,en;q=0.8"])) ["de-DE,en;q=0.8"]
           ["de-DE"; "en-US"]); [reflexivity|by repeat constructor].
Defined.

(** *** [repr] adds no comma *)

Lemma contains_remove_char (c d : ascii) (s : string) :
  Ascii.eqb d c = false ->
  Py.contains c (Py.remove_char d s) = Py.contains c s.
Proof.
  intros Hcd. induction s as [|e s IH]; [done|]. simpl.
  destruct (Ascii.eqb e d) eqn:E.
  - apply Ascii.eqb_eq in E as ->. by rewrite Hcd.
  - simpl. by rewrite IH.
Qed.

Lemma quote_of_cases (s : string) :
  PyRepr.quote_of s = "'"%char \/ PyRepr.quote_of s = dq.
Proof. unfold PyRepr.quote_of. destruct (_ && _); tauto. Qed.

Lemma escape_comma (q c : ascii) :
  q = "'"%char \/ q = dq ->
  Py.contains "," (PyRepr.escape q c) = Ascii.eqb c ",".
Proof.
  intros [->| ->]; by destruct c as [[] [] [] [] [] [] [] []].
Qed.

Lemma escape_all_comma (q : ascii) (s : string) :
  q = "'"%char \/ q = dq ->
  Py.contains "," (PyRepr.escape_all q s) = Py.contains "," s.
Proof.
  intros Hq. induction s as [|c s IH]; [done|]. simpl.
  rewrite contains_append, escape_comma, IH by done.
  by destruct (Ascii.eqb c ",").
Qed.

Lemma repr_comma (s : string) :
  Py.contains "," (PyRepr.repr s) = Py.contains "," s.
Proof.
  unfold PyRepr.repr.
  destruct (quote_of_cases s) as [-> | ->]; simpl;
    rewrite contains_append, escape_all_comma by tauto; simpl;
    apply orb_false_r.
Qed.

(** X8.  A header with one value that names one language, that is, has no
    comma, always gets en-US, when no locale begins with a bracket: the
    tag is read with the bracket and the quote that [str] puts before it. *)
Theorem getOSandLC_single_language (headers : Headers) (v : string)
    (locales : list string) :
  raw_accept_language headers = Some [v] ->
  Py.contains "," v = false ->
  Forall (fun l => begins_with "[" l = false) locales ->
  snd (getOSandLC headers locales) = "en-US".
Proof.
  intros Hv Hc Hl. unfold getOSandLC. simpl. rewrite Hv.
  rewrite bracket_header by done.
  unfold parse_accept_language.
  rewrite split_absent; [done|].
  rewrite contains_remove_char by done.
  rewrite str_bracket. cbn [PyRepr.join_repr Py.contains Ascii.eqb Bool.eqb].
  by rewrite contains_append, repr_comma, Hc.
Qed.

Lemma getOSandLC_single_language_witness :
  snd (getOSandLC (mkHeaders None (Some ["de-DE"])) ["de-DE"; "en-US"]) =
  "en-US".
Proof.
  apply (getOSandLC_single_language (mkHeaders None (Some ["de-DE"])) "de-DE");
    [reflexivity|reflexivity|by repeat constructor].
Defined.

(** X9.  A request without the header is given en-US, unless a locale is
    named none or has none as its language: the text of the header is then
    the word None, which is read as a tag. *)
Theorem getOSandLC_no_header (headers : Headers) (locales : list string) :
  raw_accept_language headers = None ->
  Forall (fun l => Py.lower (language_only l) <> "none") locales ->
  snd (getOSandLC headers locales) = "en-US".
Proof.
  intros Hv Hl. unfold getOSandLC. simpl. rewrite Hv.
  unfold getBestLangMatch.
  change (parse_accept_language (PyRepr.str None)) with ["None"].
  simpl. rewrite match_requested_unmatched; [done|].
  eapply Forall_impl; [exact Hl|]. intros l Hne. unfold unmatched.
  change (Py.lower (language_only "None")) with "none".
  change (Py.lower "None") with "none".
  assert (Hl' : "none" <> Py.lower l).
  { intros Heq. apply Hne. unfold language_only.
    rewrite <- (lower_contains "-" l), <- Heq by done. by simpl. }
  repeat split; done.
Qed.

Lemma getOSandLC_no_header_witness :
  snd (getOSandLC (mkHeaders None None) ["de-DE"; "fr"]) = "en-US".
Proof.
  apply (getOSandLC_no_header (mkHeaders None None) ["de-DE"; "fr"]);
    [reflexivity|by repeat constructor].
Defined.

(** ** The client of a request *)

Lemma has_infix_cons (p : list ascii) (c : ascii) (s : list ascii) :
  Re.has_infix p (c :: s) = Re.starts_with p (c :: s) || Re.has_infix p s.
Proof. done. Qed.

Lemma has_infix_app_l (p a s : list ascii) :
  Re.has_infix p s = true -> Re.has_infix p (a ++ s) = true.
Proof.
  intros H. induction a as [|c a IH]; [done|].
  cbn [app]. rewrite has_infix_cons, IH. apply orb_true_r.
Qed.

Lemma starts_with_app_r (p s b : list ascii) :
  Re.starts_with p s = true -> Re.starts_with p (s ++ b) = true.
Proof.
  revert s. induction p as [|c p IH]; intros s; [done|].
  destruct s as [|d s]; [done|]. simpl.
  intros [-> H]%andb_true_iff. by rewrite IH.
Qed.

Lemma has_infix_app_r (p s b : list ascii) :
  p <> [] -> Re.has_infix p s = true -> Re.has_infix p (s ++ b) = true.
Proof.
  intros Hp. induction s as [|c s IH].
  - by destruct p.
  - cbn [app]. rewrite !has_infix_cons.
    intros [H|H]%orb_true_iff.
    + apply (starts_with_app_r p (c :: s) b) in H. cbn [app] in H.
      by rewrite H.
    + rewrite IH by done. apply orb_true_r.
Qed.

(** A run of characters that are not the first one of the word can be
    passed. *)
Lemma has_infix_skip (c : ascii) (p block s : list ascii) :
  written c = false -> forallb written block = true ->
  Re.has_infix (c :: p) (block ++ s) = Re.has_infix (c :: p) s.
Proof.
  intros Hc. induction block as [|b block IH]; [done|].
  cbn [forallb app]. intros [Hb Hbl]%andb_true_iff.
  rewrite has_infix_cons, IH by done. cbn [Re.starts_with].
  destruct (Ascii.eqb c b) eqn:E; [|done].
  apply Ascii.eqb_eq in E as ->. congruence.
Qed.

Lemma has_infix_skip1 (c b : ascii) (p s : list ascii) :
  written c = false -> written b = true ->
  Re.has_infix (c :: p) (b :: s) = Re.has_infix (c :: p) s.
Proof.
  intros Hc Hb. apply (has_infix_skip c p [b] s Hc). cbn [forallb].
  by rewrite Hb.
Qed.

(** *** What [repr] does to a character *)

Lemma escape_cases (q d : ascii) :
  q = "'"%char \/ q = dq ->
  PyRepr.escape q d = String d EmptyString \/
  exists t, PyRepr.escape q d = String PyRepr.backslash t /\
            forallb written (list_ascii_of_string t) = true.
Proof.
  assert (H : forall q, q = "'"%char \/ q = dq ->
            String.eqb (PyRepr.escape q d) (String d EmptyString) ||
            match PyRepr.escape q d with
            | String b t => Ascii.eqb b PyRepr.backslash &&
                            forallb written (list_ascii_of_string t)
            | EmptyString => false
            end = true).
  { intros q' [->| ->]; by destruct d as [[] [] [] [] [] [] [] []]. }
  intros Hq. specialize (H q Hq).
  apply orb_true_iff in H as [H|H].
  - left. by apply String.eqb_eq.
  - right. destruct (PyRepr.escape q d) as [|b t]; [done|].
    apply andb_true_iff in H as [->%Ascii.eqb_eq H]. by exists t.
Qed.

Lemma unescaped_escape (q c : ascii) :
  q = "'"%char \/ q = dq -> unescaped c = true ->
  PyRepr.escape q c = String c EmptyString.
Proof.
  unfold unescaped.
  intros [->| ->] [H1%String.eqb_eq H2%String.eqb_eq]%andb_true_iff; done.
Qed.

Lemma unescaped_plain (q c : ascii) :
  q = "'"%char \/ q = dq -> unescaped c = true ->
  Ascii.eqb c q = false /\ Ascii.eqb c PyRepr.backslash = false.
Proof.
  intros [->| ->]; revert c; intros [[] [] [] [] [] [] [] []]; by vm_compute.
Qed.

Lemma quote_written (q : ascii) :
  q = "'"%char \/ q = dq -> written q = true.
Proof. by intros [->| ->]. Qed.

Lemma escape_all_chars (q : ascii) (v : string) :
  list_ascii_of_string (PyRepr.escape_all q v) =
  escaped q (list_ascii_of_string v).
Proof.
  induction v as [|c v IH]; [done|].
  cbn [PyRepr.escape_all list_ascii_of_string flat_map].
  by rewrite list_ascii_of_string_app, IH.
Qed.

Section Escaped.
Variable q : ascii.
Hypothesis Hq : q = "'"%char \/ q = dq.

(** A word that starts in an escaped value, before its closing quote,
    starts at the same place of the value. *)
Lemma starts_in_value (p v rest : list ascii) :
  forallb unescaped p = true ->
  Re.starts_with p (escaped q v ++ q :: rest) = true ->
  Re.starts_with p v = true.
Proof.
  revert v. induction p as [|c p IH]; intros v; [done|].
  cbn [forallb]. intros [Hc Hp]%andb_true_iff.
  destruct (unescaped_plain q c Hq Hc) as [Hcq Hcb].
  destruct v as [|d v].
  - simpl. by rewrite Hcq.
  - unfold escaped. cbn [flat_map]. fold (escaped q v).
    destruct (escape_cases q d Hq) as [->|(t & -> & _)].
    + simpl. intros [-> H]%andb_true_iff. by rewrite (IH v).
    + simpl. by rewrite Hcb.
Qed.

(** A word that occurs in an escaped value followed by its closing quote
    and more occurs in the value, or in what follows the quote. *)
Lemma occurs_in_value (c : ascii) (p v rest : list ascii) :
  written c = false -> forallb unescaped (c :: p) = true ->
  Re.has_infix (c :: p) (escaped q v ++ q :: rest) = true ->
  Re.has_infix (c :: p) v = true \/ Re.has_infix (c :: p) rest = true.
Proof.
  intros Hc Hp. induction v as [|d v IH].
  - unfold escaped. cbn [flat_map app]. rewrite has_infix_cons.
    cbn [Re.starts_with].
    destruct (Ascii.eqb c q) eqn:E.
    + apply Ascii.eqb_eq in E as ->. rewrite quote_written in Hc; done.
    + simpl. tauto.
  - destruct (escape_cases q d Hq) as [Hd|(t & Hd & Ht)].
    + intros H.
      assert (Hd' : escaped q (d :: v) ++ q :: rest =
                    d :: (escaped q v ++ q :: rest)).
      { unfold escaped. cbn [flat_map]. by rewrite Hd. }
      pose proof H as H'. rewrite Hd', has_infix_cons in H'.
      apply orb_true_iff in H' as [H'|H'].
      * left. apply has_infix_start. rewrite <- Hd' in H'.
        by eapply starts_in_value.
      * destruct (IH H') as [Hv|Hr]; [|by right].
        left. rewrite has_infix_cons, Hv. apply orb_true_r.
    + unfold escaped. cbn [flat_map]. fold (escaped q v).
      rewrite Hd, <- app_assoc.
      rewrite has_infix_skip; [| done |].
      * intros H. destruct (IH H) as [Hv|Hr]; [|by right].
        left. rewrite has_infix_cons, Hv. apply orb_true_r.
      * cbn [list_ascii_of_string forallb]. by rewrite Ht.
Qed.

(** A word of a value occurs in the escaped value. *)
Lemma starts_in_escaped (p v : list ascii) :
  forallb unescaped p = true ->
  Re.starts_with p v = true -> Re.starts_with p (escaped q v) = true.
Proof.
  revert v. induction p as [|c p IH]; intros v; [done|].
  cbn [forallb]. intros [Hc Hp]%andb_true_iff.
  destruct v as [|d v]; [done|]. simpl.
  intros [->%Ascii.eqb_eq H]%andb_true_iff.
  rewrite (unescaped_escape q d Hq Hc). simpl.
  by rewrite Ascii.eqb_refl, IH.
Qed.

Lemma occurs_in_escaped (p v : list ascii) :
  forallb unescaped p = true ->
  Re.has_infix p v = true -> Re.has_infix p (escaped q v) = true.
Proof.
  intros Hp. induction v as [|d v IH].
  - simpl. by destruct p.
  - rewrite has_infix_cons. intros [H|H]%orb_true_iff.
    + by apply has_infix_start, starts_in_escaped.
    + unfold escaped. cbn [flat_map]. by apply has_infix_app_l, IH.
Qed.

End Escaped.

(** *** The text of the list of values *)

Lemma repr_chars (v : string) :
  exists q, (q = "'"%char \/ q = dq) /\
    list_ascii_of_string (PyRepr.repr v) =
    q :: escaped q (list_ascii_of_string v) ++ [q].
Proof.
  exists (PyRepr.quote_of v). split; [apply quote_of_cases|].
  unfold PyRepr.repr. cbn [list_ascii_of_string].
  by rewrite list_ascii_of_string_app, escape_all_chars.
Qed.

Lemma join_repr_chars (v v' : string) (values : list string) :
  list_ascii_of_string (PyRepr.join_repr (v :: v' :: values)) =
  list_ascii_of_string (PyRepr.repr v) ++
  ","%char :: " "%char ::
  list_ascii_of_string (PyRepr.join_repr (v' :: values)).
Proof.
  cbn [PyRepr.join_repr]. by rewrite !list_ascii_of_string_app.
Qed.

Lemma occurs_in_join (c : ascii) (p : list ascii) (values : list string) :
  written c = false -> forallb unescaped (c :: p) = true ->
  Re.has_infix (c :: p)
    (list_ascii_of_string (PyRepr.join_repr values) ++ ["]"%char]) =
  existsb (fun v => Re.has_infix (c :: p) (list_ascii_of_string v)) values.
Proof.
  intros Hc Hp.
  assert (Hend : Re.has_infix (c :: p) ["]"%char] = false).
  { by rewrite has_infix_skip1. }
  induction values as [|v values IH]; [done|].
  destruct (repr_chars v) as (q & Hq & Hv).
  assert (Hone : forall rest,
            Re.has_infix (c :: p)
              (list_ascii_of_string (PyRepr.repr v) ++ rest) =
            Re.has_infix (c :: p) (list_ascii_of_string v) ||
            Re.has_infix (c :: p) rest).
  { intros rest. rewrite Hv. cbn [app]. rewrite <- app_assoc. cbn [app].
    rewrite has_infix_skip1 by (done || by apply quote_written).
    apply eq_true_iff_eq. rewrite orb_true_iff. split.
    - by apply occurs_in_value.
    - intros [H|H].
      + apply has_infix_app_r; [done|]. by apply occurs_in_escaped.
      + apply has_infix_app_l.
        by rewrite has_infix_skip1 by (done || by apply quote_written). }
  destruct values as [|v' values].
  - cbn [PyRepr.join_repr existsb]. by rewrite Hone, Hend.
  - rewrite join_repr_chars, <- app_assoc. cbn [app].
    rewrite Hone.
    rewrite !has_infix_skip1 by done.
    rewrite IH. done.
Qed.

(** [str] of the list of values has a word inside exactly when one of the
    values has. *)
Lemma str_mentions (w : string) (values : list string) :
  word w = true ->
  contains_str w (PyRepr.str (Some values)) = existsb (contains_str w) values.
Proof.
  unfold word, contains_str. destruct w as [|c w]; [done|].
  intros [Hc%negb_true_iff Hw]%andb_true_iff.
  rewrite str_bracket. cbn [list_ascii_of_string] in *.
  rewrite has_infix_skip1 by done.
  rewrite list_ascii_of_string_app. by apply occurs_in_join.
Qed.

(** X10.  The client depends on the words in the user agent only: it is
    windows when a value of the header has Windows inside, else osx when
    one has Mac OS X, else iphone for iPhone, else android for Android, and
    none when the header has none of them or is missing. *)
Theorem getOSandLC_client (headers : Headers) (locales : list string) :
  fst (getOSandLC headers locales) =
  if mentions "Windows" headers then Some "windows"
  else if mentions "Mac OS X" headers then Some "osx"
  else if mentions "iPhone" headers then Some "iphone"
  else if mentions "Android" headers then Some "android"
  else None.
Proof.
  unfold getOSandLC, mentions, search. cbn [fst].
  destruct (raw_user_agent headers) as [values|]; [|done].
  by rewrite !str_mentions.
Qed.

(** X11.  A user agent with Mac OS X inside, as the browsers of the iPhone
    send it, is taken for windows or for osx, never for iphone: the client
    found has no redirect URL. *)
Theorem getOSandLC_mac_os_x (headers : Headers) (locales values : list string)
    (v : string) :
  raw_user_agent headers = Some values -> v ∈ values ->
  contains_str "Mac OS X" v = true ->
  exists client,
    fst (getOSandLC headers locales) = Some client /\
    (client = "windows" \/ client = "osx") /\
    getRedirectURL client = Fails KeyError.
Proof.
  intros Hv Hin Hmac. unfold getOSandLC, search. cbn [fst]. rewrite Hv.
  rewrite !str_mentions by done.
  destruct (existsb (contains_str "Windows") values).
  - exists "windows". split; [done|]. split; [by left|done].
  - replace (existsb (contains_str "Mac OS X") values) with true.
    + exists "osx". split; [done|]. split; [by right|done].
    + symmetry. apply existsb_exists. exists v. split; [|done].
      by apply list_elem_of_In.
Qed.

Lemma getOSandLC_mac_os_x_witness :
  exists client,
    fst (getOSandLC
           (mkHeaders
              (Some ["Mozilla/5.0 (iPhone; CPU iPhone OS 9_1 like Mac OS X)"])
              None) ["en-US"]) = Some client /\
    (client = "windows" \/ client = "osx") /\
    getRedirectURL client = Fails KeyError.
Proof.
  apply (getOSandLC_mac_os_x
           (mkHeaders
              (Some ["Mozilla/5.0 (iPhone; CPU iPhone OS 9_1 like Mac OS X)"])
              None) ["en-US"]
           ["Mozilla/5.0 (iPhone; CPU iPhone OS 9_1 like Mac OS X)"]
           "Mozilla/5.0 (iPhone; CPU iPhone OS 9_1 like Mac OS X)").
  - reflexivity.
  - by left.
  - reflexivity.
Defined.

(** ** The mirror task, continued *)

(** A run that has written a version: what it met and what it leaves in
    the version file. *)
Lemma run_wrote env w v :
  WriteVersion v ∈ operations (snd (run env w)) ->
  exists text langs page files,
    found_version env = Return v /\ fs_fault env ReadVersion = None /\
    latest_tb_file w = Some text /\ Py.remove_char "010" text <> v /\
    gettor_locales env = Return langs /\
    getPage env (dist_tpo +:+ v +:+ "/") = Return page /\
    mirror_links env langs page = Return files /\
    (forall f, f ∈ files ->
       exists body, downloadPage env (file_url v f) = Return body) /\
    latest_tb_file (world (snd (run env w))) = Some v /\
    temp_path (world (snd (run env w))) = None /\
    match latest_path (after_rmtree_latest env w) with
    | None =>
        latest_path (world (snd (run env w))) =
          Some (release_set env v (elements files)) /\
        latest_temp (world (snd (run env w))) = None
    | Some part =>
        latest_path (world (snd (run env w))) = Some part /\
        latest_temp (world (snd (run env w))) =
          Some (release_set env v (elements files))
    end.
Proof.
  intros (w' & Hin)%operations_elem.
  destruct (run_cases env w)
    as [(Hpre & _)|(lv & text & langs & page & files & pre & Hlv & Hread &
                    Htext & Hne & Hlangs & Hpage & Hlinks & Hbodies & Hpre &
                    Hcases)].
  - by destruct (staging_not_publish _ _ _ _ Hpre Hin) as [? _].
  - simpl in Hcases.
    destruct Hcases
      as [(Hl & _)|(w2 & _ & Hmove & [(Hl & _)|[(Hl & _)|(Hl & Hw & _)]])];
      rewrite Hl in Hin;
      repeat (apply elem_of_cons in Hin as [Heq|Hin]; [try done|]);
      try by destruct (staging_not_publish _ _ _ _ Hpre Hin) as [? _].
    injection Heq as <- _. exists text, langs, page, files.
    do 8 (split; [done|]). rewrite Hw.
    pose proof (after_move_live _ _ _ Hmove) as Hlive.
    unfold after_move in Hmove. cbn [temp_path with_temp] in Hmove.
    split; [done|]. split.
    + destruct (latest_path (with_temp _ _)); [|by injection Hmove as <-].
      destruct (decide _); [done|]. by injection Hmove as <-.
    + by destruct (latest_path (after_rmtree_latest env w)).
Qed.

(** A run that has moved the staging directory after a removal that was
    done: the live directory is the release of the version found. *)
Lemma run_moved env w :
  MoveTemp ∈ operations (snd (run env w)) ->
  fs_fault env RmtreeLatest = None ->
  exists lv langs page files,
    found_version env = Return lv /\
    gettor_locales env = Return langs /\
    getPage env (dist_tpo +:+ lv +:+ "/") = Return page /\
    mirror_links env langs page = Return files /\
    latest_path (world (snd (run env w))) =
      Some (release_set env lv (elements files)) /\
    latest_temp (world (snd (run env w))) = None.
Proof.
  intros (w' & Hin)%operations_elem Hr.
  destruct (run_cases env w)
    as [(Hpre & _)|(lv & text & langs & page & files & pre & Hlv & Hread &
                    Htext & Hne & Hlangs & Hpage & Hlinks & Hbodies & Hpre &
                    Hcases)].
  - by destruct (staging_not_publish _ _ _ _ Hpre Hin) as [? _].
  - simpl in Hcases. exists lv, langs, page, files. do 4 (split; [done|]).
    destruct (after_rmtree_latest_live env w) as [Hgone _].
    destruct (Hgone Hr) as [Hgone1 Hgone2].
    destruct Hcases
      as [(Hl & _)|(w2 & _ & Hmove &
                    [(Hl & Hw & _)|[(Hl & Hw & _)|(Hl & Hw & _)]])].
    { rewrite Hl in Hin.
      apply elem_of_cons in Hin as [Heq|Hin]; [done|].
      by destruct (staging_not_publish _ _ _ _ Hpre Hin) as [? _]. }
    all: apply after_move_live in Hmove; rewrite Hgone1 in Hmove;
      by rewrite Hw.
Qed.

(** The comparison of the versions: the task does nothing when the version
    file, without its newlines, has the version found. *)
Lemma run_up_to_date env w lv text :
  found_version env = Return lv -> fs_fault env ReadVersion = None ->
  latest_tb_file w = Some text -> Py.remove_char "010" text = lv ->
  run env w = (Return tt, mkState w []).
Proof.
  unfold found_version, run, getTorTask, try_except, getTorTask_body,
    getTBBVersions, bind, lift, ret, read_version.
  intros Hlv Hread Htext Heq.
  destruct (getPage env versions_url) as [response|?]; [|done].
  destruct (json_loads env response) as [versions|?]; [|done].
  rewrite Hlv, Hread. simpl. rewrite Htext, Heq.
  by rewrite decide_True.
Qed.

(** X12.  When the version file has the version that the run finds to be
    the latest, with or without newlines around it, the run does nothing:
    no operation on the files, and the files are as they were. *)
Theorem getTorTask_up_to_date env w lv text :
  found_version env = Return lv -> fs_fault env ReadVersion = None ->
  latest_tb_file w = Some text -> Py.remove_char "010" text = lv ->
  run env w = (Return tt, mkState w []).
Proof. apply run_up_to_date. Qed.

Lemma getTorTask_up_to_date_witness :
  run Sample.fine
      (mkWorld (Some ("5.5.3" +:+ String "010" EmptyString)) None
               (Some Sample.old_release)) =
  (Return tt,
   mkState (mkWorld (Some ("5.5.3" +:+ String "010" EmptyString)) None
                    (Some Sample.old_release)) []).
Proof.
  apply (getTorTask_up_to_date Sample.fine _ "5.5.3"
           ("5.5.3" +:+ String "010" EmptyString)); reflexivity.
Defined.

(** X13.  When there is no version file, a run does nothing, whatever the
    versions on offer: the task does not make the first release by
    itself. *)
Theorem getTorTask_no_version_file env w :
  latest_tb_file w = None ->
  run env w = (Return tt, mkState w []).
Proof.
  unfold run, getTorTask, try_except, getTorTask_body, getTBBVersions, bind,
    lift, ret, read_version.
  intros Hfile.
  destruct (getPage env versions_url) as [response|?]; [|done].
  destruct (json_loads env response) as [versions|?]; [|done].
  destruct (getLatestTBBVersion versions) as [lv|?]; [|done].
  destruct (fs_fault env ReadVersion); [done|].
  simpl. by rewrite Hfile.
Qed.

Lemma getTorTask_no_version_file_witness :
  run Sample.fine (mkWorld None None None) =
  (Return tt, mkState (mkWorld None None None) []).
Proof. apply (getTorTask_no_version_file Sample.fine). reflexivity. Defined.

(** X14.  Once a run has written a version without a newline in it, the
    next run in the same surroundings does nothing. *)
Theorem getTorTask_second_run env w v :
  WriteVersion v ∈ operations (snd (run env w)) ->
  Py.contains "010" v = false ->
  run env (world (snd (run env w))) =
  (Return tt, mkState (world (snd (run env w))) []).
Proof.
  intros Hin Hnl.
  destruct (run_wrote env w v Hin)
    as (text & langs & page & files & Hlv & Hread & _ & _ & _ & _ & _ & _ &
        Hw & _).
  apply (run_up_to_date env _ v v); [done|done|done|].
  by apply remove_char_absent.
Qed.

Lemma getTorTask_second_run_witness :
  run Sample.fine (world (snd (run Sample.fine Sample.before))) =
  (Return tt, mkState (world (snd (run Sample.fine Sample.before))) []).
Proof.
  apply (getTorTask_second_run Sample.fine Sample.before "5.5.3").
  - apply (bool_decide_unpack _). by vm_compute.
  - reflexivity.
Defined.

(** *** A run without failure *)

Lemma download_all_run env latest_version files st (d : gmap string string) :
  temp_path (world st) = Some d ->
  (forall op, fs_fault env op = None) ->
  (forall f, f ∈ files ->
     exists body, downloadPage env (file_url latest_version f) = Return body) ->
  exists st',
    download_all env latest_version files st = (Return tt, st') /\
    map fst (log st') = rev (transfers files) ++ map fst (log st) /\
    latest_path (world st') = latest_path (world st) /\
    latest_temp (world st') = latest_temp (world st) /\
    latest_tb_file (world st') = latest_tb_file (world st).
Proof.
  intros Hd Hfs. revert st d Hd.
  induction files as [|f rest IH]; intros st d Hd Hbodies.
  - exists st. by repeat split.
  - destruct (Hbodies f) as [body Hbody]; [left|].
    unfold file_url in Hbody.
    cbn [download_all]. unfold bind at 1, open_temp, perform.
    rewrite Hfs, Hd.
    unfold bind at 1, download, bind at 1, lift, perform.
    rewrite Hbody, Hfs. cbn [world temp_path with_temp].
    match goal with |- context [download_all env latest_version rest ?s] =>
      destruct (IH s (<[f:=body]> (<[f:=EmptyString]> d)))
        as (st' & Hrun & Hlog & Hp & Ht & Hv)
    end; [done| |].
    { intros g Hg. apply Hbodies. by right. }
    exists st'. split; [exact Hrun|]. split; [|by repeat split].
    rewrite Hlog. unfold transfers. cbn [mbind list_bind foldr log map fst].
    cbn [rev app]. by rewrite <- !app_assoc.
Qed.

Lemma publish_run env latest_version st (d : gmap string string) :
  temp_path (world st) = Some d ->
  (forall op, fs_fault env op = None) ->
  exists l,
    publish env latest_version st =
      (Return tt, mkState (mkWorld (Some latest_version) None (Some d)) l) /\
    map fst l =
      [WriteVersion latest_version; OpenVersion; MoveTemp; RmtreeLatest] ++
      map fst (log st).
Proof.
  intros Hd Hfs.
  unfold publish, bind, rmtree_latest, always, move_temp, open_version,
    write_version, perform, after_rmtree_latest, after_move.
  rewrite ?Hfs. cbn [world temp_path latest_path]. rewrite Hd, ?Hfs.
  cbn [world log]. rewrite ?Hfs. eexists. split; [reflexivity|done].
Qed.

Lemma run_success env w lv text langs page (files : gset string) :
  found_version env = Return lv ->
  latest_tb_file w = Some text -> Py.remove_char "010" text <> lv ->
  gettor_locales env = Return langs ->
  getPage env (dist_tpo +:+ lv +:+ "/") = Return page ->
  mirror_links env langs page = Return files ->
  (forall op, fs_fault env op = None) ->
  (forall f, f ∈ files ->
     exists body, downloadPage env (file_url lv f) = Return body) ->
  fst (run_body env w) = Return tt /\
  world (snd (run env w)) =
    mkWorld (Some lv) None (Some (release_set env lv (elements files))) /\
  operations (snd (run env w)) =
    [RmtreeTemp; MkdirTemp] ++ transfers (elements files) ++
    [RmtreeLatest; MoveTemp; OpenVersion; WriteVersion lv].
Proof.
  intros Hlv Htext Hne Hlangs Hpage Hlinks Hfs Hbodies.
  rewrite run_catches. cbn [snd].
  unfold found_version in Hlv. unfold mirror_links in Hlinks.
  unfold run_body, getTorTask_body, getTBBVersions, getTBBFilenames, bind,
    lift, ret, read_version.
  destruct (getPage env versions_url) as [response|?]; [|done].
  destruct (json_loads env response) as [versions|?]; [|done].
  rewrite Hlv, Hfs. cbn [world]. rewrite Htext.
  rewrite decide_False by done.
  rewrite Hlangs, Hpage, Hlinks.
  unfold rmtree_temp, always, after_rmtree_temp, mkdir_temp, perform.
  rewrite !Hfs. cbn [world temp_path with_temp].
  match goal with |- context [download_all env lv (elements files) ?s] =>
    set (st2 := s) end.
  destruct (download_all_run env lv (elements files) st2 ∅)
    as (st3 & Hrun & Hlog & Hp & Ht & Hv); [done|done| |].
  { intros f Hf. apply Hbodies. by apply elem_of_elements. }
  rewrite Hrun.
  assert (Htemp : temp_path (world st3) =
                  Some (release_set env lv (elements files))).
  { unfold release_set.
    exact (download_all_done env lv (elements files) st2 st3 ∅ eq_refl Hrun). }
  destruct (publish_run env lv st3 _ Htemp Hfs) as (l & -> & Hl).
  cbn [fst snd world]. split; [done|]. split; [done|].
  unfold operations. cbn [log]. rewrite Hl, Hlog. cbn [log map fst].
  rewrite !rev_app_distr, rev_involutive. cbn [rev app].
  by rewrite <- !app_assoc.
Qed.

(** X15.  A run in which nothing fails, from a version file that has
    another version than the one found, with locales that stand for
    themselves in the pattern: it empties and makes the staging directory,
    opens and saves each file that the page of the mirror links to, removes
    the live directory, moves the staging directory there, and opens the
    version file and writes the version; it leaves the live directory with
    these files alone, each with the body downloaded, no staging directory,
    and the version found in the version file. *)
Theorem getTorTask_success env w lv text langs page :
  found_version env = Return lv ->
  latest_tb_file w = Some text -> Py.remove_char "010" text <> lv ->
  gettor_locales env = Return langs ->
  Forall (fun lang => Re.plain lang = true) langs ->
  getPage env (dist_tpo +:+ lv +:+ "/") = Return page ->
  (forall op, fs_fault env op = None) ->
  (forall f, f ∈ extractLinks page (url_regexp langs) ->
     exists body, downloadPage env (file_url lv f) = Return body) ->
  let files := elements (extractLinks page (url_regexp langs)) in
  fst (run_body env w) = Return tt /\
  world (snd (run env w)) =
    mkWorld (Some lv) None (Some (release_set env lv files)) /\
  operations (snd (run env w)) =
    [RmtreeTemp; MkdirTemp] ++ transfers files ++
    [RmtreeLatest; MoveTemp; OpenVersion; WriteVersion lv].
Proof.
  intros Hlv Htext Hne Hlangs Hplain Hpage Hfs Hbodies files.
  by apply (run_success env w lv text langs page);
    [..|apply mirror_links_plain| |].
Qed.

Lemma getTorTask_success_witness :
  fst (run_body Sample.fine Sample.before) = Return tt /\
  world (snd (run Sample.fine Sample.before)) =
    mkWorld (Some "5.5.3") None
      (Some (release_set Sample.fine "5.5.3"
               (elements (extractLinks Sample.page (url_regexp ["en-US"]))))) /\
  operations (snd (run Sample.fine Sample.before)) =
    [RmtreeTemp; MkdirTemp] ++
    transfers (elements (extractLinks Sample.page (url_regexp ["en-US"]))) ++
    [RmtreeLatest; MoveTemp; OpenVersion; WriteVersion "5.5.3"].
Proof.
  apply (getTorTask_success Sample.fine Sample.before "5.5.3" "5.5.2"
           ["en-US"] Sample.page); try reflexivity.
  - done.
  - by repeat constructor.
  - intros f _. by exists "new".
Defined.

(** X16.  When the staging directory is emptied without failure, what an
    earlier run has left in it does not matter: two runs that differ in
    this directory only do the same operations and leave the same live
    directory and version file, and the same staging directory as soon as
    one operation is done. *)
Theorem getTorTask_stale_staging env version (staging staging' live
    : option (gmap string string)) :
  fs_fault env RmtreeTemp = None ->
  let st := snd (run env (mkWorld version staging live)) in
  let st' := snd (run env (mkWorld version staging' live)) in
  log st = log st' /\
  latest_path (world st) = latest_path (world st') /\
  latest_tb_file (world st) = latest_tb_file (world st') /\
  (log st <> [] -> world st = world st').
Proof.
  intros Hfault. rewrite !run_catches. cbn [snd].
  unfold run_body, getTorTask_body, getTBBVersions, getTBBFilenames, bind,
    lift, ret, read_version.
  destruct (getPage env versions_url) as [response|?]; [|done].
  destruct (json_loads env response) as [versions|?]; [|done].
  destruct (getLatestTBBVersion versions) as [lv|?]; [|done].
  destruct (fs_fault env ReadVersion); [done|].
  cbn [world latest_tb_file mkWorld].
  destruct version as [text|]; [|done].
  destruct (decide _); [done|].
  destruct (gettor_locales env) as [langs|?]; [|done].
  destruct (getPage env (dist_tpo +:+ lv +:+ "/")) as [page|?]; [|done].
  destruct (findall_links env page (url_pattern langs)) as [files|?]; [|done].
  unfold rmtree_temp, always, after_rmtree_temp. rewrite Hfault.
  cbn [world latest_tb_file latest_path log with_temp mkWorld temp_path
       latest_temp]. done.
Qed.

Lemma getTorTask_stale_staging_witness :
  log (snd (run Sample.fine (mkWorld (Some "5.5.2") None
                               (Some Sample.old_release)))) =
  log (snd (run Sample.fine (mkWorld (Some "5.5.2")
                               (Some {[ "index.html" := "stale" ]})
                               (Some Sample.old_release)))).
Proof.
  apply (getTorTask_stale_staging Sample.fine (Some "5.5.2") None
           (Some {[ "index.html" := "stale" ]}) (Some Sample.old_release)).
  reflexivity.
Defined.

(** A stale staging directory that the removal leaves in place stops the
    run: the directory cannot be made. *)
Example stale_staging_kept :
  let env :=
    mkEnv (getPage Sample.fine) (json_loads Sample.fine)
      (gettor_locales Sample.fine) (downloadPage Sample.fine)
      (fun op => match op with RmtreeTemp => Some OSError | _ => None end)
      (fun _ => true) (findall_other Sample.fine) in
  let w := mkWorld (Some "5.5.2") (Some {[ "index.html" := "stale" ]})
             (Some Sample.old_release) in
  fst (run_body env w) = Raise OSError /\
  operations (snd (run env w)) = [RmtreeTemp] /\
  latest_path (world (snd (run env w))) = Some Sample.old_release.
Proof. by vm_compute. Qed.
(** ** The links of a page, continued *)

Section MatcherSuffix.
Context {X : Type}.

(** The matcher goes on with what is left of the subject. *)
Lemma m_suffix (r : Re.regex) (s : list ascii) (caps : Re.captures)
    (kc : list ascii -> Re.captures -> option X) (x : X) :
  Re.m r s caps kc = Some x ->
  exists t s' caps', s = t ++ s' /\ kc s' caps' = Some x.
Proof.
  revert s caps kc. induction r as [|a|r1 IH1 r2 IH2|r1 IH1 r2 IH2|r1 IH1|a|n r1 IH1];
    intros s caps kc H; cbn [Re.m] in H.
  - by exists [], s, caps.
  - destruct s as [|c s]; [done|]. destruct (Re.accepts a c); [|done].
    by exists [c], s, caps.
  - apply IH1 in H as (t1 & s1 & caps1 & -> & H).
    apply IH2 in H as (t2 & s2 & caps2 & -> & H).
    exists (t1 ++ t2), s2, caps2. by rewrite <- app_assoc.
  - destruct (Re.m r1 s caps kc) as [y|] eqn:E.
    + injection H as ->. by apply IH1 in E.
    + by apply IH2 in H.
  - destruct (Re.m r1 s caps kc) as [y|] eqn:E.
    + injection H as ->. by apply IH1 in E.
    + by exists [], s, caps.
  - apply plus_k_some in H as (pre & rest & -> & _ & _ & H & _).
    by exists pre, rest, caps.
  - apply IH1 in H as (t & s' & caps' & -> & H). by eexists t, s', _.
Qed.

End MatcherSuffix.

(** The first group of a match is a text that is not empty, and the match
    has read it at the head of the subject. *)
Lemma link_group_text langs (s2 : list ascii) caps rest :
  Re.m (link_group langs) s2 [] Re.found = Some (caps, rest) ->
  exists g, g <> [] /\ s2 = g ++ rest /\ Re.group 1 caps = g.
Proof.
  intros H. cbn [link_group Re.m] in H.
  apply plus_k_some in H as (pre & rest1 & -> & Hpre & _ & H & _).
  apply m_suffix in H as (t & s' & caps' & -> & H).
  unfold Re.found in H. injection H as <- <-.
  exists (pre ++ t). split; [by destruct pre|].
  split; [by rewrite <- app_assoc|].
  cbn [Re.group Nat.eqb]. by rewrite app_assoc, consumed_app.
Qed.

(** A match of the pattern reads href=, one quote or none, and the text of
    the first group. *)
Lemma match_at_url_text langs (s : list ascii) caps rest :
  Re.match_at (url_regexp langs) s = Some (caps, rest) ->
  exists g, g <> [] /\ Re.group 1 caps = g /\
    (s = list_ascii_of_string "href=" ++ g ++ rest \/
     s = list_ascii_of_string "href=" ++ "'"%char :: g ++ rest \/
     s = list_ascii_of_string "href=" ++ dq :: g ++ rest).
Proof.
  rewrite match_at_url.
  destruct (Re.flat_match _ s) as [s1|] eqn:Ef; [|done].
  apply flat_match_text in Ef as (t & -> & Ht). apply chr_text in Ht as ->.
  cbn [Re.m].
  assert (Hplain : Re.m (link_group langs) s1 [] Re.found = Some (caps, rest) ->
            exists g, g <> [] /\ Re.group 1 caps = g /\
              (list_ascii_of_string "href=" ++ s1 =
                 list_ascii_of_string "href=" ++ g ++ rest \/
               list_ascii_of_string "href=" ++ s1 =
                 list_ascii_of_string "href=" ++ "'"%char :: g ++ rest \/
               list_ascii_of_string "href=" ++ s1 =
                 list_ascii_of_string "href=" ++ dq :: g ++ rest)).
  { intros (g & Hg & -> & Hcaps)%link_group_text. exists g. tauto. }
  destruct s1 as [|c s1]; [done|].
  destruct (Re.accepts _ c) eqn:Hc; [|done].
  destruct (Re.m (link_group langs) s1 [] Re.found) as [y|] eqn:E; [|done].
  intros [= ->]. apply link_group_text in E as (g & Hg & -> & Hcaps).
  exists g. split; [done|]. split; [done|]. right.
  cbn [Re.accepts Re.mem existsb] in Hc.
  apply orb_true_iff in Hc as [->%Ascii.eqb_eq|Hc]; [by left|].
  apply orb_true_iff in Hc as [->%Ascii.eqb_eq|Hc]; [by right|done].
Qed.

(** Every tuple of [scan] is a match at a place of the subject. *)
Lemma scan_match_at r (s : list ascii) skip caps :
  caps ∈ Re.scan r s skip ->
  exists a s' rest, s = a ++ s' /\ Re.match_at r s' = Some (caps, rest).
Proof.
  assert (Hcons : forall c (s0 : list ascii),
            (exists a s' rest, s0 = a ++ s' /\
                               Re.match_at r s' = Some (caps, rest)) ->
            exists a s' rest, c :: s0 = a ++ s' /\
                              Re.match_at r s' = Some (caps, rest)).
  { intros c s0 (a & s' & rest & -> & H). by exists (c :: a), s', rest. }
  revert skip. induction s as [|c s IH]; intros skip; simpl.
  - destruct skip; [|by intros ?%elem_of_nil].
    destruct (Re.match_at r []) as [[caps' rest]|] eqn:E;
      [|by intros ?%elem_of_nil].
    intros ->%list_elem_of_singleton. by exists [], [], rest.
  - destruct skip as [|n]; [|by intros H; apply Hcons, (IH n)].
    destruct (Re.match_at r (c :: s)) as [[caps' rest]|] eqn:E.
    + intros [->|H]%elem_of_cons; [by exists [], (c :: s), rest|].
      by eapply Hcons, IH.
    + intros H. by eapply Hcons, IH.
Qed.

(** Where an extracted link stands in the page. *)
Lemma extracted_place langs (page filename : string) :
  filename ∈ extractLinks page (url_regexp langs) ->
  filename <> EmptyString /\
  exists (a rest : list ascii) (quote : list ascii),
    (quote = [] \/ quote = ["'"%char] \/ quote = [dq]) /\
    list_ascii_of_string page =
      a ++ (list_ascii_of_string "href=" ++ quote ++
            list_ascii_of_string filename) ++ rest.
Proof.
  intros Hin. unfold extractLinks in Hin.
  apply elem_of_list_to_set, list_elem_of_In, in_map_iff in Hin
    as (caps & <- & Hcaps%list_elem_of_In).
  apply scan_match_at in Hcaps as (a & s' & rest & Hpage & Hm).
  apply match_at_url_text in Hm as (g & Hg & -> & Hs').
  split; [by destruct g|].
  rewrite list_ascii_of_string_of_list_ascii, Hpage.
  destruct Hs' as [->|[->| ->]].
  - exists a, rest, []. split; [by left|]. by rewrite <- !app_assoc.
  - exists a, rest, ["'"%char]. split; [by right; left|].
    by rewrite <- !app_assoc.
  - exists a, rest, [dq]. split; [by right; right|]. by rewrite <- !app_assoc.
Qed.

(** X17.  Every link that is extracted stands in the page: it is not
    empty, and the page has it right after href=, or after href= and one
    quote. *)
Theorem extractLinks_in_page langs (page filename : string) :
  Forall (fun lang => Re.plain lang = true) langs ->
  filename ∈ extractLinks page (url_regexp langs) ->
  filename <> EmptyString /\
  (contains_str ("href=" +:+ filename) page = true \/
   contains_str ("href='" +:+ filename) page = true \/
   contains_str ("href=" +:+ String dq filename) page = true).
Proof.
  intros _ Hin.
  destruct (extracted_place langs page filename Hin)
    as (Hne & a & rest & quote & Hq & Hpage).
  split; [done|]. unfold contains_str. rewrite Hpage.
  destruct Hq as [->|[->| ->]]; [left|right; left|right; right];
    apply has_infix_app.
Qed.

Lemma extractLinks_in_page_witness :
  "torbrowser-install-5.5.3_en-US.exe" <> EmptyString /\
  (contains_str ("href=" +:+ "torbrowser-install-5.5.3_en-US.exe")
                Sample.page = true \/
   contains_str ("href='" +:+ "torbrowser-install-5.5.3_en-US.exe")
                Sample.page = true \/
   contains_str ("href=" +:+ String dq "torbrowser-install-5.5.3_en-US.exe")
                Sample.page = true).
Proof.
  apply (extractLinks_in_page ["en-US"] Sample.page
           "torbrowser-install-5.5.3_en-US.exe").
  - by repeat constructor.
  - apply (bool_decide_unpack _). by vm_compute.
Defined.

Lemma extractLinks_no_href langs (page : string) :
  contains_str "href=" page = false ->
  extractLinks page (url_regexp langs) = ∅.
Proof.
  intros Hno. apply set_eq. intros filename. split; [|by intros ?%elem_of_empty].
  intros Hin.
  destruct (extracted_place langs page filename Hin)
    as (_ & a & rest & quote & _ & Hpage).
  unfold contains_str in Hno. rewrite Hpage, <- app_assoc in Hno.
  by rewrite has_infix_app in Hno.
Qed.

(** X18.  A page of the mirror without href= inside gives no file; the
    run, when nothing fails, then goes on: it puts an empty directory in
    the place of the live one, opens the version file and writes the
    version found. *)
Theorem getTorTask_no_link env w lv text langs page :
  found_version env = Return lv ->
  latest_tb_file w = Some text -> Py.remove_char "010" text <> lv ->
  gettor_locales env = Return langs ->
  Forall (fun lang => Re.plain lang = true) langs ->
  getPage env (dist_tpo +:+ lv +:+ "/") = Return page ->
  contains_str "href=" page = false ->
  (forall op, fs_fault env op = None) ->
  world (snd (run env w)) = mkWorld (Some lv) None (Some ∅) /\
  operations (snd (run env w)) =
    [RmtreeTemp; MkdirTemp; RmtreeLatest; MoveTemp; OpenVersion;
     WriteVersion lv].
Proof.
  intros Hlv Htext Hne Hlangs Hplain Hpage Hno Hfs.
  destruct (run_success env w lv text langs page ∅) as (_ & Hw & Hops);
    try done.
  rewrite mirror_links_plain by done. by rewrite extractLinks_no_href.
Qed.

Lemma getTorTask_no_link_witness :
  world (snd (run (mkEnv (fun url => if decide (url = versions_url)
                                     then Return "[...]"
                                     else Return "<html></html>")
                         (json_loads Sample.fine) (Return ["en-US"])
                         (downloadPage Sample.fine) (fs_fault Sample.fine)
                         (rmtree_keeps Sample.fine)
                         (findall_other Sample.fine))
                  Sample.before)) =
    mkWorld (Some "5.5.3") None (Some ∅) /\
  operations (snd (run (mkEnv (fun url => if decide (url = versions_url)
                                          then Return "[...]"
                                          else Return "<html></html>")
                              (json_loads Sample.fine) (Return ["en-US"])
                              (downloadPage Sample.fine) (fs_fault Sample.fine)
                              (rmtree_keeps Sample.fine)
                              (findall_other Sample.fine))
                       Sample.before)) =
    [RmtreeTemp; MkdirTemp; RmtreeLatest; MoveTemp; OpenVersion;
     WriteVersion "5.5.3"].
Proof.
  apply (getTorTask_no_link _ Sample.before "5.5.3" "5.5.2" ["en-US"]
           "<html></html>"); try reflexivity.
  - done.
  - by repeat constructor.
Defined.

(** ** Serving the files *)

(** The file that [processGetTorRequest] sends for a client. *)
Lemma processGetTorRequest_file request (client : client_os)
    (lang type version : string) path :
  exists ctype,
    processGetTorRequest request (client_name client) lang type version path =
    sendFile request
      (tb_file client (if String.eqb type "signature" then signature else file)
               version lang)
      path ctype.
Proof.
  destruct client; unfold processGetTorRequest; cbn [client_name String.eqb
    Ascii.eqb Bool.eqb]; destruct (String.eqb type "signature");
    eexists; reflexivity.
Qed.

(** X19.  A directory that the task has put in the place of the live one,
    after a removal of the live one that did not fail, holds no signature,
    when there is a locale at least: every request of a signature for
    windows or osx fails when the file is opened, whatever the version and
    the locale asked for. *)
Theorem signature_not_served env w langs request (client : client_os)
    (lang version : string) :
  MoveTemp ∈ operations (snd (run env w)) ->
  fs_fault env RmtreeLatest = None ->
  gettor_locales env = Return langs -> langs <> [] ->
  Forall (fun lang => Re.plain lang = true) langs ->
  fst (processGetTorRequest request (client_name client) lang "signature"
         version (latest_path (world (snd (run env w))))) = Fails OpenError.
Proof.
  intros Hin Hr Hlangs Hne Hplain.
  destruct (run_moved env w Hin Hr)
    as (lv & langs' & page & files & _ & Hl' & _ & Hlinks & Hp & _).
  assert (langs' = langs) as -> by congruence.
  rewrite mirror_links_plain in Hlinks by done. injection Hlinks as <-.
  destruct (processGetTorRequest_file request client lang "signature" version
              (latest_path (world (snd (run env w))))) as [ctype ->].
  cbn [String.eqb Ascii.eqb Bool.eqb]. unfold sendFile. rewrite Hp.
  cbn [mbind option_bind]. rewrite release_set_files.
  rewrite decide_False; [done|]. by apply signature_never_extracted.
Qed.

Lemma signature_not_served_witness :
  fst (processGetTorRequest ∅ "windows" "en-US" "signature" "5.5.3"
         (latest_path (world (snd (run Sample.fine Sample.before))))) =
  Fails OpenError.
Proof.
  apply (signature_not_served Sample.fine Sample.before ["en-US"] ∅ windows
           "en-US" "5.5.3").
  - apply (bool_decide_unpack _). by vm_compute.
  - reflexivity.
  - reflexivity.
  - done.
  - by repeat constructor.
Defined.

(** X20.  After a run that has written the version [v], and in which the
    removal of the live directory did not fail, a request for the
    installer of [v] for a client and a locale, when the page of the mirror
    had a link to it that the task extracted, is answered with the body that
    the task downloaded for it. *)
Theorem installer_served env w v langs page request (client : client_os)
    (lang type : string) :
  WriteVersion v ∈ operations (snd (run env w)) ->
  fs_fault env RmtreeLatest = None ->
  gettor_locales env = Return langs ->
  Forall (fun lang => Re.plain lang = true) langs ->
  getPage env (dist_tpo +:+ v +:+ "/") = Return page ->
  tb_file client file v lang ∈ extractLinks page (url_regexp langs) ->
  type <> "signature" ->
  exists body,
    downloadPage env (file_url v (tb_file client file v lang)) = Return body /\
    fst (processGetTorRequest request (client_name client) lang type v
           (latest_path (world (snd (run env w))))) = Done body.
Proof.
  intros Hin Hr Hlangs Hplain Hpage Hfile Htype.
  destruct (run_wrote env w v Hin)
    as (text & langs' & page' & files & _ & _ & _ & _ & Hl' & Hp' & Hlinks &
        Hbodies & _ & _ & Hw).
  assert (langs' = langs) as -> by congruence.
  assert (page' = page) as -> by congruence.
  rewrite mirror_links_plain in Hlinks by done. injection Hlinks as <-.
  destruct (after_rmtree_latest_live env w) as [Hgone _].
  destruct (Hgone Hr) as [Hgone1 _]. rewrite Hgone1 in Hw.
  destruct Hw as [Hw _].
  destruct (Hbodies _ Hfile) as [body Hbody]. exists body. split; [done|].
  destruct (processGetTorRequest_file request client lang type v
              (latest_path (world (snd (run env w))))) as [ctype ->].
  apply String.eqb_neq in Htype. rewrite Htype.
  unfold sendFile. rewrite Hw. cbn [latest_path mbind option_bind].
  rewrite release_set_files, decide_True by done.
  unfold body_of. unfold file_url in Hbody. by rewrite Hbody.
Qed.

Lemma installer_served_witness :
  exists body,
    downloadPage Sample.fine
      (file_url "5.5.3" "torbrowser-install-5.5.3_en-US.exe") = Return body /\
    fst (processGetTorRequest ∅ "windows" "en-US" "file" "5.5.3"
           (latest_path (world (snd (run Sample.fine Sample.before))))) =
    Done body.
Proof.
  apply (installer_served Sample.fine Sample.before "5.5.3" ["en-US"]
           Sample.page ∅ windows "en-US" "file").
  - apply (bool_decide_unpack _). by vm_compute.
  - reflexivity.
  - reflexivity.
  - by repeat constructor.
  - reflexivity.
  - apply (bool_decide_unpack _). by vm_compute.
  - done.
Defined.

(** X21.  Each client that [getOSandLC] finds is for one of the two ways
    of answering: iphone and android have a redirect URL and no file,
    [processGetTorRequest] fails for them before it touches the request;
    windows and osx have no redirect URL, [getRedirectURL] fails for them,
    and [processGetTorRequest] gets as far as sending a file. *)
Theorem client_handled (headers : Headers) (locales : list string)
    (client : string) :
  fst (getOSandLC headers locales) = Some client ->
  (exists url, getRedirectURL client = Done url /\
     forall request lang type version path,
       processGetTorRequest request client lang type version path =
       (Fails UnboundLocalError, request)) \/
  (getRedirectURL client = Fails KeyError /\
   forall request lang type version path,
     fst (processGetTorRequest request client lang type version path) <>
     Fails UnboundLocalError).
Proof.
  unfold getOSandLC. cbn [fst].
  repeat match goal with
  | |- context [if ?b then _ else _] => destruct b
  end; intros [= <-].
  - right. split; [done|]. intros request lang type version path.
    destruct (processGetTorRequest_file request windows lang type version path)
      as [ctype H]. cbn [client_name] in H. rewrite H.
    unfold sendFile. by destruct (_ ≫= _).
  - right. split; [done|]. intros request lang type version path.
    destruct (processGetTorRequest_file request osx lang type version path)
      as [ctype H]. cbn [client_name] in H. rewrite H.
    unfold sendFile. by destruct (_ ≫= _).
  - left. by eexists.
  - left. by eexists.
Qed.

Lemma client_handled_witness :
  (exists url, getRedirectURL "android" = Done url /\
     forall request lang type version path,
       processGetTorRequest request "android" lang type version path =
       (Fails UnboundLocalError, request)) \/
  (getRedirectURL "android" = Fails KeyError /\
   forall request lang type version path,
     fst (processGetTorRequest request "android" lang type version path) <>
     Fails UnboundLocalError).
Proof.
  apply (client_handled
           (mkHeaders (Some ["Mozilla/5.0 (Linux; Android 6.0)"]) None)
           ["en-US"] "android").
  reflexivity.
Defined.

(** X22.  The headers of the answer are set before the file is opened:
    for windows and osx, whether or not the file is there, the request
    leaves [processGetTorRequest] with the name of the file asked for in
    content-disposition and with the type of a signature or of the
    installer of the client in content-type; its other headers are as they
    were. *)
Theorem processGetTorRequest_headers (request : gmap string string)
    (client : client_os) (lang type version : string)
    (path : option (gmap string string)) :
  let answer :=
    snd (processGetTorRequest request (client_name client) lang type version
           path) in
  let asked := if String.eqb type "signature" then signature else file in
  answer !! "content-disposition" =
    Some ("attachment; filename=" +:+ tb_file client asked version lang) /\
  answer !! "content-type" =
    Some (match asked, client with
          | signature, _ => "application/pgp-signature"
          | file, windows => "application/x-msdownload"
          | file, osx => "application/x-apple-diskimage"
          end) /\
  forall name, name <> "content-disposition" -> name <> "content-type" ->
    answer !! name = request !! name.
Proof.
  destruct client; unfold processGetTorRequest;
    cbn [client_name String.eqb Ascii.eqb Bool.eqb];
    destruct (String.eqb type "signature"); unfold sendFile;
    destruct (_ ≫= _); cbn [snd];
    (split; [by rewrite lookup_insert_eq|]);
    (split; [by rewrite lookup_insert_ne, lookup_insert_eq|]);
    intros name H1 H2; by rewrite !lookup_insert_ne.
Qed.

(** X25.  When the removal of the live directory fails, a run that goes on
    and writes the version [v] leaves the version file with [v] and the
    live directory with what the removal has left of its files: a request
    for an installer of [v] that the directory did not hold before the run
    fails when the file is opened, the new files being in a directory
    inside of the live one. *)
Theorem failed_removal_not_served env w v (old : gmap string string) request
    (client : client_os) (lang type : string) :
  WriteVersion v ∈ operations (snd (run env w)) ->
  is_Some (fs_fault env RmtreeLatest) ->
  latest_path w = Some old ->
  old !! tb_file client file v lang = None ->
  type <> "signature" ->
  latest_tb_file (world (snd (run env w))) = Some v /\
  latest_path (world (snd (run env w))) = Some (left_of env ["latest"] old) /\
  is_Some (latest_temp (world (snd (run env w)))) /\
  fst (processGetTorRequest request (client_name client) lang type v
         (latest_path (world (snd (run env w))))) = Fails OpenError.
Proof.
  intros Hin [e He] Hold Hfile Htype.
  destruct (run_wrote env w v Hin)
    as (text & langs & page & files & _ & _ & _ & _ & _ & _ & _ & _ & Hv &
        _ & Hw).
  unfold after_rmtree_latest in Hw. rewrite He, Hold in Hw.
  cbn [latest_path] in Hw. destruct Hw as [Hp Ht].
  split; [done|]. split; [done|]. split; [by rewrite Ht|].
  destruct (processGetTorRequest_file request client lang type v
              (latest_path (world (snd (run env w))))) as [ctype ->].
  apply String.eqb_neq in Htype. rewrite Htype.
  unfold sendFile. rewrite Hp. cbn [mbind option_bind].
  assert (Hnone : left_of env ["latest"] old !! tb_file client file v lang =
                  None).
  { unfold left_of. apply map_lookup_filter_None. by left. }
  by rewrite Hnone.
Qed.

Lemma failed_removal_not_served_witness :
  latest_tb_file (world (snd (run Sample.removal_fails Sample.before))) =
    Some "5.5.3" /\
  latest_path (world (snd (run Sample.removal_fails Sample.before))) =
    Some (left_of Sample.removal_fails ["latest"] Sample.old_release) /\
  is_Some (latest_temp (world (snd (run Sample.removal_fails
                                      Sample.before)))) /\
  fst (processGetTorRequest ∅ "windows" "en-US" "file" "5.5.3"
         (latest_path (world (snd (run Sample.removal_fails Sample.before))))) =
    Fails OpenError.
Proof.
  apply (failed_removal_not_served Sample.removal_fails Sample.before "5.5.3"
           Sample.old_release ∅ windows "en-US" "file").
  - apply (bool_decide_unpack _). by vm_compute.
  - by eexists.
  - reflexivity.
  - by vm_compute.
  - done.
Defined.
(** ** What the task does not do *)

(** X23.  A release is put in place only when every file of it has been
    downloaded: when the download of one of the files that the task
    extracts from the page of the mirror fails, the run does operations on
    the staging directory only, and the live directory and the version
    file are as they were.  The files are those that [mirror_links] gives:
    for locales that stand for themselves in the pattern, the set
    [extractLinks page (url_regexp langs)]. *)
Theorem getTorTask_download_fails env w lv langs page files f e :
  found_version env = Return lv ->
  gettor_locales env = Return langs ->
  getPage env (dist_tpo +:+ lv +:+ "/") = Return page ->
  mirror_links env langs page = Return files ->
  f ∈ files ->
  downloadPage env (file_url lv f) = Raise e ->
  Forall staging_op (operations (snd (run env w))) /\
  latest_path (world (snd (run env w))) = latest_path w /\
  latest_tb_file (world (snd (run env w))) = latest_tb_file w.
Proof.
  intros Hlv Hlangs Hpage Hlinks Hf Hfail.
  destruct (run_cases env w)
    as [(Hpre & Hp & _ & Hv)|(lv' & text & langs' & page' & files' & pre &
                              Hlv' & _ & _ & _ & Hlangs' & Hpage' & Hlinks' &
                              Hbodies & _)].
  - split; [by eapply staging_operations|done].
  - exfalso.
    assert (lv' = lv) as -> by congruence.
    assert (langs' = langs) as -> by congruence.
    assert (page' = page) as -> by congruence.
    assert (files' = files) as -> by congruence.
    destruct (Hbodies f Hf) as [body Hbody]. congruence.
Qed.

Lemma getTorTask_download_fails_witness :
  Forall staging_op
    (operations (snd (run Sample.download_fails Sample.before))) /\
  latest_path (world (snd (run Sample.download_fails Sample.before))) =
    latest_path Sample.before /\
  latest_tb_file (world (snd (run Sample.download_fails Sample.before))) =
    latest_tb_file Sample.before.
Proof.
  apply (getTorTask_download_fails Sample.download_fails Sample.before "5.5.3"
           ["en-US"] Sample.page
           (extractLinks Sample.page (url_regexp ["en-US"]))
           "torbrowser-install-5.5.3_en-US.exe" WebError).
  - reflexivity.
  - reflexivity.
  - reflexivity.
  - reflexivity.
  - apply (bool_decide_unpack _). by vm_compute.
  - reflexivity.
Defined.

(** X24.  The task touches no file before it has all that it needs: a run
    with an operation at least has found a version, has read a version file
    with another version, has got the list of the locales and the page of
    the mirror for the version found. *)
Theorem getTorTask_before_staging env w :
  operations (snd (run env w)) <> [] ->
  exists lv text langs page,
    found_version env = Return lv /\ fs_fault env ReadVersion = None /\
    latest_tb_file w = Some text /\ Py.remove_char "010" text <> lv /\
    gettor_locales env = Return langs /\
    getPage env (dist_tpo +:+ lv +:+ "/") = Return page.
Proof.
  rewrite run_catches. cbn [snd]. intros Hops.
  destruct (run_body_cases env w)
    as [Hnone|(lv & text & langs & page & files & Hlv & Hread & Htext & Hne &
               Hlangs & Hpage & _)].
  - by rewrite Hnone in Hops.
  - by exists lv, text, langs, page.
Qed.

Lemma getTorTask_before_staging_witness :
  exists lv text langs page,
    found_version Sample.fine = Return lv /\
    fs_fault Sample.fine ReadVersion = None /\
    latest_tb_file Sample.before = Some text /\
    Py.remove_char "010" text <> lv /\
    gettor_locales Sample.fine = Return langs /\
    getPage Sample.fine (dist_tpo +:+ lv +:+ "/") = Return page.
Proof.
  apply (getTorTask_before_staging Sample.fine Sample.before).
  by vm_compute.
Defined.
